(** * Streaming PDF writer and merger (pdfstreamingdocumentwriter.h / .cpp)

    A shallow embedding of [PDFStreamingWriteObjectVisitor],
    [PDFStreamingDocumentWriter] and [PDFStreamingMerger], followed by the
    properties of the written file: object offsets, cross-reference rows,
    the open/closed discipline, reservations and the merge passes. *)

From Stdlib Require Import ZArith Ascii String List Lia.
From stdpp Require Import base option list gmap.

Set Warnings "-register-all".

(** ** Byte strings *)

(** [QByteArray], and every [QString] once it went through [toLatin1()]. *)
Abbreviation QByteArray := (list ascii).

Definition latin1 (s : string) : QByteArray := list_ascii_of_string s.
Arguments latin1 s%_string.

(** The two bytes ["\x0D\x0A"]. *)
Definition CRLF : QByteArray := ["013"%char; "010"%char].

(** [QByteArray::indexOf(char)]: the first position of [c], or -1. *)
Fixpoint indexOfFrom (i : Z) (c : ascii) (data : QByteArray) : Z :=
  match data with
  | [] => (-1)%Z
  | x :: rest => if Ascii.eqb x c then i else indexOfFrom (i + 1)%Z c rest
  end.

Definition indexOf (c : ascii) (data : QByteArray) : Z := indexOfFrom 0%Z c data.

(** One lowercase hexadecimal digit, for a value below 16. *)
Definition hexDigit (n : N) : ascii :=
  if (n <? 10)%N then ascii_of_N (48 + n) else ascii_of_N (87 + n).

(** [QByteArray::toHex()]: two lowercase digits per byte, no separator. *)
Definition toHex (data : QByteArray) : QByteArray :=
  flat_map (fun c => [hexDigit (N_of_ascii c / 16); hexDigit (N_of_ascii c mod 16)]) data.

(** The decimal digits of a non-negative number, most significant first;
    [fuel] bounds the number of digits produced. *)
Fixpoint decimalDigits (fuel : nat) (n : Z) (acc : QByteArray) : QByteArray :=
  match fuel with
  | O => acc
  | S fuel' =>
      let acc' := ascii_of_N (48 + Z.to_N (n mod 10)) :: acc in
      if (n / 10 =? 0)%Z then acc' else decimalDigits fuel' (n / 10)%Z acc'
  end.

(** [QString::number(qlonglong)]: a 64-bit value has at most 19 digits, so
    the fuel is never exhausted on a [PDFInteger] or a [size_t]. *)
Definition QString_number (n : Z) : QByteArray :=
  if (n <? 0)%Z then "-"%char :: decimalDigits 20 (- n)%Z []
  else decimalDigits 20 n [].

(** [QString::rightJustified(width, fill, truncate = true)]: padded on the
    left up to [width]; a longer string is cut at position [width]. *)
Definition rightJustified (width : nat) (fill : ascii) (s : QByteArray) : QByteArray :=
  if width <? length s then take width s
  else replicate (width - length s) fill ++ s.

(** ** What the writer takes from Qt and from the rest of the library *)

Class Environment := {
  (** [PDFReal], a double. *)
  PDFReal : Type;
  (** [QString::number(value, 'f', 5).toLatin1()]. *)
  QString_number_f5 : PDFReal -> QByteArray;
  (** [PDFLexicalAnalyzer::isRegular] (pdfparser.h). *)
  isRegular : ascii -> bool;
  (** [PDF_LIBRARY_NAME] (pdfconstants.h). *)
  PDF_LIBRARY_NAME : QByteArray;
}.

(** ** The byte sink *)

(** A [QIODevice] used for output only. [dev_buffer] holds the bytes the
    device accepted; [dev_requested] is every byte a caller passed to
    [write], accepted or not. A device whose [dev_failed] flag is set
    rejects every write ([write] returns -1 and stores nothing). *)
Record QIODevice := mkDevice {
  dev_buffer : QByteArray;
  dev_requested : QByteArray;
  dev_writable : bool;
  dev_failed : bool;
}.

(** [QIODevice::write(data)]; the writer never reads its result. *)
Definition write (data : QByteArray) (d : QIODevice) : QIODevice :=
  {| dev_buffer := if dev_failed d then dev_buffer d else dev_buffer d ++ data;
     dev_requested := dev_requested d ++ data;
     dev_writable := dev_writable d;
     dev_failed := dev_failed d |}.

(** [QIODevice::pos()]. *)
Definition pos (d : QIODevice) : Z := Z.of_nat (length (dev_buffer d)).

Definition isWritable (d : QIODevice) : bool := dev_writable d.

(** ** PDF objects *)

(** Modelled from the spec: pdfobject.h is not among the sources. A
    reference is a pair (object number, generation); the default-constructed
    one is (0, 0), and a reference is valid when its object number is at
    least 1, object number 0 being the head of the free list. *)
Record PDFObjectReference := mkRef {
  objectNumber : Z;
  generation : Z;
}.

Definition invalidReference : PDFObjectReference := mkRef 0 0.

Definition isValid (r : PDFObjectReference) : bool := (0 <? objectNumber r)%Z.

(** Modelled from the spec: the ten cases of a PDF value (section 3); a
    dictionary keeps its entries in insertion order. *)
Inductive PDFObject `{Environment} : Type :=
| Null
| Bool (value : bool)
| Int (value : Z)
| Real (value : PDFReal)
| String (data : QByteArray)
| Name (name : QByteArray)
| Array (items : list PDFObject)
| Dictionary (entries : list (QByteArray * PDFObject))
| Stream (entries : list (QByteArray * PDFObject)) (content : QByteArray)
| Reference (reference : PDFObjectReference).

Definition isNull `{Environment} (o : PDFObject) : bool :=
  match o with Null => true | _ => false end.

(** ** PDFStreamingWriteObjectVisitor *)

Section Visitor.
Context `{Environment}.

Definition visitNull (d : QIODevice) : QIODevice := write (latin1 "null ") d.

Definition visitBool (value : bool) (d : QIODevice) : QIODevice :=
  write (if value then latin1 "true " else latin1 "false ") d.

Definition visitInt (value : Z) (d : QIODevice) : QIODevice :=
  write (latin1 " ") (write (QString_number value) d).

Definition visitReal (value : PDFReal) (d : QIODevice) : QIODevice :=
  write (latin1 " ") (write (QString_number_f5 value) d).

Definition visitString (data : QByteArray) (d : QIODevice) : QIODevice :=
  let d :=
    if negb (indexOf "(" data =? -1)%Z || negb (indexOf ")" data =? -1)%Z
       || negb (indexOf "\" data =? -1)%Z
    then write (latin1 ">") (write (toHex data) (write (latin1 "<") d))
    else write (latin1 ")") (write data (write (latin1 "(") d)) in
  write (latin1 " ") d.

Definition visitNameChar (d : QIODevice) (character : ascii) : QIODevice :=
  if isRegular character then write [character] d
  else write (toHex [character]) (write (latin1 "#") d).

Definition visitName (name : QByteArray) (d : QIODevice) : QIODevice :=
  write (latin1 " ") (fold_left visitNameChar name (write (latin1 "/") d)).

Definition visitReference (reference : PDFObjectReference) (d : QIODevice) : QIODevice :=
  write (latin1 "R ") (visitInt (generation reference) (visitInt (objectNumber reference) d)).

(** [PDFObject::accept(&visitor)], with [visitArray], [visitDictionary] and
    [visitStream] in place. *)
Fixpoint accept (o : PDFObject) (d : QIODevice) : QIODevice :=
  let visitDictionary (entries : list (QByteArray * PDFObject)) (d : QIODevice) :=
    write (latin1 ">> ")
      (fold_left (fun d kv => accept (snd kv) (visitName (fst kv) d)) entries
         (write (latin1 "<< ") d)) in
  match o with
  | Null => visitNull d
  | Bool value => visitBool value d
  | Int value => visitInt value d
  | Real value => visitReal value d
  | String data => visitString data d
  | Name name => visitName name d
  | Array items =>
      write (latin1 "] ") (fold_left (fun d item => accept item d) items (write (latin1 "[ ") d))
  | Dictionary entries => visitDictionary entries d
  | Stream entries content =>
      write CRLF (write (latin1 "endstream") (write CRLF (write content
        (write CRLF (write (latin1 "stream") (visitDictionary entries d))))))
  | Reference reference => visitReference reference d
  end.

End Visitor.

(** ** PDFStreamingDocumentWriter *)

(** Modelled from the spec: [PDFVersion] (pdfobject.h), the two version
    digits of the header line. *)
Record PDFVersion := mkVersion {
  major : Z;
  minor : Z;
}.

(** [PDFOperationResult]: built from [true], or from an error message. *)
Inductive PDFOperationResult :=
| OperationSuccess
| OperationError (message : QByteArray).

(** [struct ObjectEntry]; an [entry_offset] of -1 means not yet written.
    Offsets and generations are [PDFInteger]s, 64-bit signed; the writer
    only stores, compares and prints them, so they are kept as [Z]. *)
Record ObjectEntry := mkEntry {
  entry_offset : Z;
  entry_generation : Z;
  entry_isReserved : bool;
}.

(** The writer's members. The device pointer is taken to be non-null (the
    merger always passes one); [m_progress] is never used. *)
Record PDFStreamingDocumentWriter := mkWriter {
  m_device : QIODevice;
  m_version : PDFVersion;
  m_isOpen : bool;
  m_objectOffsets : list ObjectEntry;
  m_pages : list PDFObjectReference;
  m_catalogReference : PDFObjectReference;
  m_infoReference : PDFObjectReference;
}.

Definition onDevice (f : QIODevice -> QIODevice) (w : PDFStreamingDocumentWriter) :=
  mkWriter (f (m_device w)) (m_version w) (m_isOpen w) (m_objectOffsets w)
    (m_pages w) (m_catalogReference w) (m_infoReference w).

Definition setObjectOffsets (offsets : list ObjectEntry) (w : PDFStreamingDocumentWriter) :=
  mkWriter (m_device w) (m_version w) (m_isOpen w) offsets
    (m_pages w) (m_catalogReference w) (m_infoReference w).

Definition setIsOpen (open : bool) (w : PDFStreamingDocumentWriter) :=
  mkWriter (m_device w) (m_version w) open (m_objectOffsets w)
    (m_pages w) (m_catalogReference w) (m_infoReference w).

Definition setVersion (version : PDFVersion) (w : PDFStreamingDocumentWriter) :=
  mkWriter (m_device w) version (m_isOpen w) (m_objectOffsets w)
    (m_pages w) (m_catalogReference w) (m_infoReference w).

(** The constructor: slot 0 is reserved, always free. *)
Definition newWriter (device : QIODevice) : PDFStreamingDocumentWriter :=
  mkWriter device (mkVersion 1 7) false [mkEntry (-1) 65535 false] []
    invalidReference invalidReference.

Definition getObjectCount (w : PDFStreamingDocumentWriter) : nat :=
  length (m_objectOffsets w).

Definition getBytesWritten (w : PDFStreamingDocumentWriter) : Z := pos (m_device w).

Definition isOpen (w : PDFStreamingDocumentWriter) : bool := m_isOpen w.

Definition writeCRLF (d : QIODevice) : QIODevice := write CRLF d.

Definition writeObjectHeader (reference : PDFObjectReference) (d : QIODevice) : QIODevice :=
  let objectHeader :=
    QString_number (objectNumber reference) ++ latin1 " "
      ++ QString_number (generation reference) ++ latin1 " obj" in
  writeCRLF (write objectHeader d).

Definition writeObjectFooter (d : QIODevice) : QIODevice :=
  writeCRLF (write (latin1 "endobj") d).

Section Writer.
Context `{Environment}.

(** The private overload [writeObject(const PDFObject&)]. *)
Definition writeObjectContent (object : PDFObject) (d : QIODevice) : QIODevice :=
  accept object d.

Definition beginDocument (version : PDFVersion) (w : PDFStreamingDocumentWriter)
  : bool * PDFStreamingDocumentWriter :=
  if negb (isWritable (m_device w)) then (false, w)
  else
    let w := setIsOpen true (setVersion version w) in
    let w := onDevice (write (latin1 "%PDF-" ++ QString_number (major version)
                               ++ latin1 "." ++ QString_number (minor version))) w in
    let w := onDevice writeCRLF w in
    let w := onDevice (write (latin1 "% PDF producer: ")) w in
    let w := onDevice (write PDF_LIBRARY_NAME) w in
    let w := onDevice (write (latin1 " (PDF4QT-Opus Streaming Writer)")) w in
    let w := onDevice writeCRLF w in
    let w := onDevice (write (latin1 "%")) w in
    let w := onDevice (write ["226"; "227"; "207"; "211"]%char) w in
    let w := onDevice writeCRLF w in
    let w := onDevice writeCRLF w in
    (true, w).

Definition writeObject (object : PDFObject) (generation : Z)
    (w : PDFStreamingDocumentWriter) : PDFObjectReference * PDFStreamingDocumentWriter :=
  if negb (m_isOpen w) then (invalidReference, w)
  else
    let objectNumber := Z.of_nat (length (m_objectOffsets w)) in
    let reference := mkRef objectNumber generation in
    let entry := mkEntry (pos (m_device w)) generation false in
    let w := setObjectOffsets (m_objectOffsets w ++ [entry]) w in
    let w := onDevice (writeObjectHeader reference) w in
    let w := onDevice (writeObjectContent object) w in
    let w := onDevice writeObjectFooter w in
    (reference, w).

Definition reserveObject (generation : Z) (w : PDFStreamingDocumentWriter)
  : PDFObjectReference * PDFStreamingDocumentWriter :=
  let objectNumber := Z.of_nat (length (m_objectOffsets w)) in
  let entry := mkEntry (-1) generation true in
  let w := setObjectOffsets (m_objectOffsets w ++ [entry]) w in
  (mkRef objectNumber generation, w).

Definition writeReservedObject (reference : PDFObjectReference) (object : PDFObject)
    (w : PDFStreamingDocumentWriter) : bool * PDFStreamingDocumentWriter :=
  if negb (m_isOpen w) || (objectNumber reference <? 0)%Z
     || (Z.of_nat (length (m_objectOffsets w)) <=? objectNumber reference)%Z
  then (false, w)
  else
    (* the index is in range by the test above *)
    match m_objectOffsets w !! Z.to_nat (objectNumber reference) with
    | None => (false, w)
    | Some entry =>
        if negb (entry_isReserved entry) || negb (entry_offset entry =? -1)%Z
        then (false, w)
        else
          let entry := mkEntry (pos (m_device w)) (entry_generation entry) false in
          let w := setObjectOffsets
                     (<[Z.to_nat (objectNumber reference) := entry]> (m_objectOffsets w)) w in
          let w := onDevice (writeObjectHeader reference) w in
          let w := onDevice (writeObjectContent object) w in
          let w := onDevice writeObjectFooter w in
          (true, w)
    end.

Definition addPage (pageReference : PDFObjectReference) (w : PDFStreamingDocumentWriter) :=
  mkWriter (m_device w) (m_version w) (m_isOpen w) (m_objectOffsets w)
    (m_pages w ++ [pageReference]) (m_catalogReference w) (m_infoReference w).

Definition setCatalogReference (catalogReference : PDFObjectReference)
    (w : PDFStreamingDocumentWriter) :=
  mkWriter (m_device w) (m_version w) (m_isOpen w) (m_objectOffsets w)
    (m_pages w) catalogReference (m_infoReference w).

Definition setInfoReference (infoReference : PDFObjectReference)
    (w : PDFStreamingDocumentWriter) :=
  mkWriter (m_device w) (m_version w) (m_isOpen w) (m_objectOffsets w)
    (m_pages w) (m_catalogReference w) infoReference.

(** The dictionary [createPageTree] builds with the object factory. *)
Definition pageTreeObject (pages : list PDFObjectReference) : PDFObject :=
  Dictionary [ (latin1 "Type", Name (latin1 "Pages"));
               (latin1 "Kids", Array (map Reference pages));
               (latin1 "Count", Int (Z.of_nat (length pages))) ].

Definition createPageTree (w : PDFStreamingDocumentWriter) :=
  writeObject (pageTreeObject (m_pages w)) 0 w.

Definition catalogObject (pageTreeRoot : PDFObjectReference) : PDFObject :=
  Dictionary [ (latin1 "Type", Name (latin1 "Catalog"));
               (latin1 "Pages", Reference pageTreeRoot) ].

Definition createCatalog (pageTreeRoot : PDFObjectReference) (w : PDFStreamingDocumentWriter) :=
  writeObject (catalogObject pageTreeRoot) 0 w.

(** The first loop of [endDocument], from index [i] on: the first slot that
    is reserved and was never written. *)
Fixpoint findUnwritten (i : nat) (entries : list ObjectEntry) : option nat :=
  match entries with
  | [] => None
  | entry :: rest =>
      if entry_isReserved entry && (entry_offset entry =? -1)%Z then Some i
      else findUnwritten (S i) rest
  end.

(** The body of the cross-reference loop, for slot [i]. *)
Definition writeXRefEntry (i : nat) (entry : ObjectEntry) (d : QIODevice) : QIODevice :=
  let generation := entry_generation entry in
  let offset := entry_offset entry in
  let offset := if (offset =? -1)%Z then 0%Z else offset in
  let offsetString := rightJustified 10 "0" (QString_number offset) in
  let generationString := rightJustified 5 "0" (QString_number generation) in
  let d := write offsetString d in
  let d := write (latin1 " ") d in
  let d := write generationString d in
  let d := write (latin1 " ") d in
  let d := write (if (i =? 0) || (entry_offset entry =? -1)%Z
                  then latin1 "f" else latin1 "n") d in
  writeCRLF d.

Fixpoint writeXRefEntries (i : nat) (entries : list ObjectEntry) (d : QIODevice) : QIODevice :=
  match entries with
  | [] => d
  | entry :: rest => writeXRefEntries (S i) rest (writeXRefEntry i entry d)
  end.

(** The trailer dictionary built with the object factory. *)
Definition trailerObject (w : PDFStreamingDocumentWriter) : PDFObject :=
  Dictionary ([ (latin1 "Size", Int (Z.of_nat (length (m_objectOffsets w))));
                (latin1 "Root", Reference (m_catalogReference w)) ]
              ++ (if isValid (m_infoReference w)
                  then [ (latin1 "Info", Reference (m_infoReference w)) ] else [])).

(** The block of [endDocument] that creates the catalog if it is not set. *)
Definition ensureCatalog (w : PDFStreamingDocumentWriter) : PDFStreamingDocumentWriter :=
  if negb (isValid (m_catalogReference w)) then
    let '(pageTreeRoot, w) := createPageTree w in
    let '(catalog, w) := createCatalog pageTreeRoot w in
    setCatalogReference catalog w
  else w.

(** The block of [endDocument] that writes the cross-reference table. *)
Definition writeXRefTable (w : PDFStreamingDocumentWriter) : PDFStreamingDocumentWriter :=
  let w := onDevice (write (latin1 "xref")) w in
  let w := onDevice writeCRLF w in
  let w := onDevice (write (latin1 "0 "
             ++ QString_number (Z.of_nat (length (m_objectOffsets w))))) w in
  let w := onDevice writeCRLF w in
  onDevice (writeXRefEntries 0 (m_objectOffsets w)) w.

(** The block of [endDocument] that writes the trailer; [xrefOffset] is the
    position read before the cross-reference table was written. *)
Definition writeTrailer (xrefOffset : Z) (w : PDFStreamingDocumentWriter)
  : PDFStreamingDocumentWriter :=
  let trailer := trailerObject w in
  let w := onDevice (write (latin1 "trailer")) w in
  let w := onDevice writeCRLF w in
  let w := onDevice (accept trailer) w in
  let w := onDevice writeCRLF w in
  let w := onDevice (write (latin1 "startxref")) w in
  let w := onDevice writeCRLF w in
  let w := onDevice (write (QString_number xrefOffset)) w in
  let w := onDevice writeCRLF w in
  onDevice (write (latin1 "%%EOF")) w.

Definition endDocument (w : PDFStreamingDocumentWriter)
  : PDFOperationResult * PDFStreamingDocumentWriter :=
  if negb (m_isOpen w) then (OperationError (latin1 "Document is not open."), w)
  else
    match findUnwritten 1 (drop 1 (m_objectOffsets w)) with
    | Some i =>
        (OperationError (latin1 "Reserved object " ++ QString_number (Z.of_nat i)
                           ++ latin1 " was never written."), w)
    | None =>
        let w := ensureCatalog w in
        let xrefOffset := pos (m_device w) in
        let w := writeXRefTable w in
        let w := writeTrailer xrefOffset w in
        (OperationSuccess, setIsOpen false w)
    end.

End Writer.

(** ** PDFStreamingMerger *)

Global Instance PDFObjectReference_eq_dec : EqDecision PDFObjectReference.
Proof. solve_decision. Defined.

Global Instance PDFObjectReference_countable : Countable PDFObjectReference.
Proof.
  refine (inj_countable' (fun r => (objectNumber r, generation r))
            (fun p => mkRef (fst p) (snd p)) _).
  intros []; reflexivity.
Defined.

(** [std::map<PDFObjectReference, PDFObjectReference>]. *)
Abbreviation ReferenceMapping := (gmap PDFObjectReference PDFObjectReference).

(** [std::map::operator[]]: a missing key is first inserted with a
    default-constructed value. *)
Definition subscript (mapping : ReferenceMapping) (key : PDFObjectReference)
  : PDFObjectReference * ReferenceMapping :=
  match mapping !! key with
  | Some value => (value, mapping)
  | None => (invalidReference, <[key := invalidReference]> mapping)
  end.

Section Merger.
Context `{Environment}.

(** Modelled from the spec: [PDFObjectStorage::Entry] and [PDFDocument]
    (pdfdocument.h), an ordered slot array of (generation, value or null)
    and an ordered list of pages; a page the catalog does not have is
    [None]. *)
Record StorageEntry := mkStorageEntry {
  slot_generation : Z;
  slot_object : PDFObject;
}.

Record PDFDocument := mkDocument {
  doc_objects : list StorageEntry;
  doc_pages : list (option PDFObjectReference);
}.

(** Modelled from the spec: [PDFObjectUtils::replaceReferences]
    (pdfobjectutils.h), section 4.4: a deep copy in which every reference
    found in the mapping is substituted and every other one is kept;
    dictionary keys and stream payloads are copied unchanged. *)
Fixpoint replaceReferences (o : PDFObject) (mapping : ReferenceMapping) : PDFObject :=
  match o with
  | Reference r =>
      match mapping !! r with
      | Some r' => Reference r'
      | None => Reference r
      end
  | Array items => Array (map (fun item => replaceReferences item mapping) items)
  | Dictionary entries =>
      Dictionary (map (fun kv => (fst kv, replaceReferences (snd kv) mapping)) entries)
  | Stream entries content =>
      Stream (map (fun kv => (fst kv, replaceReferences (snd kv) mapping)) entries) content
  | other => other
  end.

(** The merger's members; the device lives inside the writer that was built
    over it, and [m_writer] is [None] until [begin] succeeded in opening
    the file. *)
Record PDFStreamingMerger := mkMerger {
  m_writer : option PDFStreamingDocumentWriter;
  m_totalPages : nat;
  m_totalDocuments : nat;
}.

Definition newMerger : PDFStreamingMerger := mkMerger None 0 0.

(** [begin()]; [file] is the freshly opened [QSaveFile], or [None] when
    [open] failed. *)
Definition begin (file : option QIODevice) (m : PDFStreamingMerger)
  : bool * PDFStreamingMerger :=
  match file with
  | None => (false, m)
  | Some device =>
      let '(ok, w) := beginDocument (mkVersion 1 7) (newWriter device) in
      (ok, mkMerger (Some w) (m_totalPages m) (m_totalDocuments m))
  end.

(** First pass of [addDocument], from slot [i] on. *)
Fixpoint reservePass (i : nat) (objects : list StorageEntry)
    (referenceMapping : ReferenceMapping) (w : PDFStreamingDocumentWriter)
  : ReferenceMapping * PDFStreamingDocumentWriter :=
  match objects with
  | [] => (referenceMapping, w)
  | entry :: rest =>
      if negb (isNull (slot_object entry)) then
        let oldRef := mkRef (Z.of_nat i) (slot_generation entry) in
        let '(newRef, w) := reserveObject 0 w in
        reservePass (S i) rest (<[oldRef := newRef]> referenceMapping) w
      else reservePass (S i) rest referenceMapping w
  end.

(** Second pass of [addDocument], from slot [i] on. *)
Fixpoint emitPass (i : nat) (objects : list StorageEntry)
    (referenceMapping : ReferenceMapping) (w : PDFStreamingDocumentWriter)
  : ReferenceMapping * PDFStreamingDocumentWriter :=
  match objects with
  | [] => (referenceMapping, w)
  | entry :: rest =>
      if negb (isNull (slot_object entry)) then
        let oldRef := mkRef (Z.of_nat i) (slot_generation entry) in
        let '(newRef, referenceMapping) := subscript referenceMapping oldRef in
        let updatedObject := replaceReferences (slot_object entry) referenceMapping in
        let '(_, w) := writeReservedObject newRef updatedObject w in
        emitPass (S i) rest referenceMapping w
      else emitPass (S i) rest referenceMapping w
  end.

(** The page loop of [addDocument]. *)
Fixpoint pagesPass (pages : list (option PDFObjectReference))
    (referenceMapping : ReferenceMapping) (w : PDFStreamingDocumentWriter)
    (totalPages : nat) : PDFStreamingDocumentWriter * nat :=
  match pages with
  | [] => (w, totalPages)
  | page :: rest =>
      match page with
      | Some oldPageRef =>
          match referenceMapping !! oldPageRef with
          | Some newPageRef =>
              pagesPass rest referenceMapping (addPage newPageRef w) (S totalPages)
          | None => pagesPass rest referenceMapping w totalPages
          end
      | None => pagesPass rest referenceMapping w totalPages
      end
  end.

Definition addDocument (document : PDFDocument) (documentIndex : Z)
    (namespaceFields : bool) (m : PDFStreamingMerger) : bool * PDFStreamingMerger :=
  match m_writer m with
  | None => (false, m)
  | Some w =>
      if negb (isOpen w) then (false, m)
      else
        let objects := doc_objects document in
        let '(referenceMapping, w) := reservePass 1 (drop 1 objects) ∅ w in
        let '(referenceMapping, w) := emitPass 1 (drop 1 objects) referenceMapping w in
        let '(w, totalPages) :=
          pagesPass (doc_pages document) referenceMapping w (m_totalPages m) in
        (true, mkMerger (Some w) totalPages (S (m_totalDocuments m)))
  end.

(** ** Sequences of calls on a writer *)

Inductive Call :=
| CallBeginDocument (version : PDFVersion)
| CallWriteObject (object : PDFObject) (generation : Z)
| CallReserveObject (generation : Z)
| CallWriteReservedObject (reference : PDFObjectReference) (object : PDFObject)
| CallAddPage (pageReference : PDFObjectReference)
| CallSetCatalogReference (catalogReference : PDFObjectReference)
| CallSetInfoReference (infoReference : PDFObjectReference)
| CallCreatePageTree
| CallCreateCatalog (pageTreeRoot : PDFObjectReference)
| CallEndDocument.

Inductive Outcome :=
| ReturnedBool (b : bool)
| ReturnedReference (r : PDFObjectReference)
| ReturnedResult (r : PDFOperationResult)
| ReturnedNothing.

Definition perform (c : Call) (w : PDFStreamingDocumentWriter)
  : Outcome * PDFStreamingDocumentWriter :=
  match c with
  | CallBeginDocument version => prod_map ReturnedBool id (beginDocument version w)
  | CallWriteObject object generation =>
      prod_map ReturnedReference id (writeObject object generation w)
  | CallReserveObject generation => prod_map ReturnedReference id (reserveObject generation w)
  | CallWriteReservedObject reference object =>
      prod_map ReturnedBool id (writeReservedObject reference object w)
  | CallAddPage pageReference => (ReturnedNothing, addPage pageReference w)
  | CallSetCatalogReference r => (ReturnedNothing, setCatalogReference r w)
  | CallSetInfoReference r => (ReturnedNothing, setInfoReference r w)
  | CallCreatePageTree => prod_map ReturnedReference id (createPageTree w)
  | CallCreateCatalog pageTreeRoot =>
      prod_map ReturnedReference id (createCatalog pageTreeRoot w)
  | CallEndDocument => prod_map ReturnedResult id (endDocument w)
  end.

Fixpoint performAll (calls : list Call) (w : PDFStreamingDocumentWriter)
  : list Outcome * PDFStreamingDocumentWriter :=
  match calls with
  | [] => ([], w)
  | c :: rest =>
      let '(outcome, w) := perform c w in
      let '(outcomes, w) := performAll rest w in
      (outcome :: outcomes, w)
  end.

(** A [writeReservedObject] call is given the reference that
    [reserveObject] returned when the generation it carries is the one
    recorded in the slot it names. *)
Definition exactReference (w : PDFStreamingDocumentWriter) (c : Call) : bool :=
  match c with
  | CallWriteReservedObject reference _ =>
      match m_objectOffsets w !! Z.to_nat (objectNumber reference) with
      | Some entry => (entry_generation entry =? generation reference)%Z
      | None => true
      end
  | _ => true
  end.

Fixpoint exactReferences (w : PDFStreamingDocumentWriter) (calls : list Call) : bool :=
  match calls with
  | [] => true
  | c :: rest => exactReference w c && exactReferences (snd (perform c w)) rest
  end.

End Merger.

(** ** What a device transformer emits *)

(** A device that accepted nothing yet. *)
Definition blankDevice : QIODevice := mkDevice [] [] true false.

(** The bytes a sequence of writes passes to the device. *)
Definition emitted (f : QIODevice -> QIODevice) : QByteArray :=
  dev_requested (f blankDevice).

(** The object serializer: the bytes the visitor writes for an object. *)
Definition serialize `{Environment} (o : PDFObject) : QByteArray := emitted (accept o).

(** The header line ["N G obj\r\n"] and the footer line ["endobj\r\n"]. *)
Definition objectHeader (reference : PDFObjectReference) : QByteArray :=
  emitted (writeObjectHeader reference).

Definition objectFooter : QByteArray := emitted writeObjectFooter.

(** The bytes of a whole indirect object. *)
Definition indirectObject `{Environment} (reference : PDFObjectReference) (o : PDFObject)
  : QByteArray :=
  objectHeader reference ++ serialize o ++ objectFooter.

(** The row the cross-reference loop writes for slot [i]. *)
Definition xrefRow `{Environment} (i : nat) (entry : ObjectEntry) : QByteArray :=
  emitted (writeXRefEntry i entry).

(** ** A concrete environment for worked examples *)

(** Modelled from the spec: a byte is regular when it is printable ASCII
    and neither white space nor one of the delimiters ()<>[]{}/% nor #
    (section 4.1). *)
Definition isRegularSpec (c : ascii) : bool :=
  let n := N_of_ascii c in
  (33 <=? n)%N && (n <=? 126)%N
  && negb (existsb (Ascii.eqb c) (latin1 "()<>[]{}/%#")).

(** Documents without real numbers. *)
Definition sampleEnvironment : Environment :=
  {| PDFReal := Empty_set;
     QString_number_f5 := fun r => match r with end;
     isRegular := isRegularSpec;
     PDF_LIBRARY_NAME := latin1 "PDF4QT" |}.

(** ** Vocabulary of the properties *)

(** [Emits f X]: the transformer [f] amounts to one write of [X]. *)
Definition Emits (f : QIODevice -> QIODevice) (X : QByteArray) : Prop :=
  forall d, f d = write X d.

(** Slot [i] is reserved and was never written. *)
Definition Unwritten (w : PDFStreamingDocumentWriter) (i : nat) : Prop :=
  exists entry, m_objectOffsets w !! i = Some entry
    /\ entry_isReserved entry = true /\ entry_offset entry = (-1)%Z.

(** The guard of [writeReservedObject] on an open writer: the object number
    names an existing slot that is reserved and was never written. *)
Definition Fulfillable (w : PDFStreamingDocumentWriter) (reference : PDFObjectReference)
  : Prop :=
  (0 <= objectNumber reference)%Z /\ Unwritten w (Z.to_nat (objectNumber reference)).

(** The cross-reference section for a table of slots. *)
Definition xrefSection `{Environment} (entries : list ObjectEntry) : QByteArray :=
  latin1 "xref" ++ CRLF
  ++ latin1 "0 " ++ QString_number (Z.of_nat (length entries)) ++ CRLF
  ++ concat (imap xrefRow entries).

(** The trailer, from the [trailer] keyword to the end-of-file marker. *)
Definition trailerSection `{Environment} (w : PDFStreamingDocumentWriter) (xrefOffset : Z)
  : QByteArray :=
  latin1 "trailer" ++ CRLF ++ serialize (trailerObject w) ++ CRLF
  ++ latin1 "startxref" ++ CRLF ++ QString_number xrefOffset ++ CRLF ++ latin1 "%%EOF".

(** The four lines [beginDocument] writes. *)
Definition documentHeader `{Environment} (version : PDFVersion) : QByteArray :=
  (latin1 "%PDF-" ++ QString_number (major version) ++ latin1 "."
     ++ QString_number (minor version)) ++ CRLF
  ++ latin1 "% PDF producer: " ++ PDF_LIBRARY_NAME
  ++ latin1 " (PDF4QT-Opus Streaming Writer)" ++ CRLF
  ++ latin1 "%" ++ ["226"; "227"; "207"; "211"]%char ++ CRLF
  ++ CRLF.

(** A freshly opened writer over an empty device, for worked examples. *)
Definition sampleWriter : PDFStreamingDocumentWriter :=
  snd (beginDocument (H := sampleEnvironment) (mkVersion 1 7) (newWriter blankDevice)).

(** Scenario 6 of the specification: two reservations, of which only the
    second is fulfilled. *)
Definition sampleHalfFilled : PDFStreamingDocumentWriter :=
  snd (writeReservedObject (H := sampleEnvironment) (mkRef 2 0) Null
         (snd (reserveObject 0 (snd (reserveObject 0 sampleWriter))))).

(** The number a string of decimal digits denotes, read left to right from
    the value [v] of the digits before it. *)
Definition decimalValueFrom (v : Z) (digits : QByteArray) : Z :=
  fold_left (fun v c => (10 * v + (Z.of_N (N_of_ascii c) - 48))%Z) digits v.

Definition decimalValue (digits : QByteArray) : Z := decimalValueFrom 0 digits.

Definition isDigit (c : ascii) : Prop := (48 <= N_of_ascii c <= 57)%N.




(** [bytes] stand in [buffer] from position [offset] on. *)
Definition BeginsAt (buffer : QByteArray) (offset : Z) (bytes : QByteArray) : Prop :=
  exists before after,
    buffer = before ++ bytes ++ after /\ Z.of_nat (length before) = offset.

(** Every written slot from 1 on records the position of its own header
    line, with the slot's number and the slot's generation. *)
Definition HeadersInPlace (w : PDFStreamingDocumentWriter) : Prop :=
  forall N entry,
    1 <= N ->
    m_objectOffsets w !! N = Some entry ->
    entry_offset entry <> (-1)%Z ->
    BeginsAt (dev_buffer (m_device w)) (entry_offset entry)
      (objectHeader (mkRef (Z.of_nat N) (entry_generation entry))).

(** A slot reserved with generation 0 and fulfilled through a reference of
    generation 5, in a document that is then closed. *)
Definition sampleMismatchCalls : list (Call (H := sampleEnvironment)) :=
  [ CallBeginDocument (mkVersion 1 7);
    CallReserveObject 0;
    CallWriteReservedObject (mkRef 1 5) Null;
    CallEndDocument ].

Definition sampleMismatch : PDFStreamingDocumentWriter :=
  snd (performAll sampleMismatchCalls (newWriter blankDevice)).

(** A writable device that rejects every write, and a writer opened over
    it. *)
Definition brokenDevice : QIODevice := mkDevice [] [] true true.

Definition sampleBroken : PDFStreamingDocumentWriter :=
  snd (beginDocument (H := sampleEnvironment) (mkVersion 1 7) (newWriter brokenDevice)).

(** ** Vocabulary of the merge passes *)

Section MergeVocabulary.
Context `{Environment}.

(** The non-null slots from slot [i] on, each with its number, in the order
    of the slot array. *)
Fixpoint liveSlots (i : nat) (objects : list StorageEntry) : list (nat * StorageEntry) :=
  match objects with
  | [] => []
  | entry :: rest =>
      if negb (isNull (slot_object entry)) then (i, entry) :: liveSlots (S i) rest
      else liveSlots (S i) rest
  end.

(** The slots [addDocument] transplants: slot 0 is never looked at. *)
Definition transplanted (document : PDFDocument) : list (nat * StorageEntry) :=
  liveSlots 1 (drop 1 (doc_objects document)).

(** The source reference of a slot. *)
Definition oldReference (slot : nat * StorageEntry) : PDFObjectReference :=
  mkRef (Z.of_nat (fst slot)) (slot_generation (snd slot)).

(** The reference allocated to the [j]-th transplanted slot by a writer
    that had [K] slots: the next free numbers, generation 0. *)
Definition allocated (K j : nat) : PDFObjectReference := mkRef (Z.of_nat (K + j)) 0.

Definition mappingPairs (K : nat) (live : list (nat * StorageEntry))
  : list (PDFObjectReference * PDFObjectReference) :=
  imap (fun j slot => (oldReference slot, allocated K j)) live.

Definition mappingOf (K : nat) (live : list (nat * StorageEntry)) : ReferenceMapping :=
  list_to_map (mappingPairs K live).

Definition mappedPage (mapping : ReferenceMapping) (page : option PDFObjectReference)
  : option PDFObjectReference :=
  match page with
  | Some oldPageRef => mapping !! oldPageRef
  | None => None
  end.

(** The pages that reach [addPage], in source page order. *)
Definition mappedPages (mapping : ReferenceMapping) (pages : list (option PDFObjectReference))
  : list PDFObjectReference :=
  omap (mappedPage mapping) pages.

(** The calls the two passes and the page loop make on the writer. *)
Definition reserveCalls (live : list (nat * StorageEntry)) : list Call :=
  map (fun _ => CallReserveObject 0) live.

Definition emitCalls (K : nat) (mapping : ReferenceMapping)
    (live : list (nat * StorageEntry)) : list Call :=
  imap (fun j slot =>
          CallWriteReservedObject (allocated K j)
            (replaceReferences (slot_object (snd slot)) mapping)) live.

Definition pageCalls (pages : list PDFObjectReference) : list Call :=
  map CallAddPage pages.

End MergeVocabulary.

(** A source document with a null slot, a slot of generation 2 that refers
    to slot 3, and three pages of which one is unknown and one missing;
    and a merger that has begun. *)
Definition sampleDocument : PDFDocument (H := sampleEnvironment) :=
  mkDocument
    [ mkStorageEntry 65535 Null;
      mkStorageEntry 2 (Array [Reference (mkRef 3 0); Int 7]);
      mkStorageEntry 0 Null;
      mkStorageEntry 0 (String (latin1 "page")) ]
    [ Some (mkRef 3 0); Some (mkRef 2 0); None; Some (mkRef 1 2) ].

Definition sampleMerger : PDFStreamingMerger :=
  snd (begin (H := sampleEnvironment) (Some blankDevice) newMerger).

(** ** Further vocabulary: the serializer *)

(** The bytes [visitName] writes for a name, and for one byte of it. *)
Definition serializeName `{Environment} (name : QByteArray) : QByteArray :=
  emitted (visitName name).

Definition escapedByte `{Environment} (character : ascii) : QByteArray :=
  emitted (fun d => visitNameChar d character).

Definition isHexDigit (c : ascii) : Prop := In c (latin1 "0123456789abcdef").

(** The regular characters of the PDF standard: every byte that is neither
    white space nor one of the delimiters ()<>[]{}/%; the byte [#] is among
    them. *)
Definition isRegularStandard (c : ascii) : bool :=
  negb (existsb (N.eqb (N_of_ascii c)) [0; 9; 10; 12; 13; 32]%N)
  && negb (existsb (Ascii.eqb c) (latin1 "()<>[]{}/%")).

Definition standardEnvironment : Environment :=
  {| PDFReal := Empty_set;
     QString_number_f5 := fun r => match r with end;
     isRegular := isRegularStandard;
     PDF_LIBRARY_NAME := latin1 "PDF4QT" |}.

(** ** Further vocabulary: the offset table *)

(** What a call may do to an entry: nothing, or fulfil it. *)
Definition KeptOrFulfilled (w : PDFStreamingDocumentWriter) (e e' : ObjectEntry) : Prop :=
  e' = e
  \/ (entry_isReserved e = true /\ entry_offset e = (-1)%Z
      /\ e' = mkEntry (pos (m_device w)) (entry_generation e) false).

(** Every recorded offset lies inside the file, and no two slots record the
    same offset. *)
Definition OffsetsSound (w : PDFStreamingDocumentWriter) : Prop :=
  (forall N entry,
     m_objectOffsets w !! N = Some entry -> entry_offset entry <> (-1)%Z ->
     (0 <= entry_offset entry < pos (m_device w))%Z)
  /\ (forall N1 N2 entry1 entry2,
        m_objectOffsets w !! N1 = Some entry1 -> m_objectOffsets w !! N2 = Some entry2 ->
        entry_offset entry1 <> (-1)%Z -> entry_offset entry2 <> (-1)%Z ->
        entry_offset entry1 = entry_offset entry2 -> N1 = N2).

(** ** Further vocabulary: calls on a closed writer *)

(** What a call answers when the writer refuses it: [beginDocument] and
    [writeReservedObject] return false, [writeObject] (also through
    [createPageTree] and [createCatalog]) returns the invalid reference and
    [endDocument] the error that the document is not open. The calls that
    are not gated, [reserveObject], [addPage] and the two setters, are
    left free. *)
Definition Refused `{Environment} (c : Call) (outcome : Outcome) : Prop :=
  match c with
  | CallBeginDocument _ | CallWriteReservedObject _ _ => outcome = ReturnedBool false
  | CallWriteObject _ _ | CallCreatePageTree | CallCreateCatalog _ =>
      outcome = ReturnedReference invalidReference
  | CallEndDocument =>
      outcome = ReturnedResult (OperationError (latin1 "Document is not open."))
  | CallReserveObject _ | CallAddPage _ | CallSetCatalogReference _
  | CallSetInfoReference _ => True
  end.

(** ** Further vocabulary: the merger *)

Section MergerRuns.
Context `{Environment}.

(** [finish()]. [commitError] is the answer of [QSaveFile::commit()]:
    [None] when it returns true, the file's error string otherwise (the
    device [begin] created is a [QSaveFile], so the cast succeeds). The
    third component tells whether [commit()] was called. *)
Definition finish (commitError : option QByteArray) (m : PDFStreamingMerger)
  : PDFOperationResult * PDFStreamingMerger * bool :=
  match m_writer m with
  | None => (OperationError (latin1 "Merger is not initialized."), m, false)
  | Some w =>
      let '(result, w) := endDocument w in
      let '(result, commitCalled) :=
        match result with
        | OperationSuccess =>
            match commitError with
            | None => (OperationSuccess, true)
            | Some errorString =>
                (OperationError (latin1 "Failed to save file: " ++ errorString), true)
            end
        | OperationError message => (OperationError message, false)
        end in
      (result, mkMerger None (m_totalPages m) (m_totalDocuments m), commitCalled)
  end.

(** Documents added one after the other, each with the default arguments. *)
Definition addDocuments (documents : list PDFDocument) (m : PDFStreamingMerger)
  : PDFStreamingMerger :=
  foldl (fun m document => snd (addDocument document 0 false m)) m documents.

(** A merger after [begin()] opened [device]. *)
Definition mergerOver (device : QIODevice) : PDFStreamingMerger :=
  snd (begin (Some device) newMerger).

(** The writer after the reserve pass: one reserved slot of generation 0
    per transplanted slot. *)
Definition afterReservePass (w : PDFStreamingDocumentWriter)
    (live : list (nat * StorageEntry)) : PDFStreamingDocumentWriter :=
  mkWriter (m_device w) (m_version w) (m_isOpen w)
    (m_objectOffsets w ++ map (fun _ => mkEntry (-1) 0 true) live)
    (m_pages w) (m_catalogReference w) (m_infoReference w).

(** Every slot from 1 on is written, with generation 0. *)
Definition AllWritten (w : PDFStreamingDocumentWriter) : Prop :=
  forall N entry,
    1 <= N -> m_objectOffsets w !! N = Some entry ->
    entry_generation entry = 0%Z /\ entry_isReserved entry = false
    /\ entry_offset entry <> (-1)%Z.

End MergerRuns.

(** What holds of a merger between two [addDocument] calls: its writer is
    open, was driven from a new writer over [device] by calls that gave
    every reserved slot its own reference, has every slot from 1 on
    written with generation 0, and lists as many pages as the merger
    counted. *)
Definition MergerSound `{Environment} (device : QIODevice) (m : PDFStreamingMerger) : Prop :=
  exists w calls,
    m_writer m = Some w
    /\ w = snd (performAll calls (newWriter device))
    /\ exactReferences (newWriter device) calls = true
    /\ m_isOpen w = true
    /\ AllWritten w
    /\ m_totalPages m = length (m_pages w)
    /\ m_catalogReference w = invalidReference.

(** * PDFium thumbnails (pdfiumthumbnail.cpp) *)

Module PdfiumThumbnail.

(** Handles of the PDFium library. *)
Definition FPDF_DOCUMENT := nat.
Definition FPDF_PAGE := nat.
Definition FPDF_BITMAP := nat.

(** What the library answers. A null handle is [None]. The render extent
    [static_cast<int>(pageWidth * scale)] x [static_cast<int>(pageHeight * scale)],
    with [scale = qMin(width / pageWidth, height / pageHeight)] computed in
    [double] from [FPDF_GetPageWidth] and [FPDF_GetPageHeight], is kept
    abstract as [renderExtent]. *)
Record Pdfium := mkPdfium {
  FPDF_LoadDocument : QByteArray -> option FPDF_DOCUMENT;
  FPDF_LoadPage : FPDF_DOCUMENT -> Z -> option FPDF_PAGE;
  FPDFPage_GetThumbnailAsBitmap : FPDF_PAGE -> option FPDF_BITMAP;
  FPDFBitmap_Create : Z -> Z -> option FPDF_BITMAP;
  FPDFBitmap_GetWidth : FPDF_BITMAP -> Z;
  FPDFBitmap_GetHeight : FPDF_BITMAP -> Z;
  FPDFBitmap_GetStride : FPDF_BITMAP -> Z;
  renderExtent : FPDF_PAGE -> Z * Z -> Z * Z
}.

(** The calls into the library, in the order they are made, each with the
    handle it was answered with. [CopyBuffer] is the read of the bitmap's
    buffer by [QImage(buffer, ...).copy()]. *)
Inductive FPDFCall :=
  | InitLibraryWithConfig
  | DestroyLibrary
  | LoadDocument (path : QByteArray) (answer : option FPDF_DOCUMENT)
  | LoadPage (document : FPDF_DOCUMENT) (pageIndex : Z) (answer : option FPDF_PAGE)
  | GetThumbnailAsBitmap (page : FPDF_PAGE) (answer : option FPDF_BITMAP)
  | GetPageWidth (page : FPDF_PAGE)
  | GetPageHeight (page : FPDF_PAGE)
  | Bitmap_Create (width height alpha : Z) (answer : option FPDF_BITMAP)
  | Bitmap_FillRect (bitmap : FPDF_BITMAP) (left top width height color : Z)
  | RenderPageBitmap (bitmap : FPDF_BITMAP) (page : FPDF_PAGE)
      (start_x start_y size_x size_y rotate : Z)
  | Bitmap_GetWidth (bitmap : FPDF_BITMAP)
  | Bitmap_GetHeight (bitmap : FPDF_BITMAP)
  | Bitmap_GetStride (bitmap : FPDF_BITMAP)
  | Bitmap_GetBuffer (bitmap : FPDF_BITMAP)
  | CopyBuffer (bitmap : FPDF_BITMAP)
  | Bitmap_Destroy (bitmap : FPDF_BITMAP)
  | ClosePage (page : FPDF_PAGE)
  | CloseDocument (document : FPDF_DOCUMENT).

(** A [QImage]: the null image, or a copy of a bitmap's buffer read with
    the given width, height and stride. *)
Inductive QImage :=
  | NullImage
  | CopyOf (bitmap : FPDF_BITMAP) (width height stride : Z).

(** [initialize()]: the return value, the new [s_initialized] and the
    library calls made. *)
Definition initialize (s_initialized : bool) : bool * bool * list FPDFCall :=
  if s_initialized then (true, true, [])
  else (true, true, [InitLibraryWithConfig]).

(** [shutdown()]: the new [s_initialized] and the library calls made. *)
Definition shutdown (s_initialized : bool) : bool * list FPDFCall :=
  if s_initialized then (false, [DestroyLibrary])
  else (s_initialized, []).

Definition isAvailable (s_initialized : bool) : bool := s_initialized.

Definition getEmbeddedThumbnail (lib : Pdfium) (s_initialized : bool)
    (pathUtf8 : QByteArray) (pageIndex : Z) : QImage * list FPDFCall :=
  if negb s_initialized then (NullImage, [])
  else
    match FPDF_LoadDocument lib pathUtf8 with
    | None => (NullImage, [LoadDocument pathUtf8 None])
    | Some doc =>
        match FPDF_LoadPage lib doc pageIndex with
        | None =>
            (NullImage,
             [LoadDocument pathUtf8 (Some doc); LoadPage doc pageIndex None;
              CloseDocument doc])
        | Some page =>
            let opened :=
              [LoadDocument pathUtf8 (Some doc); LoadPage doc pageIndex (Some page)] in
            let closed := [ClosePage page; CloseDocument doc] in
            match FPDFPage_GetThumbnailAsBitmap lib page with
            | Some thumbBitmap =>
                let width := FPDFBitmap_GetWidth lib thumbBitmap in
                let height := FPDFBitmap_GetHeight lib thumbBitmap in
                let stride := FPDFBitmap_GetStride lib thumbBitmap in
                (CopyOf thumbBitmap width height stride,
                 opened
                   ++ [GetThumbnailAsBitmap page (Some thumbBitmap);
                       Bitmap_GetWidth thumbBitmap; Bitmap_GetHeight thumbBitmap;
                       Bitmap_GetStride thumbBitmap; Bitmap_GetBuffer thumbBitmap;
                       CopyBuffer thumbBitmap; Bitmap_Destroy thumbBitmap]
                   ++ closed)
            | None =>
                (NullImage, opened ++ [GetThumbnailAsBitmap page None] ++ closed)
            end
        end
    end.

Definition renderPage (lib : Pdfium) (s_initialized : bool)
    (pathUtf8 : QByteArray) (pageIndex : Z) (targetSize : Z * Z)
  : QImage * list FPDFCall :=
  if negb s_initialized then (NullImage, [])
  else
    match FPDF_LoadDocument lib pathUtf8 with
    | None => (NullImage, [LoadDocument pathUtf8 None])
    | Some doc =>
        match FPDF_LoadPage lib doc pageIndex with
        | None =>
            (NullImage,
             [LoadDocument pathUtf8 (Some doc); LoadPage doc pageIndex None;
              CloseDocument doc])
        | Some page =>
            let opened :=
              [LoadDocument pathUtf8 (Some doc); LoadPage doc pageIndex (Some page);
               GetPageWidth page; GetPageHeight page] in
            let '(renderWidth, renderHeight) := renderExtent lib page targetSize in
            match FPDFBitmap_Create lib renderWidth renderHeight with
            | None =>
                (NullImage,
                 opened ++ [Bitmap_Create renderWidth renderHeight 0 None;
                            ClosePage page; CloseDocument doc])
            | Some bitmap =>
                let stride := FPDFBitmap_GetStride lib bitmap in
                (CopyOf bitmap renderWidth renderHeight stride,
                 opened
                   ++ [Bitmap_Create renderWidth renderHeight 0 (Some bitmap);
                       Bitmap_FillRect bitmap 0 0 renderWidth renderHeight 4294967295;
                       RenderPageBitmap bitmap page 0 0 renderWidth renderHeight 0;
                       Bitmap_GetStride bitmap; Bitmap_GetBuffer bitmap;
                       CopyBuffer bitmap;
                       Bitmap_Destroy bitmap; ClosePage page; CloseDocument doc])
            end
        end
    end.

(** A call of the class's interface, with what the library answers
    during it. *)
Inductive ApiCall :=
  | Initialize
  | Shutdown
  | GetEmbeddedThumbnail (lib : Pdfium) (pathUtf8 : QByteArray) (pageIndex : Z)
  | RenderPage (lib : Pdfium) (pathUtf8 : QByteArray) (pageIndex : Z) (targetSize : Z * Z).

Definition call (c : ApiCall) (s_initialized : bool) : bool * list FPDFCall :=
  match c with
  | Initialize => let '(_, s, calls) := initialize s_initialized in (s, calls)
  | Shutdown => shutdown s_initialized
  | GetEmbeddedThumbnail lib pathUtf8 pageIndex =>
      (s_initialized, snd (getEmbeddedThumbnail lib s_initialized pathUtf8 pageIndex))
  | RenderPage lib pathUtf8 pageIndex targetSize =>
      (s_initialized, snd (renderPage lib s_initialized pathUtf8 pageIndex targetSize))
  end.

(** One call after the other, none overlapping another. *)
Fixpoint callAll (calls : list ApiCall) (s_initialized : bool) : bool * list FPDFCall :=
  match calls with
  | [] => (s_initialized, [])
  | c :: rest =>
      let '(s, made) := call c s_initialized in
      let '(s', made') := callAll rest s in
      (s', made ++ made')
  end.

(** *** The library's rules of use *)

Inductive Handle :=
  | DocumentHandle (document : FPDF_DOCUMENT)
  | PageHandle (page : FPDF_PAGE)
  | BitmapHandle (bitmap : FPDF_BITMAP).

#[export] Instance Handle_eq_dec : EqDecision Handle.
Proof. solve_decision. Defined.

(** The handle a call needs to be open, if any. *)
Definition uses (c : FPDFCall) : list Handle :=
  match c with
  | LoadPage doc _ _ => [DocumentHandle doc]
  | GetThumbnailAsBitmap page _ | GetPageWidth page | GetPageHeight page =>
      [PageHandle page]
  | Bitmap_FillRect bitmap _ _ _ _ _ | Bitmap_GetWidth bitmap | Bitmap_GetHeight bitmap
  | Bitmap_GetStride bitmap | Bitmap_GetBuffer bitmap | CopyBuffer bitmap =>
      [BitmapHandle bitmap]
  | RenderPageBitmap bitmap page _ _ _ _ _ => [BitmapHandle bitmap; PageHandle page]
  | _ => []
  end.

(** The handle a call opens, if it was answered with one. *)
Definition opens (c : FPDFCall) : option Handle :=
  match c with
  | LoadDocument _ (Some doc) => Some (DocumentHandle doc)
  | LoadPage _ _ (Some page) => Some (PageHandle page)
  | GetThumbnailAsBitmap _ (Some bitmap) | Bitmap_Create _ _ _ (Some bitmap) =>
      Some (BitmapHandle bitmap)
  | _ => None
  end.

(** The handle a call releases. *)
Definition releases (c : FPDFCall) : option Handle :=
  match c with
  | Bitmap_Destroy bitmap => Some (BitmapHandle bitmap)
  | ClosePage page => Some (PageHandle page)
  | CloseDocument doc => Some (DocumentHandle doc)
  | _ => None
  end.

(** The rules of use, as a checker over the calls made. The state is
    whether the library is initialized and the handles that are open, the
    last opened first. The library is initialized only when it is not, and
    destroyed only when it is and no handle is open; every other call needs
    the library initialized and the handles it uses open; a handle is
    released only when it is the last one opened that is still open.
    [None] is a broken rule. *)
Definition obey (c : FPDFCall) (state : bool * list Handle) : option (bool * list Handle) :=
  let '(up, open) := state in
  match c with
  | InitLibraryWithConfig => if up then None else Some (true, open)
  | DestroyLibrary =>
      if up then match open with [] => Some (false, []) | _ => None end else None
  | _ =>
      if up && forallb (fun h => bool_decide (h ∈ open)) (uses c) then
        match releases c with
        | Some h =>
            match open with
            | top :: below => if bool_decide (top = h) then Some (up, below) else None
            | [] => None
            end
        | None =>
            match opens c with
            | Some h => Some (up, h :: open)
            | None => Some (up, open)
            end
        end
      else None
  end.

Fixpoint obeyAll (calls : list FPDFCall) (state : bool * list Handle)
  : option (bool * list Handle) :=
  match calls with
  | [] => Some state
  | c :: rest =>
      match obey c state with
      | Some state' => obeyAll rest state'
      | None => None
      end
  end.

(** A library that opens every document and page and has a thumbnail for
    none. *)
Definition sampleLibrary : Pdfium :=
  mkPdfium (fun _ => Some 1) (fun _ _ => Some 2) (fun _ => None)
    (fun _ _ => Some 3) (fun _ => 0%Z) (fun _ => 0%Z) (fun _ => 0%Z)
    (fun _ size => size).

End PdfiumThumbnail.

(** * Page thumbnails (pageitemdelegate.cpp) *)

Module PageItemDelegate.

(** A [QString] as its UTF-16 code units. *)
Definition QChar := N.
Definition QString := list QChar.

(** [QString::split(sep, Qt::KeepEmptyParts)]. *)
Fixpoint split (sep : QChar) (s : QString) : list QString :=
  match s with
  | [] => [[]]
  | c :: rest =>
      if (c =? sep)%N then [] :: split sep rest
      else
        match split sep rest with
        | part :: parts => (c :: part) :: parts
        | [] => [[c]]
        end
  end.

(** The loop over [item->tags] in [paint]: the colour name and the text
    [drawBubble] is called with for a tag, or [None] where the loop
    continues without drawing. The code unit of [@] is 64. *)
Definition tagBubble (tag : QString) : option (QString * QString) :=
  let splitted := split 64%N tag in
  if negb (length splitted =? 2) || (length (List.last splitted []) =? 0) then None
  else Some (hd [] splitted, List.last splitted []).

Definition tagBubbles (tags : list QString) : list (QString * QString) :=
  omap tagBubble tags.

(** The fields of [PageGroupItem::GroupItem] the delegate reads; the page
    type and the rotation are enumerations, given by their values. *)
Record GroupItem := mkGroupItem {
  documentIndex : Z;
  imageIndex : Z;
  pageAdditionalRotation : Z;
  pageIndex : Z;
  pageType : Z
}.

Record QRect := mkRect {
  rect_left : Z;
  rect_top : Z;
  rect_width : Z;
  rect_height : Z
}.

(** The cache key
    [QString("%1#%2#%3#%4#%5@%6x%7").arg(...)...arg(...)]: every [arg]
    replaces the place marker of the lowest number by the decimal form of
    its argument, which holds no [%]. The key is ASCII and given as bytes. *)
Definition cacheKey (groupItem : GroupItem) (rect : QRect) : QByteArray :=
  QString_number (documentIndex groupItem) ++ latin1 "#"
    ++ QString_number (imageIndex groupItem) ++ latin1 "#"
    ++ QString_number (pageAdditionalRotation groupItem) ++ latin1 "#"
    ++ QString_number (pageIndex groupItem) ++ latin1 "#"
    ++ QString_number (pageType groupItem) ++ latin1 "@"
    ++ QString_number (rect_width rect) ++ latin1 "x"
    ++ QString_number (rect_height rect).

(** The delegate, with the Qt objects it works through: the single-shot
    [m_updateTimer], the [QFutureWatcher]s of the renders that were
    launched and have not finished (by key, the oldest first), and the
    keys the process-wide [QPixmapCache] holds. [sizeHintChanged] counts
    the emissions of the signal and [timerRestarts] the calls of
    [m_updateTimer->start()] made while the timer was running. *)
Record Delegate := mkDelegate {
  m_pageImageSize : Z * Z;
  m_pendingRenders : gset QByteArray;
  m_updatePending : bool;
  m_updateTimer : bool;
  watchers : list QByteArray;
  QPixmapCache : gset QByteArray;
  sizeHintChanged : nat;
  timerRestarts : nat
}.

(** After the constructor; a default [QSize] is (-1, -1). *)
Definition newDelegate (cache : gset QByteArray) : Delegate :=
  mkDelegate (-1, -1)%Z ∅ false false [] cache 0 0.

Section Delegate.
(** The value of the enumerator [PT_Empty]. *)
Variable PT_Empty : Z.

(** [getPageImagePixmap]: whether the pixmap returned is one of the
    cache, otherwise it is null; [groups] is [item->groups]. *)
Definition getPageImagePixmap (groups : list GroupItem) (rect : QRect) (s : Delegate)
  : bool * Delegate :=
  match groups with
  | [] => (false, s)
  | groupItem :: _ =>
      if (pageType groupItem =? PT_Empty)%Z then (false, s)
      else
        let key := cacheKey groupItem rect in
        if bool_decide (key ∈ QPixmapCache s) then (true, s)
        else if bool_decide (key ∈ m_pendingRenders s) then (false, s)
        else
          (false,
           mkDelegate (m_pageImageSize s) (m_pendingRenders s ∪ {[ key ]})
             (m_updatePending s) (m_updateTimer s) (watchers s ++ [key])
             (QPixmapCache s) (sizeHintChanged s) (timerRestarts s))
  end.

(** [setPageImageSize]. *)
Definition setPageImageSize (pageImageSize : Z * Z) (s : Delegate) : Delegate :=
  if bool_decide (m_pageImageSize s = pageImageSize) then s
  else
    mkDelegate pageImageSize ∅ (m_updatePending s) (m_updateTimer s) (watchers s)
      (QPixmapCache s) (S (sizeHintChanged s)) (timerRestarts s).

(** Removes the first watcher of a key. *)
Fixpoint deleteLater (key : QByteArray) (watchers : list QByteArray) : list QByteArray :=
  match watchers with
  | [] => []
  | k :: rest => if bool_decide (k = key) then rest else k :: deleteLater key rest
  end.

(** The slot connected to [QFutureWatcher::finished] for the render of
    [key]; [imageIsNull] tells whether the render gave the null image. *)
Definition watcherFinished (key : QByteArray) (imageIsNull : bool) (s : Delegate)
  : Delegate :=
  let cache := if imageIsNull then QPixmapCache s else QPixmapCache s ∪ {[ key ]} in
  let pending := m_pendingRenders s ∖ {[ key ]} in
  if m_updatePending s then
    mkDelegate (m_pageImageSize s) pending true (m_updateTimer s)
      (deleteLater key (watchers s)) cache (sizeHintChanged s) (timerRestarts s)
  else
    mkDelegate (m_pageImageSize s) pending true true
      (deleteLater key (watchers s)) cache (sizeHintChanged s)
      (if m_updateTimer s then S (timerRestarts s) else timerRestarts s).

(** The slot connected to [m_updateTimer]'s [timeout]; the timer is
    single-shot. *)
Definition updateTimerTimeout (s : Delegate) : Delegate :=
  mkDelegate (m_pageImageSize s) (m_pendingRenders s) false false (watchers s)
    (QPixmapCache s) (S (sizeHintChanged s)) (timerRestarts s).

(** What happens to a delegate: the view paints an item, a render
    finishes, the timer fires, the image size is set, and the cache, which
    is bounded, drops a pixmap. *)
Inductive Event :=
  | Painted (groups : list GroupItem) (rect : QRect)
  | Finished (key : QByteArray) (imageIsNull : bool)
  | TimedOut
  | PageImageSizeSet (pageImageSize : Z * Z)
  | Evicted (key : QByteArray).

(** [None] where the event cannot happen: a render finishes only if it was
    launched and has not finished yet, and the timer fires only when it is
    running. *)
Definition happen (e : Event) (s : Delegate) : option Delegate :=
  match e with
  | Painted groups rect => Some (snd (getPageImagePixmap groups rect s))
  | Finished key imageIsNull =>
      if bool_decide (key ∈ watchers s) then Some (watcherFinished key imageIsNull s)
      else None
  | TimedOut => if m_updateTimer s then Some (updateTimerTimeout s) else None
  | PageImageSizeSet pageImageSize => Some (setPageImageSize pageImageSize s)
  | Evicted key =>
      Some (mkDelegate (m_pageImageSize s) (m_pendingRenders s) (m_updatePending s)
              (m_updateTimer s) (watchers s) (QPixmapCache s ∖ {[ key ]})
              (sizeHintChanged s) (timerRestarts s))
  end.

Fixpoint happenAll (events : list Event) (s : Delegate) : option Delegate :=
  match events with
  | [] => Some s
  | e :: rest =>
      match happen e s with
      | Some s' => happenAll rest s'
      | None => None
      end
  end.

Definition setsPageImageSize (e : Event) : bool :=
  match e with PageImageSizeSet _ => true | _ => false end.

End Delegate.

(** Every key marked as pending has a render in flight. *)
Definition PendingInFlight (s : Delegate) : Prop :=
  forall key, key ∈ m_pendingRenders s -> key ∈ watchers s.

(** The renders in flight are those of the pending keys, one each. *)
Definition OneRenderEach (s : Delegate) : Prop :=
  NoDup (watchers s)
  /\ forall key, key ∈ m_pendingRenders s <-> key ∈ watchers s.

(** The values a 64-bit integer takes. *)
Definition isInt64 (n : Z) : Prop := (- 2 ^ 63 <= n < 2 ^ 63)%Z.

Definition fieldsInt64 (groupItem : GroupItem) (rect : QRect) : Prop :=
  isInt64 (documentIndex groupItem) /\ isInt64 (imageIndex groupItem)
  /\ isInt64 (pageAdditionalRotation groupItem) /\ isInt64 (pageIndex groupItem)
  /\ isInt64 (pageType groupItem) /\ isInt64 (rect_width rect)
  /\ isInt64 (rect_height rect).

Definition sampleGroupItem : GroupItem := mkGroupItem 0 (-1) 0 1 0.

Definition sampleRect : QRect := mkRect 0 0 100 141.

(** A delegate that painted the sample item once, with an empty cache;
    [PT_Empty] is taken to be 2. *)
Definition samplePainted : Delegate :=
  snd (getPageImagePixmap 2 [sampleGroupItem] sampleRect (newDelegate ∅)).

Definition sampleEvents : list Event :=
  [ Painted [sampleGroupItem] sampleRect;
    Painted [sampleGroupItem] sampleRect;
    Finished (cacheKey sampleGroupItem sampleRect) true;
    Painted [sampleGroupItem] sampleRect;
    TimedOut ].

End PageItemDelegate.

(** * Properties *)

(** ** The device *)

Lemma write_write (a b : QByteArray) (d : QIODevice) :
  write b (write a d) = write (a ++ b) d.
Proof.
  unfold write; simpl.
  destruct (dev_failed d); f_equal; by rewrite app_assoc.
Qed.

Lemma write_nil (d : QIODevice) : write [] d = d.
Proof.
  destruct d as [buf req wr fl]; unfold write; simpl.
  rewrite !app_nil_r. by destruct fl.
Qed.

Lemma write_requested a d : dev_requested (write a d) = dev_requested d ++ a.
Proof. reflexivity. Qed.

Lemma write_failed a d : dev_failed (write a d) = dev_failed d.
Proof. reflexivity. Qed.

Lemma write_buffer_healthy a d :
  dev_failed d = false -> dev_buffer (write a d) = dev_buffer d ++ a.
Proof. unfold write; simpl. by intros ->. Qed.

Lemma write_buffer_failed a d :
  dev_failed d = true -> dev_buffer (write a d) = dev_buffer d.
Proof. unfold write; simpl. by intros ->. Qed.

Lemma Emits_write a : Emits (write a) a.
Proof. by intros d. Qed.

Lemma Emits_then f g X Y : Emits f X -> Emits g Y -> Emits (fun d => g (f d)) (X ++ Y).
Proof. intros Hf Hg d. by rewrite Hf, Hg, write_write. Qed.

Lemma Emits_emitted f X : Emits f X -> emitted f = X.
Proof. intros Hf. unfold emitted. by rewrite Hf. Qed.

Lemma Emits_self f X : Emits f X -> Emits f (emitted f).
Proof. intros Hf. by rewrite (Emits_emitted f X). Qed.

Lemma Emits_fold {A} (f : QIODevice -> A -> QIODevice) (l : list A) :
  Forall (fun x => exists X, Emits (fun d => f d x) X) l ->
  exists Y, Emits (fun d => fold_left f l d) Y.
Proof.
  induction 1 as [|x l [X HX] _ [Y HY]].
  - exists []. intros d. by rewrite write_nil.
  - exists (X ++ Y). intros d. simpl. by rewrite HX, HY, write_write.
Qed.

Section VisitorFacts.
Context `{Environment}.

Lemma visitInt_emits value : Emits (visitInt value) (QString_number value ++ latin1 " ").
Proof. intros d. unfold visitInt. by rewrite write_write. Qed.

Lemma visitName_emits name : exists X, Emits (visitName name) X.
Proof.
  destruct (Emits_fold visitNameChar name) as [Y HY].
  { apply Forall_forall. intros c _. unfold visitNameChar.
    destruct (isRegular c); eexists; intros d; [reflexivity|].
    by rewrite write_write. }
  exists (latin1 "/" ++ Y ++ latin1 " "). intros d. unfold visitName.
  by rewrite HY, !write_write, <- ?app_assoc.
Qed.

Lemma visitString_emits data :
  Emits (visitString data)
    (if negb (indexOf "(" data =? -1)%Z || negb (indexOf ")" data =? -1)%Z
        || negb (indexOf "\" data =? -1)%Z
     then latin1 "<" ++ toHex data ++ latin1 "> "
     else latin1 "(" ++ data ++ latin1 ") ").
Proof.
  intros d. unfold visitString.
  destruct (negb _ || negb _ || negb _); rewrite !write_write; f_equal;
    by rewrite <- ?app_assoc.
Qed.

Lemma accept_emits (o : PDFObject) : exists X, Emits (accept o) X.
Proof.
  revert o. fix IH 1. intros o.
  assert (Hdict : forall entries : list (QByteArray * PDFObject),
    Forall (fun kv => exists X, Emits (accept (snd kv)) X) entries ->
    exists Y, Emits (fun d => write (latin1 ">> ")
      (fold_left (fun d kv => accept (snd kv) (visitName (fst kv) d)) entries
         (write (latin1 "<< ") d))) Y).
  { intros entries Hall.
    destruct (Emits_fold (fun d kv => accept (snd kv) (visitName (fst kv) d)) entries)
      as [Y HY].
    { eapply Forall_impl; [exact Hall|]. intros kv [X HX]; simpl.
      destruct (visitName_emits (fst kv)) as [N HN].
      exists (N ++ X). intros d. by rewrite HN, HX, write_write. }
    exists (latin1 "<< " ++ Y ++ latin1 ">> "). intros d.
    by rewrite HY, !write_write, <- ?app_assoc. }
  assert (Hentries : forall entries : list (QByteArray * PDFObject),
    Forall (fun kv => exists X, Emits (accept (snd kv)) X) entries).
  { fix IHl 1. intros [|kv rest]; constructor; [apply IH | apply IHl]. }
  destruct o as [ | value | value | value | data | name | items | entries
                | entries content | reference ].
  - eexists; intros d; reflexivity.
  - eexists; intros d; reflexivity.
  - eexists; apply visitInt_emits.
  - eexists; intros d; simpl; unfold visitReal; by rewrite write_write.
  - eexists; apply visitString_emits.
  - apply visitName_emits.
  - destruct (Emits_fold (fun d item => accept item d) items) as [Y HY].
    { clear Hdict Hentries. revert items. fix IHl 1.
      intros [|x rest]; constructor; [apply IH | apply IHl]. }
    exists (latin1 "[ " ++ Y ++ latin1 "] "). intros d. simpl.
    by rewrite HY, !write_write, <- ?app_assoc.
  - destruct (Hdict entries (Hentries entries)) as [Y HY]. by exists Y.
  - destruct (Hdict entries (Hentries entries)) as [Y HY].
    eexists. intros d. simpl. rewrite HY, !write_write. reflexivity.
  - eexists. intros d. simpl. unfold visitReference.
    rewrite !visitInt_emits, !write_write. reflexivity.
Qed.

Lemma accept_write (o : PDFObject) (d : QIODevice) :
  accept o d = write (serialize o) d.
Proof.
  destruct (accept_emits o) as [X HX].
  unfold serialize. by rewrite (Emits_emitted _ _ HX).
Qed.

End VisitorFacts.

(** ** Headers, footers and cross-reference rows as byte strings *)

Lemma writeObjectHeader_emits reference :
  Emits (writeObjectHeader reference)
    (QString_number (objectNumber reference) ++ latin1 " "
       ++ QString_number (generation reference) ++ latin1 " obj" ++ CRLF).
Proof.
  intros d. unfold writeObjectHeader, writeCRLF.
  rewrite write_write. f_equal; by rewrite <- ?app_assoc.
Qed.

Lemma objectHeader_eq reference :
  objectHeader reference =
    QString_number (objectNumber reference) ++ latin1 " "
      ++ QString_number (generation reference) ++ latin1 " obj" ++ CRLF.
Proof. apply Emits_emitted, writeObjectHeader_emits. Qed.

Lemma writeObjectHeader_write reference d :
  writeObjectHeader reference d = write (objectHeader reference) d.
Proof. eapply Emits_self, writeObjectHeader_emits. Qed.

Lemma writeObjectFooter_write d : writeObjectFooter d = write objectFooter d.
Proof. unfold writeObjectFooter, writeCRLF. by rewrite write_write. Qed.

Lemma objectFooter_eq : objectFooter = latin1 "endobj" ++ CRLF.
Proof. reflexivity. Qed.

Section WriterFacts.
Context `{Environment}.

Lemma writeXRefEntry_emits i entry :
  Emits (writeXRefEntry i entry)
    (rightJustified 10 "0"
        (QString_number (if (entry_offset entry =? -1)%Z then 0%Z else entry_offset entry))
     ++ latin1 " " ++ rightJustified 5 "0" (QString_number (entry_generation entry))
     ++ latin1 " "
     ++ (if (i =? 0) || (entry_offset entry =? -1)%Z then latin1 "f" else latin1 "n")
     ++ CRLF).
Proof.
  intros d. unfold writeXRefEntry, writeCRLF.
  rewrite !write_write. f_equal; by rewrite <- ?app_assoc.
Qed.


Lemma writeXRefEntry_write i entry d :
  writeXRefEntry i entry d = write (xrefRow i entry) d.
Proof. eapply Emits_self, writeXRefEntry_emits. Qed.

Lemma writeXRefEntries_write entries : forall i d,
  writeXRefEntries i entries d =
    write (concat (imap (fun k entry => xrefRow (i + k) entry) entries)) d.
Proof.
  induction entries as [|entry rest IH]; intros i d; simpl.
  - by rewrite write_nil.
  - rewrite IH, writeXRefEntry_write, write_write, Nat.add_0_r.
    do 3 f_equal. apply imap_ext. intros k e _. simpl. f_equal. lia.
Qed.

(** An open writer's [writeObject], in one step. *)
Lemma writeObject_open object generation w :
  m_isOpen w = true ->
  writeObject object generation w =
    (mkRef (Z.of_nat (length (m_objectOffsets w))) generation,
     mkWriter
       (write (indirectObject (mkRef (Z.of_nat (length (m_objectOffsets w))) generation)
                 object) (m_device w))
       (m_version w) true
       (m_objectOffsets w ++ [mkEntry (pos (m_device w)) generation false])
       (m_pages w) (m_catalogReference w) (m_infoReference w)).
Proof.
  intros Hopen. unfold writeObject. rewrite Hopen. simpl.
  unfold onDevice, setObjectOffsets, writeObjectContent, indirectObject. simpl.
  rewrite Hopen, writeObjectHeader_write, accept_write, writeObjectFooter_write.
  by rewrite !write_write.
Qed.

Lemma writeObject_closed object generation w :
  m_isOpen w = false -> writeObject object generation w = (invalidReference, w).
Proof. intros Hclosed. unfold writeObject. by rewrite Hclosed. Qed.

Lemma writeReservedObject_fulfil reference object w entry :
  m_isOpen w = true ->
  (0 <= objectNumber reference)%Z ->
  m_objectOffsets w !! Z.to_nat (objectNumber reference) = Some entry ->
  entry_isReserved entry = true ->
  entry_offset entry = (-1)%Z ->
  writeReservedObject reference object w =
    (true,
     mkWriter (write (indirectObject reference object) (m_device w))
       (m_version w) true
       (<[Z.to_nat (objectNumber reference) :=
            mkEntry (pos (m_device w)) (entry_generation entry) false]> (m_objectOffsets w))
       (m_pages w) (m_catalogReference w) (m_infoReference w)).
Proof.
  intros Hopen Hnn Hlook Hres Hoff. unfold writeReservedObject.
  pose proof (lookup_lt_Some _ _ _ Hlook) as Hlt.
  rewrite Hopen. simpl.
  replace (objectNumber reference <? 0)%Z with false by (symmetry; apply Z.ltb_ge; lia).
  replace (Z.of_nat (length (m_objectOffsets w)) <=? objectNumber reference)%Z
    with false by (symmetry; apply Z.leb_gt; lia).
  simpl. rewrite Hlook, Hres, Hoff. simpl.
  unfold onDevice, setObjectOffsets, writeObjectContent, indirectObject. simpl.
  rewrite Hopen, writeObjectHeader_write, accept_write, writeObjectFooter_write.
  by rewrite !write_write.
Qed.

Lemma writeReservedObject_refuse reference object w :
  ~ (m_isOpen w = true /\ Fulfillable w reference) ->
  writeReservedObject reference object w = (false, w).
Proof.
  intros Hno. unfold writeReservedObject.
  destruct (m_isOpen w) eqn:Hopen; [simpl | reflexivity].
  destruct (objectNumber reference <? 0)%Z eqn:Hneg; [reflexivity | simpl].
  destruct (Z.of_nat (length (m_objectOffsets w)) <=? objectNumber reference)%Z eqn:Hge;
    [reflexivity |].
  destruct (m_objectOffsets w !! Z.to_nat (objectNumber reference)) as [entry|] eqn:Hlook;
    [| reflexivity].
  destruct (entry_isReserved entry) eqn:Hres; [simpl | reflexivity].
  destruct (entry_offset entry =? -1)%Z eqn:Hoff; [simpl | reflexivity].
  exfalso. apply Hno. split; [reflexivity |]. split; [apply Z.ltb_ge in Hneg; lia |].
  exists entry. repeat split; try done. by apply Z.eqb_eq.
Qed.

End WriterFacts.

(** ** Strings: hexadecimal or literal form *)

Lemma indexOfFrom_absent c data : forall i,
  (0 <= i)%Z -> indexOfFrom i c data = (-1)%Z <-> ~ In c data.
Proof.
  induction data as [|x rest IH]; intros i Hi; simpl.
  - tauto.
  - destruct (Ascii.eqb x c) eqn:Heq.
    + apply Ascii.eqb_eq in Heq. split; [lia | tauto].
    + apply Ascii.eqb_neq in Heq. rewrite IH by lia. tauto.
Qed.

Lemma indexOf_absent c data : indexOf c data = (-1)%Z <-> ~ In c data.
Proof. apply indexOfFrom_absent. lia. Qed.

Lemma indexOf_test c data :
  negb (indexOf c data =? -1)%Z = true <-> In c data.
Proof.
  rewrite negb_true_iff, Z.eqb_neq, indexOf_absent.
  split; [| tauto]. intros Hnn.
  destruct (in_dec ascii_dec c data); tauto.
Qed.

Example toHex_sample : toHex (latin1 "a(b)c") = latin1 "6128622963".
Proof. reflexivity. Qed.

(** C8. A string whose payload contains one of the bytes [(], [)] or [\]
    is written as [<] hexadecimal digits [>]; every other string is written
    as [(] payload [)]; a single space follows in both cases. *)
Theorem visitString_hex_or_literal `{Environment} (data : QByteArray) (d : QIODevice) :
  let special := In "("%char data \/ In ")"%char data \/ In "\"%char data in
  (special
   /\ visitString data d = write (latin1 "<" ++ toHex data ++ latin1 ">" ++ latin1 " ") d
   /\ serialize (String data) = latin1 "<" ++ toHex data ++ latin1 ">" ++ latin1 " ")
  \/
  (~ special
   /\ visitString data d = write (latin1 "(" ++ data ++ latin1 ")" ++ latin1 " ") d
   /\ serialize (String data) = latin1 "(" ++ data ++ latin1 ")" ++ latin1 " ").
Proof.
  intros special.
  pose proof (visitString_emits data) as Hemit.
  assert (Hser : serialize (String data) = emitted (visitString data)) by reflexivity.
  rewrite Hser, (Emits_emitted _ _ Hemit), (Hemit d).
  destruct (negb (indexOf "(" data =? -1)%Z || negb (indexOf ")" data =? -1)%Z
            || negb (indexOf "\" data =? -1)%Z) eqn:Htest.
  - left. split; [| split; reflexivity].
    apply orb_true_iff in Htest as [Htest | Htest];
      [apply orb_true_iff in Htest as [Htest | Htest] |];
      apply indexOf_test in Htest; unfold special; tauto.
  - right. split; [| split; reflexivity].
    apply orb_false_iff in Htest as [Htest H3].
    apply orb_false_iff in Htest as [H1 H2].
    unfold special. intros [Hin | [Hin | Hin]]; apply indexOf_test in Hin; congruence.
Qed.

(** ** Object numbers *)

(** C10. [getObjectCount] counts slot 0: a new writer reports 1, and on an
    open writer [writeObject] and [reserveObject] each add exactly one slot
    and return the object number the count had before the call. *)
Theorem getObjectCount_counts_slot_0 `{Environment} (device : QIODevice)
    (w : PDFStreamingDocumentWriter) (object : PDFObject) (generation : Z) :
  m_isOpen w = true ->
  getObjectCount (newWriter device) = 1
  /\ (getObjectCount (snd (writeObject object generation w)) = S (getObjectCount w)
      /\ fst (writeObject object generation w)
         = mkRef (Z.of_nat (getObjectCount w)) generation)
  /\ (getObjectCount (snd (reserveObject generation w)) = S (getObjectCount w)
      /\ fst (reserveObject generation w)
         = mkRef (Z.of_nat (getObjectCount w)) generation).
Proof.
  intros Hopen. split; [reflexivity |].
  rewrite writeObject_open by done.
  unfold getObjectCount, reserveObject; simpl.
  rewrite !length_app; simpl. repeat split; lia.
Qed.

Lemma getObjectCount_counts_slot_0_witness :
  m_isOpen sampleWriter = true
  /\ getObjectCount (newWriter blankDevice) = 1
  /\ fst (writeObject (H := sampleEnvironment) Null 0 sampleWriter) = mkRef 1 0
  /\ fst (reserveObject 0 sampleWriter) = mkRef 1 0.
Proof.
  split; [reflexivity |].
  pose proof (getObjectCount_counts_slot_0 (H := sampleEnvironment) blankDevice
                sampleWriter Null 0 eq_refl) as (Hnew & (_ & Hwrite) & (_ & Hreserve)).
  exact (conj Hnew (conj Hwrite Hreserve)).
Defined.

(** ** Reservations *)

Lemma Unwritten_dec (w : PDFStreamingDocumentWriter) (i : nat) :
  Unwritten w i \/ ~ Unwritten w i.
Proof.
  unfold Unwritten.
  destruct (m_objectOffsets w !! i) as [entry|] eqn:Hlook.
  - destruct (entry_isReserved entry) eqn:Hres.
    + destruct (Z.eq_dec (entry_offset entry) (-1)%Z) as [Hoff | Hoff].
      * left. by exists entry.
      * right. intros (e & He & _ & Hoff'). congruence.
    + right. intros (e & He & Hres' & _). congruence.
  - right. intros (e & He & _). discriminate.
Qed.

Lemma classic_fulfillable (w : PDFStreamingDocumentWriter) (reference : PDFObjectReference) :
  Fulfillable w reference \/ ~ Fulfillable w reference.
Proof.
  unfold Fulfillable.
  destruct (Z_le_dec 0%Z (objectNumber reference)) as [Hnn | Hneg]; [| right; tauto].
  destruct (Unwritten_dec w (Z.to_nat (objectNumber reference))); [left | right]; tauto.
Qed.

(** The bytes of an indirect object, spelled out. *)
Lemma indirectObject_eq `{Environment} (reference : PDFObjectReference) (object : PDFObject) :
  indirectObject reference object
  = QString_number (objectNumber reference) ++ latin1 " "
      ++ QString_number (generation reference) ++ latin1 " obj" ++ CRLF
      ++ serialize object ++ latin1 "endobj" ++ CRLF.
Proof.
  unfold indirectObject. rewrite objectHeader_eq, objectFooter_eq.
  by rewrite <- !app_assoc.
Qed.

(** The body of an object is never empty: every case of the visitor ends
    with a write of a closing token. *)
Lemma serialize_nonempty `{Environment} (object : PDFObject) : serialize object <> [].
Proof.
  assert (Hlast : forall (X : QByteArray) (d : QIODevice),
            X <> [] -> dev_requested (write X d) <> []).
  { intros X d HX Heq. rewrite write_requested in Heq.
    by apply app_eq_nil in Heq as [_ Heq]. }
  unfold serialize, emitted.
  destruct object as [|value| | | | | | | |]; cbn [accept];
    unfold visitNull, visitBool, visitInt, visitReal, visitString, visitName,
      visitReference; try (by apply Hlast).
  destruct value; by apply Hlast.
Qed.

(** C6. On an open writer [writeReservedObject] returns true exactly when
    the object number names an existing slot that is reserved and was never
    written. It then stores the device position in the slot, clears the
    reserved flag and writes the header line ["N G obj"], the body and the
    footer line ["endobj"], each line ended by CR LF, with [N] and [G]
    taken from the reference; these are the bytes [writeObject] writes for
    the reference it allocates, and the body is never empty. Otherwise it
    returns false and changes nothing. *)
Theorem writeReservedObject_spec `{Environment} (w : PDFStreamingDocumentWriter)
    (reference : PDFObjectReference) (object : PDFObject) :
  m_isOpen w = true ->
  (fst (writeReservedObject reference object w) = true <-> Fulfillable w reference)
  /\ (Fulfillable w reference ->
      exists entry,
        m_objectOffsets w !! Z.to_nat (objectNumber reference) = Some entry
        /\ snd (writeReservedObject reference object w)
           = mkWriter
               (write (QString_number (objectNumber reference) ++ latin1 " "
                         ++ QString_number (generation reference) ++ latin1 " obj" ++ CRLF
                         ++ serialize object ++ latin1 "endobj" ++ CRLF)
                  (m_device w))
               (m_version w) true
               (<[Z.to_nat (objectNumber reference) :=
                    mkEntry (pos (m_device w)) (entry_generation entry) false]>
                  (m_objectOffsets w))
               (m_pages w) (m_catalogReference w) (m_infoReference w))
  /\ (~ Fulfillable w reference -> writeReservedObject reference object w = (false, w))
  /\ (forall generation,
      m_device (snd (writeObject object generation w))
      = write (QString_number (Z.of_nat (getObjectCount w)) ++ latin1 " "
                 ++ QString_number generation ++ latin1 " obj" ++ CRLF
                 ++ serialize object ++ latin1 "endobj" ++ CRLF)
          (m_device w))
  /\ serialize object <> [].
Proof.
  intros Hopen.
  assert (Hyes : Fulfillable w reference ->
    exists entry,
      m_objectOffsets w !! Z.to_nat (objectNumber reference) = Some entry
      /\ writeReservedObject reference object w
         = (true, mkWriter (write (indirectObject reference object) (m_device w))
               (m_version w) true
               (<[Z.to_nat (objectNumber reference) :=
                    mkEntry (pos (m_device w)) (entry_generation entry) false]>
                  (m_objectOffsets w))
               (m_pages w) (m_catalogReference w) (m_infoReference w))).
  { intros (Hnn & entry & Hlook & Hres & Hoff). exists entry. split; [done |].
    by apply writeReservedObject_fulfil. }
  assert (Hno : ~ Fulfillable w reference ->
    writeReservedObject reference object w = (false, w)).
  { intros Hnot. apply writeReservedObject_refuse. tauto. }
  split; [split | split; [| split; [| split]]].
  - intros Htrue.
    destruct (classic_fulfillable w reference) as [Hf | Hf]; [done |].
    rewrite (Hno Hf) in Htrue. discriminate.
  - intros Hf. destruct (Hyes Hf) as (entry & _ & ->). reflexivity.
  - intros Hf. destruct (Hyes Hf) as (entry & Hlook & ->). exists entry.
    split; [done |]. cbn [snd]. by rewrite indirectObject_eq.
  - exact Hno.
  - intros generation. rewrite writeObject_open by done. cbn [snd m_device].
    by rewrite indirectObject_eq.
  - apply serialize_nonempty.
Qed.

Lemma writeReservedObject_spec_witness :
  let w := snd (reserveObject 0 sampleWriter) in
  m_isOpen w = true
  /\ (fst (writeReservedObject (H := sampleEnvironment) (mkRef 1 0) Null w) = true
      <-> Fulfillable w (mkRef 1 0)).
Proof.
  split; [reflexivity |].
  exact (proj1 (writeReservedObject_spec (H := sampleEnvironment)
                  (snd (reserveObject 0 sampleWriter)) (mkRef 1 0) Null eq_refl)).
Defined.

Lemma pos_nonneg d : (0 <= pos d)%Z.
Proof. unfold pos. lia. Qed.




(** ** Decimal numbers and justified fields *)

Lemma decimalValueFrom_app v a b :
  decimalValueFrom v (a ++ b) = decimalValueFrom (decimalValueFrom v a) b.
Proof. apply fold_left_app. Qed.

Lemma digit_of_residue (n : Z) :
  (0 <= n)%Z ->
  let c := ascii_of_N (48 + Z.to_N (n mod 10)) in
  isDigit c /\ (Z.of_N (N_of_ascii c) - 48 = n mod 10)%Z.
Proof.
  intros Hn c.
  pose proof (Z.mod_pos_bound n 10 ltac:(lia)) as Hmod.
  assert (Hc : N_of_ascii c = (48 + Z.to_N (n mod 10))%N).
  { unfold c. apply N_ascii_embedding. lia. }
  unfold isDigit. rewrite Hc. split; lia.
Qed.

Lemma decimalDigits_spec fuel : forall n acc,
  (0 <= n)%Z -> 1 <= fuel ->
  exists ds,
    decimalDigits fuel n acc = ds ++ acc
    /\ Forall isDigit ds
    /\ 1 <= length ds
    /\ (forall k, 1 <= k -> (n < 10 ^ Z.of_nat k)%Z -> length ds <= k)
    /\ ((n < 10 ^ Z.of_nat fuel)%Z ->
        forall v, decimalValueFrom v ds = (v * 10 ^ Z.of_nat (length ds) + n)%Z).
Proof.
  induction fuel as [|fuel IH]; intros n acc Hn Hfuel; [lia |].
  destruct (digit_of_residue n Hn) as [Hdigit Hvalue].
  pose proof (Z.div_mod n 10 ltac:(lia)) as Hdm.
  pose proof (Z.mod_pos_bound n 10 ltac:(lia)) as Hmod.
  simpl. destruct (n / 10 =? 0)%Z eqn:Hq.
  - apply Z.eqb_eq in Hq.
    exists [ascii_of_N (48 + Z.to_N (n mod 10))].
    split; [reflexivity |]. split; [by constructor |]. split; [simpl; lia |].
    split; [simpl; lia |].
    intros _ v. unfold decimalValueFrom; simpl. rewrite Hvalue. lia.
  - apply Z.eqb_neq in Hq.
    assert (Hq0 : (0 <= n / 10)%Z) by (apply Z.div_pos; lia).
    destruct fuel as [|fuel'].
    + exists [ascii_of_N (48 + Z.to_N (n mod 10))].
      split; [reflexivity |]. split; [by constructor |]. split; [simpl; lia |].
      split; [simpl; lia |].
      intros Hlt. simpl in Hlt. lia.
    + destruct (IH (n / 10)%Z (ascii_of_N (48 + Z.to_N (n mod 10)) :: acc) Hq0 ltac:(lia))
        as (ds & Heq & Hall & Hlen & Hbound & Hval).
      exists (ds ++ [ascii_of_N (48 + Z.to_N (n mod 10))]).
      split; [by rewrite Heq, <- app_assoc |].
      split; [apply Forall_app; split; [done | by constructor] |].
      split; [rewrite length_app; simpl; lia |].
      split.
      * intros k Hk Hlt. rewrite length_app; simpl.
        destruct k as [|[|k]]; [lia | simpl in Hlt; lia |].
        assert (length ds <= S k); [| lia].
        apply Hbound; [lia |].
        replace (Z.of_nat (S (S k))) with (Z.of_nat (S k) + 1)%Z in Hlt by lia.
        rewrite Z.pow_add_r in Hlt by lia. lia.
      * intros Hlt v.
        replace (Z.of_nat (S (S fuel'))) with (Z.of_nat (S fuel') + 1)%Z in Hlt by lia.
        rewrite Z.pow_add_r in Hlt by lia.
        rewrite decimalValueFrom_app, Hval by lia.
        unfold decimalValueFrom at 1; simpl. rewrite Hvalue.
        rewrite length_app; simpl.
        replace (Z.of_nat (length ds + 1)) with (Z.of_nat (length ds) + 1)%Z by lia.
        rewrite Z.pow_add_r by lia. lia.
Qed.

(** [QString::number] on a number of at most [k] digits, [k] up to 20. *)
Lemma QString_number_digits (n : Z) (k : nat) :
  (0 <= n < 10 ^ Z.of_nat k)%Z -> 1 <= k <= 20 ->
  Forall isDigit (QString_number n)
  /\ 1 <= length (QString_number n) <= k
  /\ decimalValue (QString_number n) = n.
Proof.
  intros [Hn Hlt] [Hk1 Hk20]. unfold QString_number.
  replace (n <? 0)%Z with false by (symmetry; apply Z.ltb_ge; lia).
  destruct (decimalDigits_spec 20 n [] Hn ltac:(lia)) as (ds & Heq & Hall & Hlen & Hbound & Hval).
  rewrite Heq, app_nil_r.
  split; [done |]. split; [split; [done | by apply Hbound] |].
  unfold decimalValue. rewrite Hval; [lia |].
  eapply Z.lt_le_trans; [exact Hlt |].
  apply Z.pow_le_mono_r; lia.
Qed.




(** ** The reservation check of [endDocument] *)

Lemma findUnwritten_None entries : forall i,
  findUnwritten i entries = None ->
  forall k entry, entries !! k = Some entry ->
    ~ (entry_isReserved entry = true /\ entry_offset entry = (-1)%Z).
Proof.
  induction entries as [|e rest IH]; intros i Hfind k entry Hlook; [done |].
  simpl in Hfind.
  destruct (entry_isReserved e && (entry_offset e =? -1)%Z) eqn:Htest; [done |].
  destruct k as [|k]; simpl in Hlook.
  - injection Hlook as <-. intros [Hres Hoff].
    rewrite Hres, Hoff in Htest. done.
  - by eapply IH.
Qed.

Lemma findUnwritten_Some entries : forall i n,
  findUnwritten i entries = Some n ->
  i <= n
  /\ (exists entry, entries !! (n - i) = Some entry
        /\ entry_isReserved entry = true /\ entry_offset entry = (-1)%Z)
  /\ (forall k entry, k < n - i -> entries !! k = Some entry ->
        ~ (entry_isReserved entry = true /\ entry_offset entry = (-1)%Z)).
Proof.
  induction entries as [|e rest IH]; intros i n Hfind; [done |].
  simpl in Hfind.
  destruct (entry_isReserved e && (entry_offset e =? -1)%Z) eqn:Htest.
  - injection Hfind as <-. rewrite Nat.sub_diag.
    apply andb_true_iff in Htest as [Hres Hoff]. apply Z.eqb_eq in Hoff.
    split; [lia |]. split; [by exists e |]. intros k entry Hk. lia.
  - destruct (IH _ _ Hfind) as (Hle & (entry & Hlook & Hres & Hoff) & Hmin).
    split; [lia |]. split.
    + exists entry. replace (n - i) with (S (n - S i)) by lia. done.
    + intros [|k] entry0 Hk Hlook0; simpl in Hlook0.
      * injection Hlook0 as <-. intros [Hres0 Hoff0].
        rewrite Hres0, Hoff0 in Htest. done.
      * apply (Hmin k entry0); [lia | done].
Qed.

(** ** Finalisation *)

Section EndDocumentFacts.
Context `{Environment}.

Lemma writeXRefTable_eq (w : PDFStreamingDocumentWriter) :
  writeXRefTable w = onDevice (write (xrefSection (m_objectOffsets w))) w.
Proof.
  destruct w as [device version open offsets pages catalog info].
  unfold writeXRefTable, onDevice, writeCRLF, xrefSection. cbn [m_device m_version
    m_isOpen m_objectOffsets m_pages m_catalogReference m_infoReference].
  rewrite writeXRefEntries_write, !write_write. reflexivity.
Qed.

Lemma onDevice_onDevice f g (w : PDFStreamingDocumentWriter) :
  onDevice g (onDevice f w) = onDevice (fun d => g (f d)) w.
Proof. reflexivity. Qed.

Lemma writeTrailer_eq (xrefOffset : Z) (w : PDFStreamingDocumentWriter) :
  writeTrailer xrefOffset w = onDevice (write (trailerSection w xrefOffset)) w.
Proof.
  unfold writeTrailer, trailerSection.
  generalize (trailerObject w). intros trailer.
  rewrite !onDevice_onDevice. unfold onDevice. f_equal.
  unfold writeCRLF. rewrite accept_write, !write_write. reflexivity.
Qed.

(** A successful [endDocument], in one step. *)
Lemma endDocument_success (w : PDFStreamingDocumentWriter) :
  m_isOpen w = true ->
  findUnwritten 1 (drop 1 (m_objectOffsets w)) = None ->
  endDocument w =
    (OperationSuccess,
     let w1 := ensureCatalog w in
     mkWriter
       (write (xrefSection (m_objectOffsets w1) ++ trailerSection w1 (pos (m_device w1)))
          (m_device w1))
       (m_version w1) false (m_objectOffsets w1) (m_pages w1)
       (m_catalogReference w1) (m_infoReference w1)).
Proof.
  intros Hopen Hfind. unfold endDocument. rewrite Hopen, Hfind.
  cbv beta iota zeta delta [negb].
  generalize (ensureCatalog w). intros w1.
  rewrite writeXRefTable_eq, writeTrailer_eq.
  destruct w1 as [device version open offsets pages catalog info].
  unfold onDevice, setIsOpen, trailerSection, trailerObject.
  cbn [m_device m_version m_isOpen m_objectOffsets m_pages m_catalogReference
       m_infoReference].
  by rewrite write_write.
Qed.

Lemma endDocument_closed (w : PDFStreamingDocumentWriter) :
  m_isOpen w = false ->
  endDocument w = (OperationError (latin1 "Document is not open."), w).
Proof. intros Hclosed. unfold endDocument. by rewrite Hclosed. Qed.

Lemma endDocument_pending (w : PDFStreamingDocumentWriter) (N : nat) :
  m_isOpen w = true ->
  findUnwritten 1 (drop 1 (m_objectOffsets w)) = Some N ->
  endDocument w
  = (OperationError (latin1 "Reserved object " ++ QString_number (Z.of_nat N)
                       ++ latin1 " was never written."), w).
Proof. intros Hopen Hfind. unfold endDocument. by rewrite Hopen, Hfind. Qed.

Lemma no_Unwritten_findUnwritten (w : PDFStreamingDocumentWriter) :
  (forall i, 1 <= i -> ~ Unwritten w i) ->
  findUnwritten 1 (drop 1 (m_objectOffsets w)) = None.
Proof.
  intros Hnone.
  destruct (findUnwritten 1 (drop 1 (m_objectOffsets w))) as [N|] eqn:Hfind; [| done].
  destruct (findUnwritten_Some _ _ _ Hfind) as (Hle & (e & He & HeR & HeO) & _).
  rewrite lookup_drop in He. replace (1 + (N - 1)) with N in He by lia.
  exfalso. apply (Hnone N Hle). by exists e.
Qed.


End EndDocumentFacts.

(** C3. [endDocument] on an open writer that still has a reserved, unwritten
    slot returns the error naming the lowest such object number, and the
    writer it leaves is the writer it was given: the device received
    nothing and the offset table is unchanged. *)
Theorem endDocument_unfulfilled `{Environment} (w : PDFStreamingDocumentWriter) (i : nat) :
  m_isOpen w = true ->
  1 <= i ->
  Unwritten w i ->
  exists N,
    1 <= N <= i
    /\ Unwritten w N
    /\ (forall j, 1 <= j < N -> ~ Unwritten w j)
    /\ endDocument w
       = (OperationError (latin1 "Reserved object " ++ QString_number (Z.of_nat N)
                            ++ latin1 " was never written."), w)
    /\ m_device (snd (endDocument w)) = m_device w
    /\ m_objectOffsets (snd (endDocument w)) = m_objectOffsets w.
Proof.
  intros Hopen Hi (entry & Hlook & Hres & Hoff).
  destruct (findUnwritten 1 (drop 1 (m_objectOffsets w))) as [N|] eqn:Hfind.
  - rewrite (endDocument_pending w N Hopen Hfind). simpl.
    destruct (findUnwritten_Some _ _ _ Hfind) as (Hle & (e & He & HeR & HeO) & Hmin).
    rewrite lookup_drop in He.
    replace (1 + (N - 1)) with N in He by lia.
    exists N. split; [| split; [| split; [| done]]].
    + split; [done |].
      destruct (decide (N <= i)) as [|Hgt]; [done | exfalso].
      apply (Hmin (i - 1) entry); [lia | | done].
      rewrite lookup_drop. by replace (1 + (i - 1)) with i by lia.
    + by exists e.
    + intros j Hj (ej & Hej & HejR & HejO).
      apply (Hmin (j - 1) ej); [lia | | done].
      rewrite lookup_drop. by replace (1 + (j - 1)) with j by lia.
  - exfalso. apply (findUnwritten_None _ _ Hfind (i - 1) entry); [| done].
    rewrite lookup_drop. by replace (1 + (i - 1)) with i by lia.
Qed.

Lemma endDocument_unfulfilled_witness :
  m_isOpen sampleHalfFilled = true
  /\ Unwritten sampleHalfFilled 1
  /\ exists N, Unwritten sampleHalfFilled N
       /\ endDocument (H := sampleEnvironment) sampleHalfFilled
          = (OperationError (latin1 "Reserved object " ++ QString_number (Z.of_nat N)
                               ++ latin1 " was never written."), sampleHalfFilled).
Proof.
  assert (Hun : Unwritten sampleHalfFilled 1).
  { exists (mkEntry (-1) 0 true). repeat split. }
  split; [reflexivity |]. split; [exact Hun |].
  destruct (endDocument_unfulfilled (H := sampleEnvironment) sampleHalfFilled 1
              eq_refl (le_n 1) Hun) as (N & _ & HN & _ & Hend & _).
  exists N. exact (conj HN Hend).
Defined.


(** ** The open flag *)

(** C5, as the claim has it, fails for [reserveObject] and [addPage]: on a
    writer that was never opened, [reserveObject] allocates slot 1 and
    returns a valid reference, and [addPage] records the page. *)
Lemma reserveObject_addPage_not_gated :
  let w := newWriter blankDevice in
  m_isOpen w = false
  /\ fst (reserveObject 0 w) = mkRef 1 0
  /\ isValid (fst (reserveObject 0 w)) = true
  /\ getObjectCount (snd (reserveObject 0 w)) = 2
  /\ getObjectCount w = 1
  /\ m_pages (addPage (mkRef 1 0) w) = [mkRef 1 0]
  /\ m_pages w = [].
Proof. repeat split. Qed.

(** C5, amended. The writer has one flag: [beginDocument] on a writable
    device sets it, whatever it was, and a successful [endDocument] clears
    it. While it is not set, [writeObject], [writeReservedObject] and
    [endDocument] fail and leave the writer and its device as they were.
    [reserveObject] and [addPage] are not gated by the flag: in every
    state, open or not, they allocate the slot and record the page, and
    they never touch the device or the flag. *)
Theorem operations_when_not_open `{Environment} (w : PDFStreamingDocumentWriter)
    (object : PDFObject) (generation : Z) (reference : PDFObjectReference)
    (version : PDFVersion) :
  (m_isOpen w = false ->
   (writeObject object generation w = (invalidReference, w)
    /\ isValid invalidReference = false)
   /\ writeReservedObject reference object w = (false, w)
   /\ endDocument w = (OperationError (latin1 "Document is not open."), w))
  /\ (m_device (snd (reserveObject generation w)) = m_device w
      /\ m_isOpen (snd (reserveObject generation w)) = m_isOpen w
      /\ fst (reserveObject generation w)
         = mkRef (Z.of_nat (getObjectCount w)) generation
      /\ getObjectCount (snd (reserveObject generation w)) = S (getObjectCount w))
  /\ (m_device (addPage reference w) = m_device w
      /\ m_isOpen (addPage reference w) = m_isOpen w
      /\ m_pages (addPage reference w) = m_pages w ++ [reference])
  /\ (isWritable (m_device w) = true ->
      fst (beginDocument version w) = true
      /\ m_isOpen (snd (beginDocument version w)) = true)
  /\ (isWritable (m_device w) = false -> beginDocument version w = (false, w))
  /\ (forall w', fst (endDocument w') = OperationSuccess ->
      m_isOpen w' = true /\ m_isOpen (snd (endDocument w')) = false).
Proof.
  split; [| split; [| split; [| split; [| split]]]].
  - intros Hclosed. split; [split |split].
    + by apply writeObject_closed.
    + reflexivity.
    + apply writeReservedObject_refuse. intros [Hopen _]. congruence.
    + by apply endDocument_closed.
  - split; [done |]. split; [done |]. split; [done |].
    unfold getObjectCount, reserveObject. cbn [snd setObjectOffsets m_objectOffsets].
    rewrite length_app. simpl. lia.
  - by repeat split.
  - intros Hw. unfold beginDocument. by rewrite Hw.
  - intros Hnw. unfold beginDocument. by rewrite Hnw.
  - intros w' Hok.
    destruct (m_isOpen w') eqn:Hopen';
      [| by rewrite endDocument_closed in Hok].
    destruct (findUnwritten 1 (drop 1 (m_objectOffsets w'))) as [N|] eqn:Hfind;
      [by rewrite (endDocument_pending w' N) in Hok |].
    by rewrite endDocument_success.
Qed.

Lemma operations_when_not_open_witness :
  m_isOpen (newWriter blankDevice) = false
  /\ writeObject (H := sampleEnvironment) Null 0 (newWriter blankDevice)
     = (invalidReference, newWriter blankDevice).
Proof.
  split; [reflexivity |].
  exact (proj1 (proj1 (proj1 (operations_when_not_open (H := sampleEnvironment)
                 (newWriter blankDevice) Null 0 (mkRef 1 0) (mkVersion 1 7)) eq_refl))).
Defined.






(** ** Offsets point at headers *)

Lemma BeginsAt_take buffer offset bytes :
  BeginsAt buffer offset bytes ->
  take (length bytes) (drop (Z.to_nat offset) buffer) = bytes.
Proof.
  intros (before & after & -> & <-).
  rewrite Nat2Z.id, drop_app_length, take_app_length. reflexivity.
Qed.

Lemma BeginsAt_app buffer offset bytes more :
  BeginsAt buffer offset bytes -> BeginsAt (buffer ++ more) offset bytes.
Proof.
  intros (before & after & -> & <-).
  exists before, (after ++ more). split; [| done].
  by rewrite <- !app_assoc.
Qed.

Lemma BeginsAt_end buffer bytes rest :
  BeginsAt (buffer ++ bytes ++ rest) (Z.of_nat (length buffer)) bytes.
Proof. by exists buffer, rest. Qed.

Section OffsetFacts.
Context `{Environment}.

(** One step of the invariant: the device received [X]; every written slot
    either was there before, unchanged, or records the old end of the
    buffer, where [X] starts with the slot's header. *)
Lemma HeadersInPlace_step (w w' : PDFStreamingDocumentWriter) (X : QByteArray) :
  dev_failed (m_device w) = false ->
  m_device w' = write X (m_device w) ->
  (forall N entry, 1 <= N -> m_objectOffsets w' !! N = Some entry ->
     entry_offset entry <> (-1)%Z ->
     m_objectOffsets w !! N = Some entry
     \/ (entry_offset entry = pos (m_device w)
         /\ exists rest,
              X = objectHeader (mkRef (Z.of_nat N) (entry_generation entry)) ++ rest)) ->
  HeadersInPlace w -> HeadersInPlace w'.
Proof.
  intros Hhealthy Hdev Hslots Hinv N entry HN Hlook Hwritten.
  rewrite Hdev, write_buffer_healthy by done.
  destruct (Hslots N entry HN Hlook Hwritten) as [Hold | (Hoff & rest & ->)].
  - apply BeginsAt_app. by apply Hinv.
  - rewrite Hoff. apply BeginsAt_end.
Qed.

Lemma HeadersInPlace_writeObject (w : PDFStreamingDocumentWriter) object generation :
  dev_failed (m_device w) = false ->
  HeadersInPlace w -> HeadersInPlace (snd (writeObject object generation w)).
Proof.
  intros Hhealthy Hinv.
  destruct (m_isOpen w) eqn:Hopen; [| by rewrite writeObject_closed].
  rewrite writeObject_open by done. cbn [snd].
  eapply (HeadersInPlace_step w); [done | reflexivity | | done].
  cbn [m_objectOffsets]. intros N entry HN Hlook Hwritten.
  destruct (decide (N < length (m_objectOffsets w))) as [Hlt | Hge].
  - left. by rewrite lookup_app_l in Hlook.
  - right. rewrite lookup_app_r in Hlook by lia.
    destruct (N - length (m_objectOffsets w)) as [|k] eqn:Hk; [| by destruct k].
    injection Hlook as <-. cbn [entry_offset entry_generation].
    split; [done |]. replace N with (length (m_objectOffsets w)) by lia.
    by eexists.
Qed.

Lemma HeadersInPlace_reserveObject (w : PDFStreamingDocumentWriter) generation :
  HeadersInPlace w -> HeadersInPlace (snd (reserveObject generation w)).
Proof.
  intros Hinv N entry HN Hlook Hwritten.
  unfold reserveObject in *. cbn [snd setObjectOffsets m_objectOffsets m_device] in *.
  destruct (decide (N < length (m_objectOffsets w))) as [Hlt | Hge].
  - rewrite lookup_app_l in Hlook by done. by apply Hinv.
  - rewrite lookup_app_r in Hlook by lia.
    destruct (N - length (m_objectOffsets w)) as [|k]; [| by destruct k].
    injection Hlook as <-. done.
Qed.

Lemma HeadersInPlace_writeReservedObject (w : PDFStreamingDocumentWriter)
    reference object :
  dev_failed (m_device w) = false ->
  exactReference w (CallWriteReservedObject reference object) = true ->
  HeadersInPlace w -> HeadersInPlace (snd (writeReservedObject reference object w)).
Proof.
  intros Hhealthy Hexact Hinv.
  destruct (m_isOpen w) eqn:Hopen;
    [| rewrite writeReservedObject_refuse; [done | intros [? _]; congruence]].
  destruct (classic_fulfillable w reference) as [Hf | Hf];
    [| rewrite writeReservedObject_refuse; [done | tauto]].
  destruct Hf as (Hnn & entry & Hlook & Hres & Hoff).
  rewrite (writeReservedObject_fulfil reference object w entry) by done. cbn [snd].
  unfold exactReference in Hexact. rewrite Hlook in Hexact. apply Z.eqb_eq in Hexact.
  eapply (HeadersInPlace_step w); [done | reflexivity | | done].
  cbn [m_objectOffsets]. intros N e HN HlookN Hwritten.
  destruct (decide (N = Z.to_nat (objectNumber reference))) as [-> | Hne].
  - right. rewrite list_lookup_insert_eq in HlookN by (by eapply lookup_lt_Some).
    injection HlookN as <-. cbn [entry_offset entry_generation].
    split; [done |]. rewrite Z2Nat.id, Hexact by done.
    destruct reference as [n g]. by eexists.
  - left. by rewrite list_lookup_insert_ne in HlookN.
Qed.

Lemma writeObject_healthy (w : PDFStreamingDocumentWriter) object generation :
  dev_failed (m_device (snd (writeObject object generation w))) = dev_failed (m_device w).
Proof.
  destruct (m_isOpen w) eqn:Hopen; [| by rewrite writeObject_closed].
  by rewrite writeObject_open.
Qed.

Lemma writeReservedObject_healthy (w : PDFStreamingDocumentWriter) reference object :
  dev_failed (m_device (snd (writeReservedObject reference object w)))
  = dev_failed (m_device w).
Proof.
  destruct (m_isOpen w) eqn:Hopen;
    [| rewrite writeReservedObject_refuse; [done | intros [? _]; congruence]].
  destruct (classic_fulfillable w reference) as [Hf | Hf];
    [| rewrite writeReservedObject_refuse; [done | tauto]].
  destruct Hf as (Hnn & entry & Hlook & Hres & Hoff).
  by rewrite (writeReservedObject_fulfil reference object w entry).
Qed.

(** [beginDocument], in one step. *)
Lemma beginDocument_eq (version : PDFVersion) (w : PDFStreamingDocumentWriter) :
  beginDocument version w =
    if negb (isWritable (m_device w)) then (false, w)
    else (true,
          mkWriter (write (documentHeader version) (m_device w))
            version true (m_objectOffsets w) (m_pages w)
            (m_catalogReference w) (m_infoReference w)).
Proof.
  unfold beginDocument at 1. destruct (negb (isWritable (m_device w))); [done |].
  cbv zeta. rewrite !onDevice_onDevice. unfold onDevice, setIsOpen, setVersion.
  cbn [m_device m_version m_isOpen m_objectOffsets m_pages m_catalogReference
       m_infoReference].
  unfold writeCRLF, documentHeader. rewrite !write_write, <- ?app_assoc.
  reflexivity.
Qed.

End OffsetFacts.

Section CallFacts.
Context `{Environment}.

Lemma ensureCatalog_healthy (w : PDFStreamingDocumentWriter) :
  dev_failed (m_device (ensureCatalog w)) = dev_failed (m_device w).
Proof.
  unfold ensureCatalog. destruct (negb (isValid (m_catalogReference w))); [| done].
  unfold createPageTree, createCatalog.
  destruct (writeObject (pageTreeObject (m_pages w)) 0 w) as [r1 w1] eqn:H1.
  destruct (writeObject (catalogObject r1) 0 w1) as [r2 w2] eqn:H2.
  cbn [setCatalogReference m_device].
  change w2 with (snd (r2, w2)). rewrite <- H2, writeObject_healthy.
  change w1 with (snd (r1, w1)). by rewrite <- H1, writeObject_healthy.
Qed.

Lemma ensureCatalog_HeadersInPlace (w : PDFStreamingDocumentWriter) :
  dev_failed (m_device w) = false ->
  HeadersInPlace w -> HeadersInPlace (ensureCatalog w).
Proof.
  intros Hhealthy Hinv.
  unfold ensureCatalog. destruct (negb (isValid (m_catalogReference w))); [| done].
  unfold createPageTree, createCatalog.
  pose proof (HeadersInPlace_writeObject w (pageTreeObject (m_pages w)) 0 Hhealthy Hinv)
    as Hinv1.
  pose proof (writeObject_healthy w (pageTreeObject (m_pages w)) 0) as Hhealthy1.
  destruct (writeObject (pageTreeObject (m_pages w)) 0 w) as [r1 w1].
  cbn [snd] in Hinv1, Hhealthy1. rewrite Hhealthy in Hhealthy1.
  pose proof (HeadersInPlace_writeObject w1 (catalogObject r1) 0 Hhealthy1 Hinv1) as Hinv2.
  destruct (writeObject (catalogObject r1) 0 w1) as [r2 w2].
  exact Hinv2.
Qed.

Lemma endDocument_healthy (w : PDFStreamingDocumentWriter) :
  dev_failed (m_device (snd (endDocument w))) = dev_failed (m_device w).
Proof.
  destruct (m_isOpen w) eqn:Hopen; [| by rewrite endDocument_closed].
  destruct (findUnwritten 1 (drop 1 (m_objectOffsets w))) as [N|] eqn:Hfind;
    [by rewrite (endDocument_pending w N) |].
  rewrite endDocument_success by done. cbn [snd m_device].
  by rewrite write_failed, ensureCatalog_healthy.
Qed.

Lemma endDocument_HeadersInPlace (w : PDFStreamingDocumentWriter) :
  dev_failed (m_device w) = false ->
  HeadersInPlace w -> HeadersInPlace (snd (endDocument w)).
Proof.
  intros Hhealthy Hinv.
  destruct (m_isOpen w) eqn:Hopen; [| by rewrite endDocument_closed].
  destruct (findUnwritten 1 (drop 1 (m_objectOffsets w))) as [N|] eqn:Hfind;
    [by rewrite (endDocument_pending w N) |].
  rewrite endDocument_success by done. cbn [snd].
  eapply (HeadersInPlace_step (ensureCatalog w)).
  - by rewrite ensureCatalog_healthy.
  - reflexivity.
  - intros N entry _ Hlook _. by left.
  - by apply ensureCatalog_HeadersInPlace.
Qed.

Lemma perform_healthy (c : Call) (w : PDFStreamingDocumentWriter) :
  dev_failed (m_device (snd (perform c w))) = dev_failed (m_device w).
Proof.
  destruct c; cbn [perform prod_map snd fst]; try done.
  - rewrite beginDocument_eq. by destruct (negb (isWritable (m_device w))).
  - apply writeObject_healthy.
  - apply writeReservedObject_healthy.
  - apply writeObject_healthy.
  - apply writeObject_healthy.
  - apply endDocument_healthy.
Qed.

Lemma perform_HeadersInPlace (c : Call) (w : PDFStreamingDocumentWriter) :
  dev_failed (m_device w) = false ->
  exactReference w c = true ->
  HeadersInPlace w -> HeadersInPlace (snd (perform c w)).
Proof.
  intros Hhealthy Hexact Hinv.
  destruct c; cbn [perform prod_map snd fst]; try done.
  - rewrite beginDocument_eq. destruct (negb (isWritable (m_device w))); [done |].
    cbn [snd]. eapply (HeadersInPlace_step w); [done | reflexivity | | done].
    intros N entry _ Hlook _. by left.
  - by apply HeadersInPlace_writeObject.
  - by apply HeadersInPlace_reserveObject.
  - by apply HeadersInPlace_writeReservedObject.
  - by apply HeadersInPlace_writeObject.
  - by apply HeadersInPlace_writeObject.
  - by apply endDocument_HeadersInPlace.
Qed.

Lemma performAll_cons (c : Call) (calls : list Call) (w : PDFStreamingDocumentWriter) :
  performAll (c :: calls) w
  = (fst (perform c w) :: fst (performAll calls (snd (perform c w))),
     snd (performAll calls (snd (perform c w)))).
Proof.
  cbn [performAll]. destruct (perform c w) as [o w1]. cbn [fst snd].
  by destruct (performAll calls w1).
Qed.

Lemma performAll_HeadersInPlace (calls : list Call) : forall w,
  dev_failed (m_device w) = false ->
  exactReferences w calls = true ->
  HeadersInPlace w -> HeadersInPlace (snd (performAll calls w)).
Proof.
  induction calls as [|c calls IH]; intros w Hhealthy Hexact Hinv; [done |].
  cbn [exactReferences] in Hexact. apply andb_true_iff in Hexact as [Hc Hrest].
  rewrite performAll_cons. cbn [snd]. apply IH; [| done |].
  - by rewrite perform_healthy.
  - by apply perform_HeadersInPlace.
Qed.

End CallFacts.

(** C1, as the claim has it, fails when a reserved slot is fulfilled through
    a reference of another generation: slot 1 of the sample records
    generation 0 and an offset at which the file reads ["1 5 obj"]. *)
Lemma header_generation_mismatch :
  fst (performAll sampleMismatchCalls (newWriter blankDevice))
  = [ ReturnedBool true; ReturnedReference (mkRef 1 0); ReturnedBool true;
      ReturnedResult OperationSuccess ]
  /\ m_objectOffsets sampleMismatch !! 1 = Some (mkEntry 74 0 false)
  /\ BeginsAt (dev_buffer (m_device sampleMismatch)) 74 (latin1 "1 5 obj" ++ CRLF)
  /\ ~ BeginsAt (dev_buffer (m_device sampleMismatch)) 74 (latin1 "1 0 obj" ++ CRLF).
Proof.
  split; [vm_compute; reflexivity |]. split; [vm_compute; reflexivity |]. split.
  - exists (take 74 (dev_buffer (m_device sampleMismatch))),
           (drop 83 (dev_buffer (m_device sampleMismatch))).
    split; vm_compute; reflexivity.
  - intros Hbegins. apply BeginsAt_take in Hbegins.
    vm_compute in Hbegins. discriminate.
Qed.

(** C1, amended. Over a device that accepts every write, after any
    sequence of calls in which [writeReservedObject] is always given the
    generation its slot was reserved with, every written slot [N >= 1]
    records the position at which the file reads ["N G obj"] CRLF, [G]
    being the slot's generation; this holds in particular once
    [endDocument] has run. [writeObject] and [writeReservedObject] record
    the position of the device as it is just before the header, and the
    header carries the generation of the reference given to the call. *)
Theorem offsets_point_at_headers `{Environment} (device : QIODevice) (calls : list Call) :
  dev_failed device = false ->
  exactReferences (newWriter device) calls = true ->
  let w := snd (performAll calls (newWriter device)) in
  (forall N entry,
     1 <= N -> m_objectOffsets w !! N = Some entry -> entry_offset entry <> (-1)%Z ->
     BeginsAt (dev_buffer (m_device w)) (entry_offset entry)
       (QString_number (Z.of_nat N) ++ latin1 " "
          ++ QString_number (entry_generation entry) ++ latin1 " obj" ++ CRLF))
  /\ (forall w0 object generation,
        m_isOpen w0 = true -> dev_failed (m_device w0) = false ->
        let reference := fst (writeObject object generation w0) in
        let w1 := snd (writeObject object generation w0) in
        m_objectOffsets w1 !! Z.to_nat (objectNumber reference)
        = Some (mkEntry (pos (m_device w0)) generation false)
        /\ dev_buffer (m_device w1)
           = dev_buffer (m_device w0)
               ++ objectHeader reference ++ serialize object ++ objectFooter)
  /\ (forall w0 reference object,
        m_isOpen w0 = true -> dev_failed (m_device w0) = false ->
        fst (writeReservedObject reference object w0) = true ->
        let w1 := snd (writeReservedObject reference object w0) in
        (exists entry,
           m_objectOffsets w1 !! Z.to_nat (objectNumber reference) = Some entry
           /\ entry_offset entry = pos (m_device w0))
        /\ dev_buffer (m_device w1)
           = dev_buffer (m_device w0)
               ++ objectHeader reference ++ serialize object ++ objectFooter).
Proof.
  intros Hhealthy Hexact w. split; [| split].
  - intros N entry HN Hlook Hwritten.
    change (QString_number (Z.of_nat N) ++ latin1 " "
              ++ QString_number (entry_generation entry) ++ latin1 " obj" ++ CRLF)
      with (QString_number (objectNumber (mkRef (Z.of_nat N) (entry_generation entry)))
              ++ latin1 " "
              ++ QString_number (generation (mkRef (Z.of_nat N) (entry_generation entry)))
              ++ latin1 " obj" ++ CRLF).
    rewrite <- objectHeader_eq.
    revert N entry HN Hlook Hwritten.
    apply performAll_HeadersInPlace; [done | done |].
    intros [|[|N]] entry HN Hlook Hwritten; [lia | discriminate | discriminate].
  - intros w0 object generation Hopen Hhealthy0. cbv zeta.
    rewrite writeObject_open by done. cbn [fst snd objectNumber m_objectOffsets m_device].
    split.
    + rewrite Nat2Z.id, lookup_app_r by lia. by rewrite Nat.sub_diag.
    + by rewrite write_buffer_healthy.
  - intros w0 reference object Hopen Hhealthy0 Hok. cbv zeta.
    destruct (classic_fulfillable w0 reference) as [Hf | Hf];
      [| rewrite writeReservedObject_refuse in Hok; [discriminate | tauto]].
    destruct Hf as (Hnn & entry & Hlook & Hres & Hoff).
    rewrite (writeReservedObject_fulfil reference object w0 entry) by done.
    cbn [snd m_objectOffsets m_device]. split.
    + eexists. split; [apply list_lookup_insert_eq; by eapply lookup_lt_Some | done].
    + by rewrite write_buffer_healthy.
Qed.

Lemma offsets_point_at_headers_witness :
  dev_failed blankDevice = false
  /\ exactReferences (H := sampleEnvironment) (newWriter blankDevice)
       [ CallBeginDocument (mkVersion 1 7); CallReserveObject 4;
         CallWriteReservedObject (mkRef 1 4) Null; CallEndDocument ] = true
  /\ forall N entry,
       1 <= N ->
       m_objectOffsets (snd (performAll (H := sampleEnvironment)
           [ CallBeginDocument (mkVersion 1 7); CallReserveObject 4;
             CallWriteReservedObject (mkRef 1 4) Null; CallEndDocument ]
           (newWriter blankDevice))) !! N = Some entry ->
       entry_offset entry <> (-1)%Z ->
       BeginsAt (dev_buffer (m_device (snd (performAll (H := sampleEnvironment)
           [ CallBeginDocument (mkVersion 1 7); CallReserveObject 4;
             CallWriteReservedObject (mkRef 1 4) Null; CallEndDocument ]
           (newWriter blankDevice))))) (entry_offset entry)
         (QString_number (Z.of_nat N) ++ latin1 " "
            ++ QString_number (entry_generation entry) ++ latin1 " obj" ++ CRLF).
Proof.
  split; [reflexivity |].
  assert (Hexact : exactReferences (H := sampleEnvironment) (newWriter blankDevice)
       [ CallBeginDocument (mkVersion 1 7); CallReserveObject 4;
         CallWriteReservedObject (mkRef 1 4) Null; CallEndDocument ] = true)
    by (vm_compute; reflexivity).
  split; [exact Hexact |].
  exact (proj1 (offsets_point_at_headers (H := sampleEnvironment) blankDevice _
                  eq_refl Hexact)).
Defined.

(** ** Write failures *)

(** C7, as the claim has it, fails: over a device that rejects every write,
    the header writes of [beginDocument] were all rejected, and still the
    next [writeObject] returns a valid reference and passes its bytes to
    the device, and [endDocument] reports success. *)
Lemma write_failure_not_sticky :
  dev_failed (m_device sampleBroken) = true
  /\ dev_buffer (m_device sampleBroken) = []
  /\ dev_requested (m_device sampleBroken) = documentHeader (H := sampleEnvironment) (mkVersion 1 7)
  /\ fst (writeObject (H := sampleEnvironment) Null 0 sampleBroken) = mkRef 1 0
  /\ isValid (mkRef 1 0) = true
  /\ dev_requested (m_device (snd (writeObject (H := sampleEnvironment) Null 0 sampleBroken)))
     = dev_requested (m_device sampleBroken)
         ++ latin1 "1 0 obj" ++ CRLF ++ latin1 "null " ++ latin1 "endobj" ++ CRLF
  /\ fst (endDocument (H := sampleEnvironment)
            (snd (writeObject (H := sampleEnvironment) Null 0 sampleBroken)))
     = OperationSuccess.
Proof. repeat split; vm_compute; reflexivity. Qed.

Section FailureFacts.
Context `{Environment}.

Lemma writeObject_rejected (w : PDFStreamingDocumentWriter) object generation :
  dev_failed (m_device w) = true ->
  dev_buffer (m_device (snd (writeObject object generation w))) = dev_buffer (m_device w).
Proof.
  intros Hfailed.
  destruct (m_isOpen w) eqn:Hopen; [| by rewrite writeObject_closed].
  rewrite writeObject_open by done. cbn [snd m_device].
  by apply write_buffer_failed.
Qed.

Lemma ensureCatalog_rejected (w : PDFStreamingDocumentWriter) :
  dev_failed (m_device w) = true ->
  dev_buffer (m_device (ensureCatalog w)) = dev_buffer (m_device w).
Proof.
  intros Hfailed.
  unfold ensureCatalog. destruct (negb (isValid (m_catalogReference w))); [| done].
  unfold createPageTree, createCatalog.
  pose proof (writeObject_rejected w (pageTreeObject (m_pages w)) 0 Hfailed) as Hbuf1.
  pose proof (writeObject_healthy w (pageTreeObject (m_pages w)) 0) as Hfailed1.
  destruct (writeObject (pageTreeObject (m_pages w)) 0 w) as [r1 w1].
  cbn [snd] in Hbuf1, Hfailed1. rewrite Hfailed in Hfailed1.
  pose proof (writeObject_rejected w1 (catalogObject r1) 0 Hfailed1) as Hbuf2.
  destruct (writeObject (catalogObject r1) 0 w1) as [r2 w2].
  cbn [snd setCatalogReference m_device] in *. congruence.
Qed.

End FailureFacts.

(** C7, amended. A failed device stays failed through every call, but the
    writer never looks at the result of a write: over a device that rejects
    every write, an open writer's [writeObject] still returns the next
    reference, [writeReservedObject] still returns true for a fulfillable
    reference and [endDocument] still reports success, and each passes all
    its bytes to the device, which stores none of them. *)
Theorem write_failure_ignored `{Environment} (w : PDFStreamingDocumentWriter)
    (object : PDFObject) (generation : Z) (reference : PDFObjectReference) (c : Call) :
  m_isOpen w = true ->
  dev_failed (m_device w) = true ->
  dev_failed (m_device (snd (perform c w))) = true
  /\ (fst (writeObject object generation w)
      = mkRef (Z.of_nat (getObjectCount w)) generation
      /\ dev_requested (m_device (snd (writeObject object generation w)))
         = dev_requested (m_device w)
             ++ indirectObject (mkRef (Z.of_nat (getObjectCount w)) generation) object
      /\ dev_buffer (m_device (snd (writeObject object generation w)))
         = dev_buffer (m_device w))
  /\ (Fulfillable w reference ->
      fst (writeReservedObject reference object w) = true
      /\ dev_requested (m_device (snd (writeReservedObject reference object w)))
         = dev_requested (m_device w) ++ indirectObject reference object
      /\ dev_buffer (m_device (snd (writeReservedObject reference object w)))
         = dev_buffer (m_device w))
  /\ ((forall i, 1 <= i -> ~ Unwritten w i) ->
      fst (endDocument w) = OperationSuccess
      /\ dev_requested (m_device (snd (endDocument w)))
         = dev_requested (m_device (ensureCatalog w))
             ++ xrefSection (m_objectOffsets (ensureCatalog w))
             ++ trailerSection (ensureCatalog w) (pos (m_device (ensureCatalog w)))
      /\ dev_buffer (m_device (snd (endDocument w))) = dev_buffer (m_device w)).
Proof.
  intros Hopen Hfailed. split; [| split; [| split]].
  - by rewrite perform_healthy.
  - rewrite writeObject_rejected by done.
    rewrite writeObject_open by done. by cbn [fst snd m_device].
  - intros (Hnn & entry & Hlook & Hres & Hoff).
    rewrite (writeReservedObject_fulfil reference object w entry) by done.
    cbn [fst snd m_device]. split; [done |]. split; [done |].
    by apply write_buffer_failed.
  - intros Hnone. pose proof (no_Unwritten_findUnwritten w Hnone) as Hfind.
    rewrite endDocument_success by done. cbn [fst snd m_device].
    split; [done |]. split.
    + by rewrite write_requested.
    + rewrite write_buffer_failed by (by rewrite ensureCatalog_healthy).
      by apply ensureCatalog_rejected.
Qed.

Lemma write_failure_ignored_witness :
  m_isOpen sampleBroken = true
  /\ dev_failed (m_device sampleBroken) = true
  /\ fst (writeObject (H := sampleEnvironment) Null 0 sampleBroken)
     = mkRef (Z.of_nat (getObjectCount sampleBroken)) 0.
Proof.
  split; [reflexivity |]. split; [reflexivity |].
  exact (proj1 (proj1 (proj2 (write_failure_ignored (H := sampleEnvironment)
           sampleBroken Null 0 (mkRef 1 0) CallEndDocument eq_refl eq_refl)))).
Defined.

(** ** The merge passes *)

Section MergeFacts.
Context `{Environment}.

Lemma liveSlots_elem (objects : list StorageEntry) : forall i n entry,
  (n, entry) ∈ liveSlots i objects <->
  i <= n /\ objects !! (n - i) = Some entry /\ isNull (slot_object entry) = false.
Proof.
  induction objects as [|e rest IH]; intros i n entry; simpl.
  - split; [intros Hin; by apply elem_of_nil in Hin | by intros (_ & ? & _)].
  - assert (Hrest : (n, entry) ∈ liveSlots (S i) rest <->
              i < n /\ (e :: rest) !! (n - i) = Some entry
              /\ isNull (slot_object entry) = false).
    { rewrite IH. split.
      - intros (Hle & Hlook & Hnull). split; [lia |]. split; [| done].
        by replace (n - i) with (S (n - S i)) by lia.
      - intros (Hlt & Hlook & Hnull). split; [lia |]. split; [| done].
        by replace (n - i) with (S (n - S i)) in Hlook by lia. }
    destruct (isNull (slot_object e)) eqn:Hnull; simpl.
    + rewrite Hrest. split.
      * intros (Hlt & Hlook & Hn). split; [lia | done].
      * intros (Hle & Hlook & Hn). split; [| done].
        destruct (decide (n = i)) as [-> | Hne]; [| lia].
        rewrite Nat.sub_diag in Hlook. simpl in Hlook. congruence.
    + rewrite elem_of_cons, Hrest. split.
      * intros [Heq | (Hlt & Hlook & Hn)].
        -- injection Heq as -> ->. rewrite Nat.sub_diag. done.
        -- split; [lia | done].
      * intros (Hle & Hlook & Hn).
        destruct (decide (n = i)) as [-> | Hne].
        -- left. rewrite Nat.sub_diag in Hlook. simpl in Hlook. congruence.
        -- right. split; [lia | done].
Qed.

Lemma liveSlots_ascending (objects : list StorageEntry) : forall i j1 j2 s1 s2,
  j1 < j2 ->
  liveSlots i objects !! j1 = Some s1 ->
  liveSlots i objects !! j2 = Some s2 ->
  fst s1 < fst s2.
Proof.
  induction objects as [|e rest IH]; intros i j1 j2 s1 s2 Hlt H1 H2; [done |].
  simpl in H1, H2. destruct (negb (isNull (slot_object e))).
  - destruct j2 as [|j2]; [lia |]. simpl in H2.
    destruct j1 as [|j1]; simpl in H1.
    + injection H1 as <-. simpl.
      destruct s2 as [n2 e2].
      assert (Hin : (n2, e2) ∈ liveSlots (S i) rest) by (by eapply list_elem_of_lookup_2).
      apply liveSlots_elem in Hin as (Hle & _). simpl. lia.
    + eapply (IH (S i) j1 j2); [lia | done | done].
  - by eapply (IH (S i) j1 j2).
Qed.

Lemma mappingPairs_keys K live : (mappingPairs K live).*1 = map oldReference live.
Proof.
  unfold mappingPairs. revert K. induction live as [|slot live IH]; intros K; [done |].
  simpl. f_equal. rewrite <- (IH (S K)). f_equal.
  apply imap_ext. intros j s _. simpl. unfold allocated. do 3 f_equal. lia.
Qed.

Lemma liveSlots_NoDup (objects : list StorageEntry) : forall i,
  NoDup (map oldReference (liveSlots i objects)).
Proof.
  induction objects as [|e rest IH]; intros i; simpl; [constructor |].
  destruct (negb (isNull (slot_object e))); [| apply IH].
  simpl. constructor; [| apply IH].
  intros Hin. apply list_elem_of_fmap in Hin as ([n e'] & Heq & Hin).
  apply liveSlots_elem in Hin as (Hle & _).
  unfold oldReference in Heq. simpl in Heq. injection Heq as Hn _. lia.
Qed.

Lemma mappingOf_lookup K (objects : list StorageEntry) i j slot :
  liveSlots i objects !! j = Some slot ->
  mappingOf K (liveSlots i objects) !! oldReference slot = Some (allocated K j).
Proof.
  intros Hlook. unfold mappingOf.
  apply elem_of_list_to_map_1.
  - rewrite mappingPairs_keys. apply liveSlots_NoDup.
  - unfold mappingPairs. apply list_elem_of_lookup. exists j.
    by rewrite list_lookup_imap, Hlook.
Qed.

Lemma mappingOf_keys K live old :
  is_Some (mappingOf K live !! old) -> exists slot, slot ∈ live /\ old = oldReference slot.
Proof.
  intros [new Hnew]. unfold mappingOf in Hnew.
  apply elem_of_list_to_map_2 in Hnew.
  unfold mappingPairs in Hnew. apply list_elem_of_lookup in Hnew as [j Hj].
  rewrite list_lookup_imap in Hj.
  destruct (live !! j) as [slot|] eqn:Hslot; [| done].
  simpl in Hj. injection Hj as <- _.
  exists slot. split; [by eapply list_elem_of_lookup_2 | done].
Qed.

End MergeFacts.

Section PassFacts.
Context `{Environment}.

Lemma foldl_insert_lookup (pairs : list (PDFObjectReference * PDFObjectReference)) :
  forall (M : ReferenceMapping) key,
  NoDup pairs.*1 ->
  foldl (fun M p => <[p.1 := p.2]> M) M pairs !! key
  = match (list_to_map pairs : ReferenceMapping) !! key with
    | Some value => Some value
    | None => M !! key
    end.
Proof.
  induction pairs as [|[k v] pairs IH]; intros M key Hnodup; [done |].
  apply NoDup_cons in Hnodup as [Hfresh Hnodup].
  simpl. rewrite IH by done.
  destruct (decide (key = k)) as [-> | Hne].
  - rewrite lookup_insert_eq.
    rewrite (not_elem_of_list_to_map_1 _ k Hfresh). by rewrite lookup_insert_eq.
  - rewrite !lookup_insert_ne by done. done.
Qed.

Lemma performAll_app (a b : list Call) : forall w : PDFStreamingDocumentWriter,
  performAll (a ++ b) w
  = (fst (performAll a w) ++ fst (performAll b (snd (performAll a w))),
     snd (performAll b (snd (performAll a w)))).
Proof.
  induction a as [|c a IH]; intros w.
  - simpl. by destruct (performAll b w).
  - rewrite <- app_comm_cons, !performAll_cons, IH. reflexivity.
Qed.

Lemma allocated_shift K j : allocated K (S j) = allocated (S K) j.
Proof. unfold allocated. do 2 f_equal. lia. Qed.

Lemma allocated_0 K : allocated K 0 = mkRef (Z.of_nat K) 0.
Proof. unfold allocated. by rewrite Nat.add_0_r. Qed.

Lemma mappingPairs_cons K slot (live : list (nat * StorageEntry)) :
  mappingPairs K (slot :: live)
  = (oldReference slot, mkRef (Z.of_nat K) 0) :: mappingPairs (S K) live.
Proof.
  unfold mappingPairs. rewrite imap_cons, allocated_0. f_equal.
  apply imap_ext. intros j s _. simpl. by rewrite allocated_shift.
Qed.

Lemma reserved_outcomes_cons K slot (live : list (nat * StorageEntry)) :
  imap (fun j (_ : nat * StorageEntry) => ReturnedReference (allocated K j)) (slot :: live)
  = ReturnedReference (mkRef (Z.of_nat K) 0)
      :: imap (fun j _ => ReturnedReference (allocated (S K) j)) live.
Proof.
  rewrite imap_cons, allocated_0. f_equal.
  apply imap_ext. intros j s _. simpl. by rewrite allocated_shift.
Qed.

Lemma reserveObject_eq generation (w : PDFStreamingDocumentWriter) :
  reserveObject generation w
  = (mkRef (Z.of_nat (length (m_objectOffsets w))) generation,
     mkWriter (m_device w) (m_version w) (m_isOpen w)
       (m_objectOffsets w ++ [mkEntry (-1) generation true])
       (m_pages w) (m_catalogReference w) (m_infoReference w)).
Proof. reflexivity. Qed.

(** The first pass: one [reserveObject(0)] per live slot and one mapping
    entry per live slot. *)
Lemma reservePass_spec (objects : list StorageEntry) :
  forall i (M : ReferenceMapping) (w : PDFStreamingDocumentWriter),
  reservePass i objects M w
  = (foldl (fun M p => <[p.1 := p.2]> M) M
       (mappingPairs (length (m_objectOffsets w)) (liveSlots i objects)),
     mkWriter (m_device w) (m_version w) (m_isOpen w)
       (m_objectOffsets w ++ map (fun _ => mkEntry (-1) 0 true) (liveSlots i objects))
       (m_pages w) (m_catalogReference w) (m_infoReference w))
  /\ performAll (reserveCalls (liveSlots i objects)) w
     = (imap (fun j _ => ReturnedReference (allocated (length (m_objectOffsets w)) j))
          (liveSlots i objects),
        snd (reservePass i objects M w)).
Proof.
  induction objects as [|entry rest IH]; intros i M w.
  - simpl. split; [| done]. destruct w; simpl. by rewrite app_nil_r.
  - cbn [reservePass liveSlots].
    destruct (negb (isNull (slot_object entry))); [| apply IH].
    rewrite reserveObject_eq.
    set (w1 := mkWriter (m_device w) (m_version w) (m_isOpen w)
                 (m_objectOffsets w ++ [mkEntry (-1) 0 true])
                 (m_pages w) (m_catalogReference w) (m_infoReference w)).
    set (M1 := <[mkRef (Z.of_nat i) (slot_generation entry)
                 := mkRef (Z.of_nat (length (m_objectOffsets w))) 0]> M).
    destruct (IH (S i) M1 w1) as [Hpass Hcalls].
    assert (Hlen : length (m_objectOffsets w1) = S (length (m_objectOffsets w))).
    { unfold w1. cbn [m_objectOffsets]. rewrite length_app. simpl. lia. }
    rewrite Hlen in Hpass, Hcalls.
    split.
    + rewrite Hpass, mappingPairs_cons. cbn [foldl map].
      unfold w1. cbn [m_device m_version m_isOpen m_objectOffsets m_pages
        m_catalogReference m_infoReference].
      by rewrite <- app_assoc.
    + unfold reserveCalls in *. cbn [map]. rewrite performAll_cons.
      cbn [perform]. rewrite reserveObject_eq. cbn [prod_map fst snd id].
      fold w1. rewrite Hcalls. cbn [fst snd].
      by rewrite reserved_outcomes_cons.
Qed.

End PassFacts.

Section EmitFacts.
Context `{Environment}.

(** The second pass: every live slot is written through the reference the
    first pass allocated for it, and every such call succeeds. *)
Lemma emitPass_spec (K : nat) (M : ReferenceMapping) (objects : list StorageEntry) :
  forall i j0 (w : PDFStreamingDocumentWriter),
  m_isOpen w = true ->
  (forall j slot, liveSlots i objects !! j = Some slot ->
     M !! oldReference slot = Some (allocated K (j0 + j))) ->
  (forall j, j < length (liveSlots i objects) ->
     m_objectOffsets w !! (K + (j0 + j)) = Some (mkEntry (-1) 0 true)) ->
  let calls :=
    imap (fun j slot =>
            CallWriteReservedObject (allocated K (j0 + j))
              (replaceReferences (slot_object (snd slot)) M)) (liveSlots i objects) in
  emitPass i objects M w = (M, snd (performAll calls w))
  /\ fst (performAll calls w) = map (fun _ => ReturnedBool true) (liveSlots i objects).
Proof.
  induction objects as [|entry rest IH]; intros i j0 w Hopen Hmap Hslots; [done |].
  cbn [emitPass liveSlots] in *.
  destruct (negb (isNull (slot_object entry))); [| by apply IH].
  cbv zeta. rewrite imap_cons, performAll_cons. cbn [perform].
  pose proof (Hmap 0 (i, entry) eq_refl) as Hfirst.
  change (oldReference (i, entry)) with (mkRef (Z.of_nat i) (slot_generation entry))
    in Hfirst.
  unfold subscript. rewrite Hfirst.
  assert (Hcall : writeReservedObject (allocated K (j0 + 0))
                    (replaceReferences (slot_object entry) M) w
    = (true, mkWriter
               (write (indirectObject (allocated K (j0 + 0))
                         (replaceReferences (slot_object entry) M)) (m_device w))
               (m_version w) true
               (<[K + (j0 + 0) := mkEntry (pos (m_device w)) 0 false]> (m_objectOffsets w))
               (m_pages w) (m_catalogReference w) (m_infoReference w))).
  { rewrite (writeReservedObject_fulfil _ _ w (mkEntry (-1) 0 true)); try done.
    - unfold allocated. cbn [objectNumber]. by rewrite Nat2Z.id.
    - unfold allocated. cbn [objectNumber]. lia.
    - unfold allocated. cbn [objectNumber]. rewrite Nat2Z.id.
      apply Hslots. simpl. lia. }
  cbn [snd]. rewrite Hcall. cbn [prod_map fst snd id].
  set (w1 := mkWriter _ _ _ _ _ _ _).
  destruct (IH (S i) (S j0) w1) as [Hpass Houtcomes].
  - reflexivity.
  - intros j slot Hlook. replace (S j0 + j) with (j0 + S j) by lia.
    by apply (Hmap (S j)).
  - intros j Hj. unfold w1. cbn [m_objectOffsets].
    rewrite list_lookup_insert_ne by lia.
    replace (S j0 + j) with (j0 + S j) by lia. apply Hslots. simpl. lia.
  - assert (Hcalls : imap
        ((fun j (slot : nat * StorageEntry) =>
            CallWriteReservedObject (allocated K (j0 + j))
              (replaceReferences (slot_object slot.2) M)) ∘ S) (liveSlots (S i) rest)
      = imap (fun j slot =>
            CallWriteReservedObject (allocated K (S j0 + j))
              (replaceReferences (slot_object slot.2) M)) (liveSlots (S i) rest)).
    { apply imap_ext. intros j s _. simpl. do 3 f_equal. lia. }
    rewrite Hcalls. cbv zeta in Hpass, Houtcomes. rewrite Hpass, Houtcomes.
    by split.
Qed.

(** The page loop: [addPage] for every page whose reference is mapped. *)
Lemma pagesPass_spec (M : ReferenceMapping) (pages : list (option PDFObjectReference)) :
  forall (w : PDFStreamingDocumentWriter) (totalPages : nat),
  pagesPass pages M w totalPages
  = (snd (performAll (pageCalls (mappedPages M pages)) w),
     totalPages + length (mappedPages M pages))
  /\ fst (performAll (pageCalls (mappedPages M pages)) w)
     = map (fun _ => ReturnedNothing) (mappedPages M pages).
Proof.
  induction pages as [|page rest IH]; intros w totalPages.
  - simpl. split; [| done]. f_equal. lia.
  - cbn [pagesPass]. unfold mappedPages, pageCalls in *. cbn [omap list_omap].
    destruct page as [oldPageRef|]; cbn [mappedPage]; [| apply IH].
    destruct (M !! oldPageRef) as [newPageRef|]; [| apply IH].
    cbn [map]. rewrite performAll_cons. cbn [perform fst snd].
    destruct (IH (addPage newPageRef w) (S totalPages)) as [-> ->].
    split; [| done]. f_equal. simpl. lia.
Qed.

End EmitFacts.

(** C2. [addDocument] on a merger whose writer is open: the transplanted
    slots are the non-null source slots from 1 on, in ascending order; the
    reserve pass calls [reserveObject(0)] once per such slot and maps the
    slot's source reference to the reference it got, so a null slot has no
    mapping entry; the emit pass then writes, in the same order, each
    object with its references rewritten through the mapping, by a
    [writeReservedObject] on the slot's allocated reference, which has
    generation 0 whatever the source generation, and every such call
    succeeds; finally [addPage] is called, in page order, for each source
    page whose reference is in the mapping. *)
Theorem addDocument_passes `{Environment} (m : PDFStreamingMerger)
    (w : PDFStreamingDocumentWriter) (document : PDFDocument) (documentIndex : Z)
    (namespaceFields : bool) :
  m_writer m = Some w ->
  isOpen w = true ->
  let K := getObjectCount w in
  let live := transplanted document in
  let M := mappingOf K live in
  let pages := mappedPages M (doc_pages document) in
  let calls := reserveCalls live ++ emitCalls K M live ++ pageCalls pages in
  (forall n entry,
     (n, entry) ∈ live <->
     1 <= n /\ doc_objects document !! n = Some entry
     /\ isNull (slot_object entry) = false)
  /\ (forall j1 j2 s1 s2,
        j1 < j2 -> live !! j1 = Some s1 -> live !! j2 = Some s2 -> fst s1 < fst s2)
  /\ (forall j slot, live !! j = Some slot ->
        M !! oldReference slot = Some (allocated K j)
        /\ generation (allocated K j) = 0%Z)
  /\ (forall old, is_Some (M !! old) ->
        exists slot, slot ∈ live /\ old = oldReference slot)
  /\ fst (performAll calls w)
     = imap (fun j _ => ReturnedReference (allocated K j)) live
         ++ map (fun _ => ReturnedBool true) live
         ++ map (fun _ => ReturnedNothing) pages
  /\ addDocument document documentIndex namespaceFields m
     = (true,
        mkMerger (Some (snd (performAll calls w)))
          (m_totalPages m + length pages) (S (m_totalDocuments m))).
Proof.
  intros Hwriter Hopen K live M pages calls.
  unfold isOpen in Hopen.
  split; [| split; [| split; [| split]]].
  - intros n entry. unfold live, transplanted. rewrite liveSlots_elem, lookup_drop.
    split; intros (Hn & Hlook & Hnull); (split; [done |]); (split; [| done]).
    + by replace (1 + (n - 1)) with n in Hlook by lia.
    + by replace (1 + (n - 1)) with n by lia.
  - apply liveSlots_ascending.
  - intros j slot Hlook. split; [by apply mappingOf_lookup | done].
  - apply mappingOf_keys.
  - (* the three passes *)
    destruct (reservePass_spec (drop 1 (doc_objects document)) 1 ∅ w)
      as [Hreserve Hreserved].
    fold (transplanted document) in Hreserve, Hreserved. fold live in Hreserve, Hreserved.
    fold (getObjectCount w) in Hreserve, Hreserved. fold K in Hreserve, Hreserved.
    assert (HM : foldl (fun M p => <[p.1 := p.2]> M) (∅ : ReferenceMapping)
                   (mappingPairs K live) = M).
    { apply map_eq. intros key. rewrite foldl_insert_lookup.
      - unfold M, mappingOf. destruct (list_to_map _ !! key); [done | apply lookup_empty].
      - rewrite mappingPairs_keys. apply liveSlots_NoDup. }
    rewrite HM in Hreserve.
    set (w1 := mkWriter (m_device w) (m_version w) (m_isOpen w)
                 (m_objectOffsets w ++ map (fun _ => mkEntry (-1) 0 true) live)
                 (m_pages w) (m_catalogReference w) (m_infoReference w)) in *.
    rewrite Hreserve in Hreserved. cbn [snd] in Hreserved.
    destruct (emitPass_spec K M (drop 1 (doc_objects document)) 1 0 w1)
      as [Hemit Hemitted].
    { done. }
    { intros j slot Hlook. by apply mappingOf_lookup. }
    { intros j Hj. unfold w1. cbn [m_objectOffsets].
      rewrite lookup_app_r by (unfold K, getObjectCount; lia).
      replace (K + (0 + j) - length (m_objectOffsets w)) with j
        by (unfold K, getObjectCount; lia).
      rewrite list_lookup_fmap.
      destruct (lookup_lt_is_Some_2 live j Hj) as [slot ->]. done. }
    cbv zeta in Hemit, Hemitted.
    fold (transplanted document) in Hemit, Hemitted. fold live in Hemit, Hemitted.
    change (imap _ live) with (emitCalls K M live) in Hemit, Hemitted.
    destruct (pagesPass_spec M (doc_pages document)
                (snd (performAll (emitCalls K M live) w1)) (m_totalPages m))
      as [Hpages Hpaged].
    fold pages in Hpages, Hpaged.
    assert (Hsnd : snd (performAll calls w)
                   = snd (performAll (pageCalls pages)
                            (snd (performAll (emitCalls K M live) w1)))).
    { unfold calls. rewrite !performAll_app. cbn [snd]. by rewrite Hreserved. }
    split.
    + unfold calls. rewrite !performAll_app. cbn [fst snd].
      rewrite Hreserved. cbn [fst snd]. by rewrite Hemitted, Hpaged.
    + unfold addDocument. rewrite Hwriter. unfold isOpen. rewrite Hopen. cbn [negb].
      rewrite Hreserve, Hemit, Hpages, Hsnd. reflexivity.
Qed.

Lemma addDocument_passes_witness :
  m_writer sampleMerger = Some sampleWriter
  /\ isOpen sampleWriter = true
  /\ fst (addDocument (H := sampleEnvironment) sampleDocument 0 false sampleMerger) = true.
Proof.
  split; [reflexivity |]. split; [reflexivity |].
  pose proof (addDocument_passes (H := sampleEnvironment) sampleMerger sampleWriter
                sampleDocument 0 false eq_refl eq_refl)
    as (_ & _ & _ & _ & _ & Hadd).
  exact (f_equal fst Hadd).
Defined.

Example addDocument_sample :
  transplanted sampleDocument
  = [ (1, mkStorageEntry 2 (Array [Reference (mkRef 3 0); Int 7]));
      (3, mkStorageEntry 0 (String (latin1 "page"))) ]
  /\ emitCalls 1 (mappingOf 1 (transplanted sampleDocument)) (transplanted sampleDocument)
     = [ CallWriteReservedObject (mkRef 1 0) (Array [Reference (mkRef 2 0); Int 7]);
         CallWriteReservedObject (mkRef 2 0) (String (latin1 "page")) ]
  /\ mappedPages (mappingOf 1 (transplanted sampleDocument)) (doc_pages sampleDocument)
     = [ mkRef 2 0; mkRef 1 0 ].
Proof. repeat split; vm_compute; reflexivity. Qed.

(** * Further properties *)

(** ** The serializer, as a function to bytes *)

Section SerializerFacts.
Context `{Environment}.

Lemma fold_accept_write (items : list PDFObject) : forall d,
  fold_left (fun d item => accept item d) items d
  = write (concat (map serialize items)) d.
Proof.
  induction items as [|item items IH]; intros d; simpl.
  - by rewrite write_nil.
  - by rewrite IH, accept_write, write_write.
Qed.

Lemma visitNameChar_write (c : ascii) (d : QIODevice) :
  visitNameChar d c = write (escapedByte c) d.
Proof.
  unfold escapedByte, emitted, visitNameChar.
  destruct (isRegular c); [done |]. by rewrite !write_write.
Qed.

Lemma escapedByte_eq (c : ascii) :
  escapedByte c = if isRegular c then [c] else "#"%char :: toHex [c].
Proof. unfold escapedByte, emitted, visitNameChar. by destruct (isRegular c). Qed.

Lemma fold_visitNameChar_write (name : QByteArray) : forall d,
  fold_left visitNameChar name d = write (flat_map escapedByte name) d.
Proof.
  induction name as [|c name IH]; intros d; simpl.
  - by rewrite write_nil.
  - by rewrite IH, visitNameChar_write, write_write.
Qed.

Lemma visitName_write (name : QByteArray) (d : QIODevice) :
  visitName name d = write (serializeName name) d.
Proof.
  destruct (visitName_emits name) as [X HX].
  unfold serializeName. by rewrite (Emits_emitted _ _ HX).
Qed.

Lemma serializeName_eq (name : QByteArray) :
  serializeName name = "/"%char :: flat_map escapedByte name ++ latin1 " ".
Proof.
  unfold serializeName. apply Emits_emitted. intros d. unfold visitName.
  by rewrite fold_visitNameChar_write, !write_write.
Qed.

Lemma fold_entries_write (entries : list (QByteArray * PDFObject)) : forall d,
  fold_left (fun d kv => accept (snd kv) (visitName (fst kv) d)) entries d
  = write (concat (map (fun kv => serializeName (fst kv) ++ serialize (snd kv)) entries)) d.
Proof.
  induction entries as [|kv entries IH]; intros d; simpl.
  - by rewrite write_nil.
  - rewrite IH, accept_write, visitName_write, !write_write. f_equal.
    by rewrite <- ?app_assoc.
Qed.

Lemma serialize_Dictionary (entries : list (QByteArray * PDFObject)) :
  serialize (Dictionary entries)
  = latin1 "<< "
      ++ concat (map (fun kv => serializeName (fst kv) ++ serialize (snd kv)) entries)
      ++ latin1 ">> ".
Proof.
  unfold serialize. apply Emits_emitted. intros d. cbn [accept].
  by rewrite fold_entries_write, !write_write.
Qed.

End SerializerFacts.

(** X1. The bytes of a container are its brackets around the bytes of its
    members, in order: an array is [[ ] members [] ], a dictionary is
    [<< ] then name and value of each entry in insertion order then [>> ],
    a stream is its dictionary, the [stream] line, the payload verbatim
    whatever the dictionary says about its length, and the [endstream]
    line; a reference is number, generation and [R], each followed by a
    space. *)
Theorem serialize_containers `{Environment} (items : list PDFObject)
    (entries : list (QByteArray * PDFObject)) (content : QByteArray)
    (reference : PDFObjectReference) :
  serialize (Array items) = latin1 "[ " ++ concat (map serialize items) ++ latin1 "] "
  /\ serialize (Dictionary entries)
     = latin1 "<< "
         ++ concat (map (fun kv => serializeName (fst kv) ++ serialize (snd kv)) entries)
         ++ latin1 ">> "
  /\ serialize (Stream entries content)
     = serialize (Dictionary entries) ++ latin1 "stream" ++ CRLF
         ++ content ++ CRLF ++ latin1 "endstream" ++ CRLF
  /\ serialize (Reference reference)
     = QString_number (objectNumber reference) ++ latin1 " "
         ++ QString_number (generation reference) ++ latin1 " " ++ latin1 "R ".
Proof.
  split; [| split; [apply serialize_Dictionary | split]].
  - unfold serialize. apply Emits_emitted. intros d. cbn [accept].
    by rewrite fold_accept_write, !write_write.
  - rewrite serialize_Dictionary. unfold serialize. apply Emits_emitted.
    intros d. cbn [accept].
    rewrite fold_entries_write, !write_write. f_equal.
    by rewrite <- ?app_assoc.
  - unfold serialize. apply Emits_emitted. intros d. cbn [accept].
    unfold visitReference. rewrite !visitInt_emits, !write_write. f_equal.
    by rewrite <- ?app_assoc.
Qed.

(** ** Hexadecimal digits *)

Lemma hexDigit_code (n : N) :
  (n < 16)%N ->
  N_of_ascii (hexDigit n) = if (n <? 10)%N then (48 + n)%N else (87 + n)%N.
Proof.
  intros Hn. unfold hexDigit.
  destruct (n <? 10)%N eqn:Hlt; apply N_ascii_embedding.
  - apply N.ltb_lt in Hlt. lia.
  - lia.
Qed.

Lemma hexDigit_inj (n m : N) :
  (n < 16)%N -> (m < 16)%N -> hexDigit n = hexDigit m -> n = m.
Proof.
  intros Hn Hm Heq. apply (f_equal N_of_ascii) in Heq.
  rewrite !hexDigit_code in Heq by done.
  destruct (n <? 10)%N eqn:H1; destruct (m <? 10)%N eqn:H2;
    rewrite ?N.ltb_lt, ?N.ltb_ge in *; lia.
Qed.

Lemma hexDigit_isHexDigit (n : N) : (n < 16)%N -> isHexDigit (hexDigit n).
Proof.
  intros Hn. unfold isHexDigit.
  destruct n as [|p]; [vm_compute; tauto |].
  do 4 (try destruct p as [p|p|]); try lia; vm_compute; tauto.
Qed.

Lemma nibbles_bounded (c : ascii) :
  (N_of_ascii c / 16 < 16)%N /\ (N_of_ascii c mod 16 < 16)%N.
Proof.
  pose proof (N_ascii_bounded c) as Hc. split.
  - apply N.Div0.div_lt_upper_bound. lia.
  - apply N.mod_lt. lia.
Qed.

Lemma nibbles_inj (c1 c2 : ascii) :
  hexDigit (N_of_ascii c1 / 16) = hexDigit (N_of_ascii c2 / 16) ->
  hexDigit (N_of_ascii c1 mod 16) = hexDigit (N_of_ascii c2 mod 16) ->
  c1 = c2.
Proof.
  intros Hhigh Hlow.
  destruct (nibbles_bounded c1) as [Hh1 Hl1]. destruct (nibbles_bounded c2) as [Hh2 Hl2].
  apply hexDigit_inj in Hhigh; [| done | done].
  apply hexDigit_inj in Hlow; [| done | done].
  rewrite <- (ascii_N_embedding c1), <- (ascii_N_embedding c2). f_equal.
  rewrite (N.div_mod (N_of_ascii c1) 16), (N.div_mod (N_of_ascii c2) 16) by lia.
  by rewrite Hhigh, Hlow.
Qed.

Lemma toHex_cons (c : ascii) (data : QByteArray) :
  toHex (c :: data)
  = hexDigit (N_of_ascii c / 16) :: hexDigit (N_of_ascii c mod 16) :: toHex data.
Proof. reflexivity. Qed.

Lemma toHex_length (data : QByteArray) : length (toHex data) = 2 * length data.
Proof.
  induction data as [|c data IH]; [done |].
  rewrite toHex_cons. simpl. lia.
Qed.

Lemma toHex_digits (data : QByteArray) : Forall isHexDigit (toHex data).
Proof.
  induction data as [|c data IH]; [constructor |].
  rewrite toHex_cons. destruct (nibbles_bounded c) as [Hhigh Hlow].
  apply Forall_cons. split; [by apply hexDigit_isHexDigit |].
  apply Forall_cons. split; [by apply hexDigit_isHexDigit | done].
Qed.

Lemma toHex_inj (a : QByteArray) : forall b, toHex a = toHex b -> a = b.
Proof.
  induction a as [|c a IH]; intros [|c' b] Heq; try done.
  rewrite !toHex_cons in Heq. injection Heq as Hhigh Hlow Hrest.
  f_equal; [by apply nibbles_inj | by apply IH].
Qed.

(** ** String tokens *)

Section StringFacts.
Context `{Environment}.

Lemma serialize_String (data : QByteArray) :
  serialize (String data)
  = if negb (indexOf "(" data =? -1)%Z || negb (indexOf ")" data =? -1)%Z
       || negb (indexOf "\" data =? -1)%Z
    then latin1 "<" ++ toHex data ++ latin1 "> "
    else latin1 "(" ++ data ++ latin1 ") ".
Proof. exact (Emits_emitted _ _ (visitString_emits data)). Qed.

End StringFacts.

(** X2. A string token is self-delimiting: it is an opening byte, a body,
    the closing byte and a space, and the closing byte does not occur in
    the body. The body of the hexadecimal form is two lowercase digits per
    payload byte; the body of the literal form is the payload itself,
    byte for byte, and contains no parenthesis and no backslash. *)
Theorem string_token_delimited `{Environment} (data : QByteArray) :
  (serialize (String data) = "<"%char :: toHex data ++ [">"%char; " "%char]
   /\ ~ In ">"%char (toHex data)
   /\ Forall isHexDigit (toHex data)
   /\ length (toHex data) = 2 * length data)
  \/
  (serialize (String data) = "("%char :: data ++ [")"%char; " "%char]
   /\ ~ In "("%char data /\ ~ In ")"%char data /\ ~ In "\"%char data).
Proof.
  rewrite serialize_String.
  destruct (negb (indexOf "(" data =? -1)%Z || negb (indexOf ")" data =? -1)%Z
            || negb (indexOf "\" data =? -1)%Z) eqn:Htest.
  - left. split; [reflexivity |]. split; [| split; [apply toHex_digits | apply toHex_length]].
    intros Hin. pose proof (toHex_digits data) as Hall.
    rewrite Forall_forall in Hall. apply list_elem_of_In in Hin.
    specialize (Hall _ Hin).
    unfold isHexDigit in Hall. vm_compute in Hall.
    repeat (destruct Hall as [Hall | Hall]; [discriminate Hall |]). done.
  - right. split; [reflexivity |].
    apply orb_false_iff in Htest as [Htest H3].
    apply orb_false_iff in Htest as [H1 H2].
    repeat split; intros Hin; apply indexOf_test in Hin; congruence.
Qed.

(** X3. Different payloads are never written as the same string token. *)
Theorem string_token_injective `{Environment} (a b : QByteArray) :
  serialize (String a) = serialize (String b) -> a = b.
Proof.
  rewrite !serialize_String.
  destruct (negb (indexOf "(" a =? -1)%Z || negb (indexOf ")" a =? -1)%Z
            || negb (indexOf "\" a =? -1)%Z);
    destruct (negb (indexOf "(" b =? -1)%Z || negb (indexOf ")" b =? -1)%Z
              || negb (indexOf "\" b =? -1)%Z);
    intros Heq; try discriminate Heq.
  - injection Heq as Heq. apply app_inv_tail in Heq. by apply toHex_inj.
  - injection Heq as Heq. by apply app_inv_tail in Heq.
Qed.

Lemma string_token_injective_witness :
  serialize (H := sampleEnvironment) (String (latin1 "a(b)c"))
  = serialize (H := sampleEnvironment) (String (latin1 "a(b)c"))
  /\ latin1 "a(b)c" = latin1 "a(b)c".
Proof.
  split; [reflexivity |].
  exact (string_token_injective (H := sampleEnvironment) (latin1 "a(b)c") (latin1 "a(b)c")
           eq_refl).
Defined.

(** ** Name tokens *)

Section NameFacts.
Context `{Environment}.

Lemma escapedByte_inj (a : QByteArray) : forall b,
  isRegular "#" = false ->
  flat_map escapedByte a = flat_map escapedByte b -> a = b.
Proof.
  induction a as [|c a IH]; intros [|c' b] Hhash Heq; try done.
  - simpl in Heq. rewrite escapedByte_eq in Heq. by destruct (isRegular c').
  - simpl in Heq. rewrite escapedByte_eq in Heq. by destruct (isRegular c).
  - simpl in Heq. rewrite !escapedByte_eq in Heq.
    destruct (isRegular c) eqn:Hc; destruct (isRegular c') eqn:Hc'.
    + injection Heq as -> Heq. f_equal. by apply IH.
    + injection Heq as -> _. congruence.
    + injection Heq as <- _. congruence.
    + rewrite !toHex_cons in Heq. injection Heq as Hhigh Hlow Heq.
      f_equal; [by apply nibbles_inj | by apply IH].
Qed.

End NameFacts.

(** X4. When [isRegular] rejects the byte [#], different names are never
    written as the same name token: every byte is either written as
    itself, and is then not [#], or as [#] and its two hexadecimal
    digits. *)
Theorem name_token_injective `{Environment} (a b : QByteArray) :
  isRegular "#" = false ->
  serializeName a = serializeName b -> a = b.
Proof.
  intros Hhash Heq. rewrite !serializeName_eq in Heq.
  injection Heq as Heq. apply app_inv_tail in Heq.
  by apply escapedByte_inj.
Qed.

Lemma name_token_injective_witness :
  isRegular (Environment := sampleEnvironment) "#" = false
  /\ latin1 "A B#" = latin1 "A B#".
Proof.
  split; [reflexivity |].
  exact (name_token_injective (H := sampleEnvironment) (latin1 "A B#") (latin1 "A B#")
           eq_refl eq_refl).
Defined.

(** X5. When [isRegular] accepts [#] and the hexadecimal digits, escaping
    is ambiguous: a name made of one byte that is not regular is written
    exactly as the three-byte name that spells its escape. *)
Theorem name_token_collision `{Environment} (c : ascii) :
  isRegular "#" = true ->
  (forall h, isHexDigit h -> isRegular h = true) ->
  isRegular c = false ->
  serializeName [c] = serializeName ("#"%char :: toHex [c])
  /\ [c] <> "#"%char :: toHex [c].
Proof.
  intros Hhash Hdigits Hc. split; [| done].
  rewrite !serializeName_eq. f_equal. f_equal.
  pose proof (toHex_digits [c]) as Hall. rewrite toHex_cons in *.
  apply Forall_cons in Hall as [Hhigh Hall]. apply Forall_cons in Hall as [Hlow _].
  cbn [flat_map]. rewrite !escapedByte_eq, Hc, Hhash, (Hdigits _ Hhigh), (Hdigits _ Hlow).
  by rewrite toHex_cons.
Qed.

Lemma name_token_collision_witness :
  isRegular (Environment := standardEnvironment) "#" = true
  /\ isRegular (Environment := standardEnvironment) " " = false
  /\ serializeName (H := standardEnvironment) (latin1 " ")
     = serializeName (H := standardEnvironment) (latin1 "#20").
Proof.
  split; [reflexivity |]. split; [reflexivity |].
  assert (Hdigits : forall h, isHexDigit h ->
            isRegular (Environment := standardEnvironment) h = true).
  { intros h Hh. unfold isHexDigit in Hh. vm_compute in Hh.
    repeat (destruct Hh as [<- | Hh]; [reflexivity |]). done. }
  exact (proj1 (name_token_collision (H := standardEnvironment) " " eq_refl Hdigits eq_refl)).
Defined.

(** ** How one call changes the writer *)

Section StepFacts.
Context `{Environment}.

Lemma writeObject_writes object generation (w : PDFStreamingDocumentWriter) :
  exists X, m_device (snd (writeObject object generation w)) = write X (m_device w).
Proof.
  destruct (m_isOpen w) eqn:Hopen.
  - rewrite writeObject_open by done. by eexists.
  - rewrite writeObject_closed by done. exists []. by rewrite write_nil.
Qed.

Lemma writeReservedObject_writes reference object (w : PDFStreamingDocumentWriter) :
  exists X, m_device (snd (writeReservedObject reference object w)) = write X (m_device w).
Proof.
  destruct (m_isOpen w) eqn:Hopen;
    [| rewrite writeReservedObject_refuse;
       [exists []; by rewrite write_nil | intros [? _]; congruence]].
  destruct (classic_fulfillable w reference) as [Hf | Hf];
    [| rewrite writeReservedObject_refuse; [exists []; by rewrite write_nil | tauto]].
  destruct Hf as (Hnn & entry & Hlook & Hres & Hoff).
  rewrite (writeReservedObject_fulfil reference object w entry) by done. by eexists.
Qed.

(** The catalog block of [endDocument], in one step, on an open writer. *)
Lemma ensureCatalog_eq (w : PDFStreamingDocumentWriter) :
  m_isOpen w = true ->
  ensureCatalog w =
    if isValid (m_catalogReference w) then w
    else
      let K := length (m_objectOffsets w) in
      let pageTree := indirectObject (mkRef (Z.of_nat K) 0) (pageTreeObject (m_pages w)) in
      let catalog :=
        indirectObject (mkRef (Z.of_nat (S K)) 0) (catalogObject (mkRef (Z.of_nat K) 0)) in
      mkWriter (write (pageTree ++ catalog) (m_device w)) (m_version w) true
        (m_objectOffsets w
           ++ [ mkEntry (pos (m_device w)) 0 false;
                mkEntry (pos (write pageTree (m_device w))) 0 false ])
        (m_pages w) (mkRef (Z.of_nat (S K)) 0) (m_infoReference w).
Proof.
  intros Hopen. unfold ensureCatalog.
  destruct (isValid (m_catalogReference w)); [done |]. cbn [negb].
  unfold createPageTree. rewrite writeObject_open by done.
  unfold createCatalog. rewrite writeObject_open by done.
  cbn [m_device m_version m_isOpen m_objectOffsets m_pages m_catalogReference
       m_infoReference setCatalogReference].
  cbv zeta.
  assert (Hlen : forall entry : ObjectEntry,
            length (m_objectOffsets w ++ [entry]) = S (length (m_objectOffsets w))).
  { intros entry. rewrite length_app. simpl. lia. }
  rewrite !Hlen. unfold setCatalogReference.
  cbn [m_device m_version m_isOpen m_objectOffsets m_pages m_catalogReference
       m_infoReference].
  by rewrite write_write, <- app_assoc.
Qed.

Lemma ensureCatalog_writes (w : PDFStreamingDocumentWriter) :
  m_isOpen w = true ->
  exists X, m_device (ensureCatalog w) = write X (m_device w).
Proof.
  intros Hopen. rewrite ensureCatalog_eq by done.
  destruct (isValid (m_catalogReference w)).
  - exists []. by rewrite write_nil.
  - by eexists.
Qed.

Lemma endDocument_writes (w : PDFStreamingDocumentWriter) :
  exists X, m_device (snd (endDocument w)) = write X (m_device w).
Proof.
  destruct (m_isOpen w) eqn:Hopen;
    [| rewrite endDocument_closed by done; exists []; by rewrite write_nil].
  destruct (findUnwritten 1 (drop 1 (m_objectOffsets w))) as [N|] eqn:Hfind;
    [rewrite (endDocument_pending w N) by done; exists []; by rewrite write_nil |].
  rewrite endDocument_success by done. cbn [snd m_device].
  destruct (ensureCatalog_writes w Hopen) as [Y ->].
  eexists. by rewrite write_write.
Qed.

Lemma perform_writes (c : Call) (w : PDFStreamingDocumentWriter) :
  exists X, m_device (snd (perform c w)) = write X (m_device w).
Proof.
  destruct c; cbn [perform prod_map snd fst id];
    try (exists []; by rewrite write_nil).
  - rewrite beginDocument_eq. destruct (negb (isWritable (m_device w))).
    + exists []. by rewrite write_nil.
    + by eexists.
  - apply writeObject_writes.
  - apply writeReservedObject_writes.
  - apply writeObject_writes.
  - apply writeObject_writes.
  - apply endDocument_writes.
Qed.

Lemma performAll_writes (calls : list Call) : forall w : PDFStreamingDocumentWriter,
  exists X, m_device (snd (performAll calls w)) = write X (m_device w).
Proof.
  induction calls as [|c calls IH]; intros w.
  - exists []. by rewrite write_nil.
  - rewrite performAll_cons. cbn [snd].
    destruct (IH (snd (perform c w))) as [Y ->].
    destruct (perform_writes c w) as [X ->].
    exists (X ++ Y). by rewrite write_write.
Qed.

End StepFacts.

(** X7. Reserving a slot and fulfilling it at once is the same as writing
    the object directly: [reserveObject] followed by [writeReservedObject]
    on the reference it returned succeeds and leaves an open writer in
    exactly the state [writeObject] leaves it in, with the same reference
    returned. *)
Theorem reserve_then_fulfil_is_writeObject `{Environment}
    (w : PDFStreamingDocumentWriter) (object : PDFObject) (generation : Z) :
  m_isOpen w = true ->
  fst (reserveObject generation w) = fst (writeObject object generation w)
  /\ writeReservedObject (fst (reserveObject generation w)) object
       (snd (reserveObject generation w))
     = (true, snd (writeObject object generation w)).
Proof.
  intros Hopen. rewrite reserveObject_eq, writeObject_open by done. cbn [fst snd].
  split; [reflexivity |].
  rewrite (writeReservedObject_fulfil _ _ _ (mkEntry (-1) generation true)); try done.
  - cbn [m_device m_version m_isOpen m_objectOffsets m_pages m_catalogReference
         m_infoReference objectNumber entry_generation].
    rewrite Nat2Z.id, insert_app_r_alt, Nat.sub_diag by lia. reflexivity.
  - cbn [objectNumber]. lia.
  - cbn [objectNumber m_objectOffsets]. rewrite Nat2Z.id, lookup_app_r by lia.
    by rewrite Nat.sub_diag.
Qed.

Lemma reserve_then_fulfil_is_writeObject_witness :
  m_isOpen sampleWriter = true
  /\ writeReservedObject (H := sampleEnvironment) (fst (reserveObject 3 sampleWriter))
       (Int 5) (snd (reserveObject 3 sampleWriter))
     = (true, snd (writeObject (H := sampleEnvironment) (Int 5) 3 sampleWriter)).
Proof.
  split; [reflexivity |].
  exact (proj2 (reserve_then_fulfil_is_writeObject (H := sampleEnvironment)
                  sampleWriter (Int 5) 3 eq_refl)).
Defined.

(** ** The offset table under calls *)

Section TableFacts.
Context `{Environment}.

Lemma writeObject_table object generation (w : PDFStreamingDocumentWriter) :
  exists extra,
    m_objectOffsets (snd (writeObject object generation w)) = m_objectOffsets w ++ extra.
Proof.
  destruct (m_isOpen w) eqn:Hopen.
  - rewrite writeObject_open by done. by eexists.
  - rewrite writeObject_closed by done. exists []. by rewrite app_nil_r.
Qed.

Lemma endDocument_table (w : PDFStreamingDocumentWriter) :
  exists extra, m_objectOffsets (snd (endDocument w)) = m_objectOffsets w ++ extra.
Proof.
  destruct (m_isOpen w) eqn:Hopen;
    [| rewrite endDocument_closed by done; exists []; by rewrite app_nil_r].
  destruct (findUnwritten 1 (drop 1 (m_objectOffsets w))) as [N|] eqn:Hfind;
    [rewrite (endDocument_pending w N) by done; exists []; by rewrite app_nil_r |].
  rewrite endDocument_success by done. cbn [snd m_objectOffsets].
  rewrite ensureCatalog_eq by done.
  destruct (isValid (m_catalogReference w)).
  - exists []. by rewrite app_nil_r.
  - by eexists.
Qed.

Lemma perform_table (c : Call) (w : PDFStreamingDocumentWriter) N e :
  m_objectOffsets w !! N = Some e ->
  exists e', m_objectOffsets (snd (perform c w)) !! N = Some e'
             /\ KeptOrFulfilled w e e'.
Proof.
  intros Hlook.
  assert (Hkeep : forall w' : PDFStreamingDocumentWriter,
            (exists extra, m_objectOffsets w' = m_objectOffsets w ++ extra) ->
            exists e', m_objectOffsets w' !! N = Some e' /\ KeptOrFulfilled w e e').
  { intros w' [extra ->]. exists e. split; [| by left].
    rewrite lookup_app_l; [done | by eapply lookup_lt_Some]. }
  assert (Hsame : exists extra, m_objectOffsets w = m_objectOffsets w ++ extra)
    by (exists []; by rewrite app_nil_r).
  destruct c; cbn [perform prod_map snd fst id].
  - apply Hkeep. rewrite beginDocument_eq.
    destruct (negb (isWritable (m_device w))); cbn [snd m_objectOffsets]; exact Hsame.
  - apply Hkeep, writeObject_table.
  - apply Hkeep. rewrite reserveObject_eq. by eexists.
  - destruct (m_isOpen w) eqn:Hopen;
      [| rewrite writeReservedObject_refuse;
         [apply Hkeep; exact Hsame | intros [? _]; congruence]].
    destruct (classic_fulfillable w reference) as [Hf | Hf];
      [| rewrite writeReservedObject_refuse; [apply Hkeep; exact Hsame | tauto]].
    destruct Hf as (Hnn & entry & Hentry & Hres & Hoff).
    rewrite (writeReservedObject_fulfil reference object w entry) by done.
    cbn [prod_map snd fst id m_objectOffsets].
    destruct (decide (N = Z.to_nat (objectNumber reference))) as [-> | Hne].
    + rewrite list_lookup_insert_eq by (by eapply lookup_lt_Some).
      eexists. split; [done |]. right.
      assert (entry = e) as -> by congruence. done.
    + rewrite list_lookup_insert_ne by done. exists e. split; [done | by left].
  - apply Hkeep. exact Hsame.
  - apply Hkeep. exact Hsame.
  - apply Hkeep. exact Hsame.
  - apply Hkeep, writeObject_table.
  - apply Hkeep, writeObject_table.
  - apply Hkeep, endDocument_table.
Qed.

Lemma KeptOrFulfilled_generation w e e' :
  KeptOrFulfilled w e e' -> entry_generation e' = entry_generation e.
Proof. by intros [-> | (_ & _ & ->)]. Qed.

Lemma KeptOrFulfilled_settled w e e' :
  ~ (entry_isReserved e = true /\ entry_offset e = (-1)%Z) ->
  KeptOrFulfilled w e e' -> e' = e.
Proof. intros Hsettled [-> | (Hres & Hoff & _)]; [done | tauto]. Qed.

Lemma KeptOrFulfilled_still_settled w e e' :
  ~ (entry_isReserved e = true /\ entry_offset e = (-1)%Z) ->
  KeptOrFulfilled w e e' ->
  ~ (entry_isReserved e' = true /\ entry_offset e' = (-1)%Z).
Proof. intros Hsettled Hk. by rewrite (KeptOrFulfilled_settled w e e' Hsettled Hk). Qed.

Lemma performAll_table (calls : list Call) : forall (w : PDFStreamingDocumentWriter) N e,
  m_objectOffsets w !! N = Some e ->
  exists e', m_objectOffsets (snd (performAll calls w)) !! N = Some e'
    /\ entry_generation e' = entry_generation e
    /\ (~ (entry_isReserved e = true /\ entry_offset e = (-1)%Z) -> e' = e).
Proof.
  induction calls as [|c calls IH]; intros w N e Hlook.
  - exists e. by repeat split.
  - rewrite performAll_cons. cbn [snd].
    destruct (perform_table c w N e Hlook) as (e1 & Hlook1 & Hk).
    destruct (IH _ N e1 Hlook1) as (e' & Hlook' & Hgen & Hsettled).
    exists e'. split; [done |]. split.
    + rewrite Hgen. by eapply KeptOrFulfilled_generation.
    + intros Hs. rewrite Hsettled.
      * by eapply KeptOrFulfilled_settled.
      * by eapply KeptOrFulfilled_still_settled.
Qed.

End TableFacts.

(** X8. Table entries are write-once. Whatever calls follow, a slot keeps
    its number and its generation; a slot that is written, or that was
    never reserved, keeps its whole entry, so the only change an entry ever
    sees is the one fulfilment of a reserved slot; and the table never
    shrinks. *)
Theorem entries_are_write_once `{Environment} (calls : list Call)
    (w : PDFStreamingDocumentWriter) (N : nat) (entry : ObjectEntry) :
  m_objectOffsets w !! N = Some entry ->
  exists entry',
    m_objectOffsets (snd (performAll calls w)) !! N = Some entry'
    /\ entry_generation entry' = entry_generation entry
    /\ (~ Unwritten w N -> entry' = entry)
    /\ getObjectCount w <= getObjectCount (snd (performAll calls w)).
Proof.
  intros Hlook.
  destruct (performAll_table calls w N entry Hlook) as (entry' & Hlook' & Hgen & Hsettled).
  exists entry'. split; [done |]. split; [done |]. split.
  - intros Hsettled'. apply Hsettled. intros [Hres Hoff]. apply Hsettled'.
    by exists entry.
  - unfold getObjectCount.
    destruct (decide (length (m_objectOffsets w) = 0)) as [Hempty | Hsome]; [lia |].
    destruct (lookup_lt_is_Some_2 (m_objectOffsets w) (length (m_objectOffsets w) - 1))
      as [e0 He0]; [lia |].
    destruct (performAll_table calls w _ _ He0) as (e1 & Hlook1 & _).
    apply lookup_lt_Some in Hlook1. lia.
Qed.

Lemma entries_are_write_once_witness :
  m_objectOffsets sampleHalfFilled !! 2 = Some (mkEntry 74 0 false)
  /\ exists entry',
       m_objectOffsets (snd (performAll (H := sampleEnvironment)
           [ CallWriteReservedObject (mkRef 2 0) (Int 1); CallWriteObject Null 0 ]
           sampleHalfFilled)) !! 2 = Some entry'
       /\ (~ Unwritten sampleHalfFilled 2 -> entry' = mkEntry 74 0 false).
Proof.
  assert (Hlook : m_objectOffsets sampleHalfFilled !! 2 = Some (mkEntry 74 0 false))
    by (vm_compute; reflexivity).
  split; [exact Hlook |].
  destruct (entries_are_write_once (H := sampleEnvironment)
              [ CallWriteReservedObject (mkRef 2 0) (Int 1); CallWriteObject Null 0 ]
              sampleHalfFilled 2 _ Hlook) as (entry' & Hlook' & _ & Hkeep & _).
  exists entry'. exact (conj Hlook' Hkeep).
Defined.


(** ** Offsets lie inside the file and are distinct *)

Section SoundFacts.
Context `{Environment}.

Lemma indirectObject_nonempty reference object : indirectObject reference object <> [].
Proof.
  unfold indirectObject. rewrite objectHeader_eq. intros Heq.
  apply (f_equal length) in Heq. rewrite !length_app in Heq. simpl in Heq. lia.
Qed.

Lemma pos_write_healthy X d :
  dev_failed d = false -> pos (write X d) = (pos d + Z.of_nat (length X))%Z.
Proof.
  intros Hhealthy. unfold pos. rewrite write_buffer_healthy, length_app by done. lia.
Qed.

(** One step: the device received [X]; every written slot either was there
    before, unchanged, or is the one [fresh] slot, which records the old
    end of the file, and then [X] is not empty. *)
Lemma OffsetsSound_step (w w' : PDFStreamingDocumentWriter) (X : QByteArray)
    (fresh : option nat) :
  dev_failed (m_device w) = false ->
  m_device w' = write X (m_device w) ->
  (forall N entry, m_objectOffsets w' !! N = Some entry ->
     entry_offset entry <> (-1)%Z ->
     m_objectOffsets w !! N = Some entry
     \/ (fresh = Some N /\ entry_offset entry = pos (m_device w) /\ X <> [])) ->
  OffsetsSound w -> OffsetsSound w'.
Proof.
  intros Hhealthy Hdev Hslots [Hinside Hdistinct].
  assert (Hgrow : (pos (m_device w) <= pos (m_device w'))%Z).
  { rewrite Hdev, pos_write_healthy by done. lia. }
  assert (Hfresh : forall N entry, m_objectOffsets w' !! N = Some entry ->
            entry_offset entry <> (-1)%Z ->
            (m_objectOffsets w !! N = Some entry
             /\ (0 <= entry_offset entry < pos (m_device w))%Z)
            \/ (fresh = Some N /\ entry_offset entry = pos (m_device w)
                /\ (pos (m_device w) < pos (m_device w'))%Z)).
  { intros N entry Hlook Hwritten.
    destruct (Hslots N entry Hlook Hwritten) as [Hold | (Hf & Hoff & HX)].
    - left. split; [done |]. by eapply Hinside.
    - right. split; [done |]. split; [done |].
      rewrite Hdev, pos_write_healthy by done.
      destruct X; [done | simpl; lia]. }
  split.
  - intros N entry Hlook Hwritten. pose proof (pos_nonneg (m_device w)).
    destruct (Hfresh N entry Hlook Hwritten) as [[_ Hin] | (_ & Hoff & Hlt)]; lia.
  - intros N1 N2 e1 e2 H1 H2 Hw1 Hw2 Heq.
    destruct (Hfresh N1 e1 H1 Hw1) as [[Hold1 Hin1] | (Hf1 & Hoff1 & _)];
      destruct (Hfresh N2 e2 H2 Hw2) as [[Hold2 Hin2] | (Hf2 & Hoff2 & _)].
    + by eapply Hdistinct.
    + lia.
    + lia.
    + congruence.
Qed.

Lemma OffsetsSound_writeObject (w : PDFStreamingDocumentWriter) object generation :
  dev_failed (m_device w) = false ->
  OffsetsSound w -> OffsetsSound (snd (writeObject object generation w)).
Proof.
  intros Hhealthy Hsound.
  destruct (m_isOpen w) eqn:Hopen; [| by rewrite writeObject_closed].
  rewrite writeObject_open by done. cbn [snd].
  eapply (OffsetsSound_step w _ _ (Some (length (m_objectOffsets w))));
    [done | reflexivity | | done].
  cbn [m_objectOffsets]. intros N entry Hlook Hwritten.
  destruct (decide (N < length (m_objectOffsets w))) as [Hlt | Hge].
  - left. by rewrite lookup_app_l in Hlook.
  - right. rewrite lookup_app_r in Hlook by lia.
    destruct (N - length (m_objectOffsets w)) as [|k] eqn:Hk; [| by destruct k].
    injection Hlook as <-. cbn [entry_offset].
    split; [f_equal; lia |]. split; [done | apply indirectObject_nonempty].
Qed.

Lemma OffsetsSound_reserveObject (w : PDFStreamingDocumentWriter) generation :
  dev_failed (m_device w) = false ->
  OffsetsSound w -> OffsetsSound (snd (reserveObject generation w)).
Proof.
  intros Hhealthy Hsound. rewrite reserveObject_eq. cbn [snd].
  eapply (OffsetsSound_step w _ [] None); [done | by rewrite write_nil | | done].
  cbn [m_objectOffsets]. intros N entry Hlook Hwritten. left.
  destruct (decide (N < length (m_objectOffsets w))) as [Hlt | Hge].
  - by rewrite lookup_app_l in Hlook.
  - rewrite lookup_app_r in Hlook by lia.
    destruct (N - length (m_objectOffsets w)) as [|k]; [| by destruct k].
    injection Hlook as <-. done.
Qed.

Lemma OffsetsSound_writeReservedObject (w : PDFStreamingDocumentWriter) reference object :
  dev_failed (m_device w) = false ->
  OffsetsSound w -> OffsetsSound (snd (writeReservedObject reference object w)).
Proof.
  intros Hhealthy Hsound.
  destruct (m_isOpen w) eqn:Hopen;
    [| rewrite writeReservedObject_refuse; [done | intros [? _]; congruence]].
  destruct (classic_fulfillable w reference) as [Hf | Hf];
    [| rewrite writeReservedObject_refuse; [done | tauto]].
  destruct Hf as (Hnn & entry & Hlook & Hres & Hoff).
  rewrite (writeReservedObject_fulfil reference object w entry) by done. cbn [snd].
  eapply (OffsetsSound_step w _ _ (Some (Z.to_nat (objectNumber reference))));
    [done | reflexivity | | done].
  cbn [m_objectOffsets]. intros N e HlookN Hwritten.
  destruct (decide (N = Z.to_nat (objectNumber reference))) as [-> | Hne].
  - right. rewrite list_lookup_insert_eq in HlookN by (by eapply lookup_lt_Some).
    injection HlookN as <-. cbn [entry_offset].
    split; [done |]. split; [done | apply indirectObject_nonempty].
  - left. by rewrite list_lookup_insert_ne in HlookN.
Qed.

Lemma OffsetsSound_onDevice (w w' : PDFStreamingDocumentWriter) X :
  dev_failed (m_device w) = false ->
  m_device w' = write X (m_device w) ->
  m_objectOffsets w' = m_objectOffsets w ->
  OffsetsSound w -> OffsetsSound w'.
Proof.
  intros Hhealthy Hdev Htable.
  apply (OffsetsSound_step w w' X None); [done | done |].
  intros N entry Hlook _. left. by rewrite <- Htable.
Qed.

Lemma OffsetsSound_ensureCatalog (w : PDFStreamingDocumentWriter) :
  dev_failed (m_device w) = false ->
  OffsetsSound w -> OffsetsSound (ensureCatalog w).
Proof.
  intros Hhealthy Hsound.
  unfold ensureCatalog. destruct (negb (isValid (m_catalogReference w))); [| done].
  unfold createPageTree, createCatalog.
  pose proof (OffsetsSound_writeObject w (pageTreeObject (m_pages w)) 0 Hhealthy Hsound)
    as Hsound1.
  pose proof (writeObject_healthy w (pageTreeObject (m_pages w)) 0) as Hhealthy1.
  destruct (writeObject (pageTreeObject (m_pages w)) 0 w) as [r1 w1].
  cbn [snd] in Hsound1, Hhealthy1. rewrite Hhealthy in Hhealthy1.
  pose proof (OffsetsSound_writeObject w1 (catalogObject r1) 0 Hhealthy1 Hsound1) as Hsound2.
  destruct (writeObject (catalogObject r1) 0 w1) as [r2 w2].
  exact Hsound2.
Qed.

Lemma OffsetsSound_endDocument (w : PDFStreamingDocumentWriter) :
  dev_failed (m_device w) = false ->
  OffsetsSound w -> OffsetsSound (snd (endDocument w)).
Proof.
  intros Hhealthy Hsound.
  destruct (m_isOpen w) eqn:Hopen; [| by rewrite endDocument_closed].
  destruct (findUnwritten 1 (drop 1 (m_objectOffsets w))) as [N|] eqn:Hfind;
    [by rewrite (endDocument_pending w N) |].
  rewrite endDocument_success by done. cbn [snd].
  eapply (OffsetsSound_onDevice (ensureCatalog w)).
  - by rewrite ensureCatalog_healthy.
  - reflexivity.
  - reflexivity.
  - by apply OffsetsSound_ensureCatalog.
Qed.

Lemma perform_OffsetsSound (c : Call) (w : PDFStreamingDocumentWriter) :
  dev_failed (m_device w) = false ->
  OffsetsSound w -> OffsetsSound (snd (perform c w)).
Proof.
  intros Hhealthy Hsound.
  destruct c; cbn [perform prod_map snd fst id]; try done.
  - rewrite beginDocument_eq. destruct (negb (isWritable (m_device w))); [done |].
    cbn [snd]. by eapply (OffsetsSound_onDevice w).
  - by apply OffsetsSound_writeObject.
  - by apply OffsetsSound_reserveObject.
  - by apply OffsetsSound_writeReservedObject.
  - by apply OffsetsSound_writeObject.
  - by apply OffsetsSound_writeObject.
  - by apply OffsetsSound_endDocument.
Qed.

Lemma performAll_OffsetsSound (calls : list Call) : forall w,
  dev_failed (m_device w) = false ->
  OffsetsSound w -> OffsetsSound (snd (performAll calls w)).
Proof.
  induction calls as [|c calls IH]; intros w Hhealthy Hsound; [done |].
  rewrite performAll_cons. cbn [snd]. apply IH.
  - by rewrite perform_healthy.
  - by apply perform_OffsetsSound.
Qed.

Lemma newWriter_OffsetsSound (device : QIODevice) : OffsetsSound (newWriter device).
Proof.
  split.
  - intros [|[|N]] entry Hlook Hwritten; [| discriminate | discriminate].
    injection Hlook as <-. done.
  - intros [|[|N1]] N2 e1 e2 H1 H2 Hw1 Hw2 _; [| discriminate | discriminate].
    injection H1 as <-. done.
Qed.

End SoundFacts.

(** X10. Over a device that accepts every write, after any sequence of
    calls on a new writer every recorded offset lies inside the file
    written so far, and no two slots record the same offset. *)
Theorem offsets_inside_and_distinct `{Environment} (device : QIODevice)
    (calls : list Call) :
  dev_failed device = false ->
  let w := snd (performAll calls (newWriter device)) in
  (forall N entry,
     m_objectOffsets w !! N = Some entry -> entry_offset entry <> (-1)%Z ->
     (0 <= entry_offset entry < getBytesWritten w)%Z)
  /\ (forall N1 N2 entry1 entry2,
        m_objectOffsets w !! N1 = Some entry1 -> m_objectOffsets w !! N2 = Some entry2 ->
        entry_offset entry1 <> (-1)%Z -> entry_offset entry2 <> (-1)%Z ->
        entry_offset entry1 = entry_offset entry2 -> N1 = N2).
Proof.
  intros Hhealthy. cbv zeta.
  exact (performAll_OffsetsSound calls (newWriter device) Hhealthy
           (newWriter_OffsetsSound device)).
Qed.

Lemma offsets_inside_and_distinct_witness :
  dev_failed blankDevice = false
  /\ forall N entry,
       m_objectOffsets sampleMismatch !! N = Some entry ->
       entry_offset entry <> (-1)%Z ->
       (0 <= entry_offset entry < getBytesWritten sampleMismatch)%Z.
Proof.
  split; [reflexivity |].
  exact (proj1 (offsets_inside_and_distinct (H := sampleEnvironment) blankDevice
                  sampleMismatchCalls eq_refl)).
Defined.

(** ** The end of the file *)

(** X11. In the file a successful [endDocument] leaves on a device that
    accepts every write, the keyword [xref] stands at the position that
    the [startxref] line announces, that line and the marker [%%EOF] are
    the last bytes of the file, with no line end after the marker, and
    reading the announced number back gives the position. *)
Theorem startxref_points_at_xref `{Environment} (w : PDFStreamingDocumentWriter) :
  m_isOpen w = true ->
  dev_failed (m_device w) = false ->
  (forall i, 1 <= i -> ~ Unwritten w i) ->
  exists xrefOffset front,
    fst (endDocument w) = OperationSuccess
    /\ (getBytesWritten w <= xrefOffset)%Z
    /\ BeginsAt (dev_buffer (m_device (snd (endDocument w)))) xrefOffset
         (latin1 "xref" ++ CRLF)
    /\ dev_buffer (m_device (snd (endDocument w)))
       = front ++ CRLF ++ latin1 "startxref" ++ CRLF
           ++ QString_number xrefOffset ++ CRLF ++ latin1 "%%EOF"
    /\ ((xrefOffset < 10 ^ 20)%Z -> decimalValue (QString_number xrefOffset) = xrefOffset).
Proof.
  intros Hopen Hhealthy Hnone.
  pose proof (no_Unwritten_findUnwritten w Hnone) as Hfind.
  rewrite endDocument_success by done. cbn [fst snd m_device].
  set (w1 := ensureCatalog w).
  assert (Hhealthy1 : dev_failed (m_device w1) = false)
    by (unfold w1; by rewrite ensureCatalog_healthy).
  exists (pos (m_device w1)),
    (dev_buffer (m_device w1) ++ xrefSection (m_objectOffsets w1)
       ++ latin1 "trailer" ++ CRLF ++ serialize (trailerObject w1)).
  split; [done |]. split; [| split; [| split]].
  - unfold getBytesWritten, w1.
    destruct (ensureCatalog_writes w Hopen) as [X ->].
    rewrite pos_write_healthy by done. lia.
  - rewrite write_buffer_healthy by done.
    exists (dev_buffer (m_device w1)). eexists. split; [| done].
    unfold xrefSection. rewrite <- !app_assoc. reflexivity.
  - rewrite write_buffer_healthy by done. unfold trailerSection.
    by rewrite <- !app_assoc.
  - intros Hbound.
    apply (QString_number_digits (pos (m_device w1)) 20); [| lia].
    split; [apply pos_nonneg | exact Hbound].
Qed.

Lemma startxref_points_at_xref_witness :
  m_isOpen sampleWriter = true
  /\ dev_failed (m_device sampleWriter) = false
  /\ exists xrefOffset,
       BeginsAt (dev_buffer (m_device (snd (endDocument (H := sampleEnvironment)
                   sampleWriter)))) xrefOffset (latin1 "xref" ++ CRLF).
Proof.
  split; [reflexivity |]. split; [reflexivity |].
  assert (Hnone : forall i, 1 <= i -> ~ Unwritten sampleWriter i).
  { intros [|i] Hi (entry & Hlook & _); [inversion Hi | discriminate Hlook]. }
  destruct (startxref_points_at_xref (H := sampleEnvironment) sampleWriter
              eq_refl eq_refl Hnone) as (xrefOffset & front & _ & _ & Hxref & _).
  exists xrefOffset. exact Hxref.
Defined.

(** X12. [endDocument] creates a page tree and a catalog exactly when no
    valid catalog reference is set, which includes a reference set with
    object number 0 or below: it then appends two objects of generation 0,
    the page tree, whose [Kids] are the pages in [addPage] order and whose
    [Count] is their number, and the catalog pointing at it, and [Root]
    becomes the catalog. With a valid catalog reference nothing is
    appended and [Root] is that reference, whether or not such an object
    was ever written. The trailer's [Size] is the final number of slots. *)
Theorem endDocument_catalog `{Environment} (w : PDFStreamingDocumentWriter) :
  m_isOpen w = true ->
  (forall i, 1 <= i -> ~ Unwritten w i) ->
  let w' := snd (endDocument w) in
  let K := getObjectCount w in
  let pageTree :=
    Dictionary [ (latin1 "Type", Name (latin1 "Pages"));
                 (latin1 "Kids", Array (map Reference (m_pages w)));
                 (latin1 "Count", Int (Z.of_nat (length (m_pages w)))) ] in
  let catalog :=
    Dictionary [ (latin1 "Type", Name (latin1 "Catalog"));
                 (latin1 "Pages", Reference (mkRef (Z.of_nat K) 0)) ] in
  (isValid (m_catalogReference w) = true ->
     m_objectOffsets w' = m_objectOffsets w
     /\ m_catalogReference w' = m_catalogReference w
     /\ exists rest,
          dev_requested (m_device w') = dev_requested (m_device w) ++ latin1 "xref" ++ rest)
  /\ (isValid (m_catalogReference w) = false ->
        m_catalogReference w' = mkRef (Z.of_nat (S K)) 0
        /\ m_objectOffsets w'
           = m_objectOffsets w
               ++ [ mkEntry (pos (m_device w)) 0 false;
                    mkEntry (pos (write (indirectObject (mkRef (Z.of_nat K) 0) pageTree)
                                    (m_device w))) 0 false ]
        /\ exists rest,
             dev_requested (m_device w')
             = dev_requested (m_device w)
                 ++ indirectObject (mkRef (Z.of_nat K) 0) pageTree
                 ++ indirectObject (mkRef (Z.of_nat (S K)) 0) catalog
                 ++ latin1 "xref" ++ rest)
  /\ exists before after,
       dev_requested (m_device w')
       = before ++ latin1 "trailer" ++ CRLF
           ++ serialize
                (Dictionary
                   ([ (latin1 "Size", Int (Z.of_nat (getObjectCount w')));
                      (latin1 "Root", Reference (m_catalogReference w')) ]
                    ++ (if isValid (m_infoReference w)
                        then [ (latin1 "Info", Reference (m_infoReference w)) ]
                        else [])))
           ++ after.
Proof.
  intros Hopen Hnone. cbv zeta.
  pose proof (no_Unwritten_findUnwritten w Hnone) as Hfind.
  rewrite endDocument_success by done.
  cbn [snd m_device m_objectOffsets m_catalogReference]. unfold getObjectCount.
  cbn [m_objectOffsets].
  assert (Hinfo : m_infoReference (ensureCatalog w) = m_infoReference w).
  { rewrite ensureCatalog_eq by done. by destruct (isValid (m_catalogReference w)). }
  assert (Htrailer : exists before after,
    dev_requested (write (xrefSection (m_objectOffsets (ensureCatalog w))
                          ++ trailerSection (ensureCatalog w) (pos (m_device (ensureCatalog w))))
                     (m_device (ensureCatalog w)))
    = before ++ latin1 "trailer" ++ CRLF
        ++ serialize
             (Dictionary
                ([ (latin1 "Size", Int (Z.of_nat (length (m_objectOffsets (ensureCatalog w)))));
                   (latin1 "Root", Reference (m_catalogReference (ensureCatalog w))) ]
                 ++ (if isValid (m_infoReference w)
                     then [ (latin1 "Info", Reference (m_infoReference w)) ]
                     else [])))
        ++ after).
  { exists (dev_requested (m_device (ensureCatalog w))
            ++ xrefSection (m_objectOffsets (ensureCatalog w))),
           (CRLF ++ latin1 "startxref" ++ CRLF
            ++ QString_number (pos (m_device (ensureCatalog w))) ++ CRLF ++ latin1 "%%EOF").
    rewrite write_requested. unfold trailerSection, trailerObject. rewrite Hinfo.
    by rewrite <- !app_assoc. }
  split; [| split; [| exact Htrailer]]; clear Htrailer Hinfo;
    intros Hvalid; rewrite ensureCatalog_eq by done; rewrite Hvalid.
  - split; [done |]. split; [done |].
    exists (CRLF ++ latin1 "0 " ++ QString_number (Z.of_nat (length (m_objectOffsets w)))
            ++ CRLF ++ concat (imap xrefRow (m_objectOffsets w))
            ++ trailerSection w (pos (m_device w))).
    rewrite write_requested. unfold xrefSection. by rewrite <- !app_assoc.
  - cbv zeta.
    cbn [m_device m_objectOffsets m_catalogReference m_infoReference].
    split; [done |]. split; [done |].
    rewrite !write_requested.
    match goal with
    | |- context [xrefSection ?t ++ trailerSection ?w1 ?p] =>
        exists (CRLF ++ latin1 "0 " ++ QString_number (Z.of_nat (length t)) ++ CRLF
                ++ concat (imap xrefRow t) ++ trailerSection w1 p)
    end.
    unfold xrefSection. by rewrite <- !app_assoc.
Qed.

Lemma endDocument_catalog_witness :
  m_isOpen sampleWriter = true
  /\ (isValid (m_catalogReference sampleWriter) = false ->
      m_catalogReference (snd (endDocument (H := sampleEnvironment) sampleWriter))
      = mkRef 2 0).
Proof.
  split; [reflexivity |].
  assert (Hnone : forall i, 1 <= i -> ~ Unwritten sampleWriter i).
  { intros [|i] Hi (entry & Hlook & _); [inversion Hi | discriminate Hlook]. }
  pose proof (endDocument_catalog (H := sampleEnvironment) sampleWriter eq_refl Hnone)
    as (_ & Hsynth & _).
  intros Hvalid. exact (proj1 (Hsynth Hvalid)).
Defined.

(** ** The beginning of the file *)

(** X13. A file begun on an empty device that is writable and accepts every
    write starts with the four lines of [beginDocument], the first being
    [%PDF-M.N] for the version asked for, whatever calls follow. *)
Theorem file_starts_with_header `{Environment} (device : QIODevice)
    (version : PDFVersion) (calls : list Call) :
  dev_writable device = true ->
  dev_failed device = false ->
  dev_buffer device = [] ->
  let run := performAll (CallBeginDocument version :: calls) (newWriter device) in
  (exists outcomes, fst run = ReturnedBool true :: outcomes)
  /\ exists rest,
       dev_buffer (m_device (snd run))
       = latin1 "%PDF-" ++ QString_number (major version) ++ latin1 "."
           ++ QString_number (minor version) ++ CRLF
           ++ latin1 "% PDF producer: " ++ PDF_LIBRARY_NAME
           ++ latin1 " (PDF4QT-Opus Streaming Writer)" ++ CRLF
           ++ "%"%char :: ["226"; "227"; "207"; "211"]%char ++ CRLF
           ++ CRLF ++ rest.
Proof.
  intros Hwritable Hhealthy Hempty. cbv zeta.
  rewrite performAll_cons. cbn [fst snd perform prod_map id].
  rewrite beginDocument_eq. unfold isWritable. cbn [newWriter m_device].
  rewrite Hwritable. cbn [negb fst snd prod_map id].
  split; [by eexists |].
  match goal with
  | |- context [performAll calls ?w1] =>
      destruct (performAll_writes calls w1) as [Y ->]
  end.
  cbn [m_device]. rewrite write_write, write_buffer_healthy, Hempty by done.
  exists Y. unfold documentHeader. cbn [app]. by rewrite <- !app_assoc.
Qed.

Lemma file_starts_with_header_witness :
  dev_writable blankDevice = true
  /\ dev_failed blankDevice = false
  /\ dev_buffer blankDevice = []
  /\ exists rest,
       dev_buffer (m_device sampleMismatch)
       = latin1 "%PDF-" ++ QString_number 1 ++ latin1 "." ++ QString_number 7 ++ CRLF
           ++ latin1 "% PDF producer: " ++ latin1 "PDF4QT"
           ++ latin1 " (PDF4QT-Opus Streaming Writer)" ++ CRLF
           ++ "%"%char :: ["226"; "227"; "207"; "211"]%char ++ CRLF
           ++ CRLF ++ rest.
Proof.
  split; [reflexivity |]. split; [reflexivity |]. split; [reflexivity |].
  exact (proj2 (file_starts_with_header (H := sampleEnvironment) blankDevice
                  (mkVersion 1 7)
                  [ CallReserveObject 0; CallWriteReservedObject (mkRef 1 5) Null;
                    CallEndDocument ] eq_refl eq_refl eq_refl)).
Defined.

Section ReadOnlyFacts.
Context `{Environment}.

Lemma perform_read_only (c : Call) (w : PDFStreamingDocumentWriter) :
  m_isOpen w = false ->
  dev_writable (m_device w) = false ->
  m_device (snd (perform c w)) = m_device w
  /\ m_isOpen (snd (perform c w)) = false
  /\ Refused c (fst (perform c w))
  /\ fst (perform c w) <> ReturnedBool true
  /\ fst (perform c w) <> ReturnedResult OperationSuccess.
Proof.
  intros Hclosed Hreadonly.
  destruct c; cbn [perform prod_map snd fst id Refused];
    rewrite ?writeObject_closed, ?endDocument_closed by done;
    try (repeat split; done).
  - unfold beginDocument, isWritable. rewrite Hreadonly. by repeat split.
  - rewrite writeReservedObject_refuse by (intros [? _]; congruence). by repeat split.
  - unfold createPageTree. rewrite writeObject_closed by done. by repeat split.
  - unfold createCatalog. rewrite writeObject_closed by done. by repeat split.
Qed.

End ReadOnlyFacts.

(** X14. Over a device that is not writable the writer never opens and
    never touches the device, whatever the sequence of calls: call by
    call, every [beginDocument] and every [writeReservedObject] returns
    false, every [writeObject] returns the invalid reference and every
    [endDocument] returns the error that the document is not open. *)
Theorem read_only_device_untouched `{Environment} (device : QIODevice)
    (calls : list Call) :
  dev_writable device = false ->
  let run := performAll calls (newWriter device) in
  m_device (snd run) = device
  /\ m_isOpen (snd run) = false
  /\ Forall2 Refused calls (fst run)
  /\ Forall (fun outcome =>
               outcome <> ReturnedBool true
               /\ outcome <> ReturnedResult OperationSuccess) (fst run).
Proof.
  intros Hreadonly. cbv zeta.
  assert (Hgen : forall w : PDFStreamingDocumentWriter,
            m_isOpen w = false -> dev_writable (m_device w) = false ->
            m_device (snd (performAll calls w)) = m_device w
            /\ m_isOpen (snd (performAll calls w)) = false
            /\ Forall2 Refused calls (fst (performAll calls w))
            /\ Forall (fun outcome =>
                         outcome <> ReturnedBool true
                         /\ outcome <> ReturnedResult OperationSuccess)
                 (fst (performAll calls w))).
  { induction calls as [|c calls IH]; intros w Hclosed Hro.
    - cbn. split; [done |]. split; [done |]. split; constructor.
    - rewrite performAll_cons. cbn [fst snd].
      destruct (perform_read_only c w Hclosed Hro) as (Hdev & Hopen & Hrefused & Hb & Hr).
      destruct (IH (snd (perform c w)) Hopen ltac:(by rewrite Hdev))
        as (Hdev' & Hopen' & Hall2 & Hall).
      split; [by rewrite Hdev' |]. split; [done |].
      split; [by constructor |]. apply Forall_cons. by split. }
  by apply (Hgen (newWriter device)).
Qed.

Lemma read_only_device_untouched_witness :
  dev_writable (mkDevice [] [] false false) = false
  /\ m_device (snd (performAll (H := sampleEnvironment) sampleMismatchCalls
                      (newWriter (mkDevice [] [] false false))))
     = mkDevice [] [] false false.
Proof.
  split; [reflexivity |].
  exact (proj1 (read_only_device_untouched (H := sampleEnvironment)
                  (mkDevice [] [] false false) sampleMismatchCalls eq_refl)).
Defined.

(** ** The merger as a client of the writer *)

Section MergerFacts.
Context `{Environment}.

Lemma exactReferences_app (a b : list Call) : forall w : PDFStreamingDocumentWriter,
  exactReferences w (a ++ b)
  = exactReferences w a && exactReferences (snd (performAll a w)) b.
Proof.
  induction a as [|c a IH]; intros w; [done |].
  rewrite <- app_comm_cons. cbn [exactReferences].
  rewrite IH, performAll_cons. cbn [snd]. by rewrite andb_assoc.
Qed.

Lemma performAll_snd_app (a b : list Call) (w : PDFStreamingDocumentWriter) :
  snd (performAll (a ++ b) w) = snd (performAll b (snd (performAll a w))).
Proof. by rewrite performAll_app. Qed.

(** [addDocument] on an open writer, as calls on the writer. *)
Lemma addDocument_as_calls (m : PDFStreamingMerger) (w : PDFStreamingDocumentWriter)
    (document : PDFDocument) (documentIndex : Z) (namespaceFields : bool) :
  m_writer m = Some w ->
  m_isOpen w = true ->
  let K := length (m_objectOffsets w) in
  let live := transplanted document in
  let M := mappingOf K live in
  let pages := mappedPages M (doc_pages document) in
  snd (performAll (reserveCalls live) w) = afterReservePass w live
  /\ addDocument document documentIndex namespaceFields m
     = (true,
        mkMerger
          (Some (snd (performAll (pageCalls pages)
                        (snd (performAll (emitCalls K M live) (afterReservePass w live))))))
          (m_totalPages m + length pages) (S (m_totalDocuments m))).
Proof.
  intros Hwriter Hopen K live M pages.
  destruct (reservePass_spec (drop 1 (doc_objects document)) 1 ∅ w)
    as [Hreserve Hreserved].
  fold (transplanted document) in Hreserve, Hreserved. fold live in Hreserve, Hreserved.
  fold K in Hreserve, Hreserved.
  assert (HM : foldl (fun M p => <[p.1 := p.2]> M) (∅ : ReferenceMapping)
                 (mappingPairs K live) = M).
  { apply map_eq. intros key. rewrite foldl_insert_lookup.
    - unfold M, mappingOf. destruct (list_to_map _ !! key); [done | apply lookup_empty].
    - rewrite mappingPairs_keys. apply liveSlots_NoDup. }
  rewrite HM in Hreserve. fold (afterReservePass w live) in Hreserve.
  rewrite Hreserve in Hreserved. cbn [snd] in Hreserved.
  destruct (emitPass_spec K M (drop 1 (doc_objects document)) 1 0 (afterReservePass w live))
    as [Hemit _].
  { done. }
  { intros j slot Hlook. by apply mappingOf_lookup. }
  { intros j Hj. unfold afterReservePass. cbn [m_objectOffsets].
    rewrite lookup_app_r by (unfold K; lia).
    replace (K + (0 + j) - length (m_objectOffsets w)) with j by (unfold K; lia).
    rewrite list_lookup_fmap.
    destruct (lookup_lt_is_Some_2 live j Hj) as [slot ->]. done. }
  cbv zeta in Hemit. fold (transplanted document) in Hemit. fold live in Hemit.
  change (imap _ live) with (emitCalls K M live) in Hemit.
  destruct (pagesPass_spec M (doc_pages document)
              (snd (performAll (emitCalls K M live) (afterReservePass w live)))
              (m_totalPages m)) as [Hpages _].
  fold pages in Hpages.
  split; [by rewrite Hreserved |].
  unfold addDocument. rewrite Hwriter. unfold isOpen. rewrite Hopen. cbn [negb].
  by rewrite Hreserve, Hemit, Hpages.
Qed.

(** The emit calls on the slots the reserve pass made: each finds its slot
    reserved with generation 0, and fulfils it. *)
Lemma emitCalls_fulfil (K : nat) (object : nat * StorageEntry -> PDFObject)
    (live : list (nat * StorageEntry)) :
  forall j0 (w : PDFStreamingDocumentWriter),
  m_isOpen w = true ->
  (forall j, j < length live ->
     m_objectOffsets w !! (K + (j0 + j)) = Some (mkEntry (-1) 0 true)) ->
  let calls :=
    imap (fun j slot => CallWriteReservedObject (allocated K (j0 + j)) (object slot)) live in
  let w' := snd (performAll calls w) in
  exactReferences w calls = true
  /\ m_isOpen w' = true
  /\ (m_pages w' = m_pages w /\ m_catalogReference w' = m_catalogReference w)
  /\ (forall j, j < length live ->
        exists offset, m_objectOffsets w' !! (K + (j0 + j)) = Some (mkEntry offset 0 false)
                       /\ (0 <= offset)%Z)
  /\ (forall N, N < K + j0 \/ K + j0 + length live <= N ->
        m_objectOffsets w' !! N = m_objectOffsets w !! N).
Proof.
  induction live as [|slot live IH]; intros j0 w Hopen Hslots.
  - cbn. repeat split; try done. intros j Hj. lia.
  - cbv zeta. rewrite imap_cons. cbn [exactReferences].
    rewrite performAll_cons. cbn [snd perform].
    assert (Hfirst : m_objectOffsets w !! (K + (j0 + 0)) = Some (mkEntry (-1) 0 true))
      by (apply Hslots; simpl; lia).
    assert (Hcall : writeReservedObject (allocated K (j0 + 0)) (object slot) w
      = (true, mkWriter
                 (write (indirectObject (allocated K (j0 + 0)) (object slot)) (m_device w))
                 (m_version w) true
                 (<[K + (j0 + 0) := mkEntry (pos (m_device w)) 0 false]> (m_objectOffsets w))
                 (m_pages w) (m_catalogReference w) (m_infoReference w))).
    { rewrite (writeReservedObject_fulfil _ _ w (mkEntry (-1) 0 true)); try done.
      - unfold allocated. cbn [objectNumber]. by rewrite Nat2Z.id.
      - unfold allocated. cbn [objectNumber]. lia.
      - unfold allocated. cbn [objectNumber]. by rewrite Nat2Z.id. }
    rewrite Hcall. cbn [prod_map fst snd id].
    set (w1 := mkWriter _ _ _ _ _ _ _).
    assert (Hcalls : imap
        ((fun j (slot : nat * StorageEntry) =>
            CallWriteReservedObject (allocated K (j0 + j)) (object slot)) ∘ S) live
      = imap (fun j slot =>
            CallWriteReservedObject (allocated K (S j0 + j)) (object slot)) live).
    { apply imap_ext. intros j s _. simpl. do 3 f_equal. lia. }
    rewrite Hcalls.
    destruct (IH (S j0) w1) as (Hexact & Hopen' & Hpages & Hwritten & Hother).
    + reflexivity.
    + intros j Hj. unfold w1. cbn [m_objectOffsets].
      rewrite list_lookup_insert_ne by lia.
      replace (S j0 + j) with (j0 + S j) by lia. apply Hslots. simpl. lia.
    + cbv zeta in Hexact, Hopen', Hpages, Hwritten, Hother.
      split; [| split; [done | split; [done | split]]].
      * rewrite Hexact, andb_true_r. unfold exactReference, allocated.
        cbn [objectNumber generation]. rewrite Nat2Z.id, Hfirst. done.
      * intros [|j] Hj.
        -- exists (pos (m_device w)). split; [| apply pos_nonneg].
           rewrite Hother by lia. unfold w1. cbn [m_objectOffsets].
           apply list_lookup_insert_eq. by eapply lookup_lt_Some.
        -- replace (j0 + S j) with (S j0 + j) by lia. apply Hwritten. simpl in Hj. lia.
      * intros N HN. cbn [length] in HN. rewrite Hother by lia.
        unfold w1. cbn [m_objectOffsets]. apply list_lookup_insert_ne. lia.
Qed.

Lemma pageCalls_table (pages : list PDFObjectReference) :
  forall w : PDFStreamingDocumentWriter,
  let w' := snd (performAll (pageCalls pages) w) in
  m_objectOffsets w' = m_objectOffsets w
  /\ m_isOpen w' = m_isOpen w
  /\ m_device w' = m_device w
  /\ m_pages w' = m_pages w ++ pages
  /\ exactReferences w (pageCalls pages) = true
  /\ m_catalogReference w' = m_catalogReference w.
Proof.
  induction pages as [|page pages IH]; intros w.
  - cbn. by rewrite app_nil_r.
  - cbv zeta. unfold pageCalls in *. cbn [map exactReferences exactReference].
    rewrite performAll_cons. cbn [snd perform].
    destruct (IH (addPage page w)) as (Htable & Hopen & Hdev & Hpages & Hexact & Hcat).
    cbv zeta in Htable, Hopen, Hdev, Hpages, Hcat.
    rewrite Htable, Hopen, Hdev, Hpages, Hexact, Hcat.
    cbn [addPage m_pages]. by rewrite <- app_assoc.
Qed.

End MergerFacts.

Section MergerRunFacts.
Context `{Environment}.

(** One [addDocument] on an open writer. *)
Lemma addDocument_step (m : PDFStreamingMerger) (w : PDFStreamingDocumentWriter)
    (document : PDFDocument) (documentIndex : Z) (namespaceFields : bool) :
  m_writer m = Some w ->
  m_isOpen w = true ->
  let K := length (m_objectOffsets w) in
  let live := transplanted document in
  let M := mappingOf K live in
  let pages := mappedPages M (doc_pages document) in
  let calls := reserveCalls live ++ emitCalls K M live ++ pageCalls pages in
  let w' := snd (performAll calls w) in
  addDocument document documentIndex namespaceFields m
  = (true, mkMerger (Some w') (m_totalPages m + length pages) (S (m_totalDocuments m)))
  /\ exactReferences w calls = true
  /\ m_isOpen w' = true
  /\ (m_pages w' = m_pages w ++ pages /\ m_catalogReference w' = m_catalogReference w)
  /\ length (m_objectOffsets w') = K + length live
  /\ (forall N, N < K -> m_objectOffsets w' !! N = m_objectOffsets w !! N)
  /\ (forall j, j < length live ->
        exists offset,
          m_objectOffsets w' !! (K + j) = Some (mkEntry offset 0 false) /\ (0 <= offset)%Z).
Proof.
  intros Hwriter Hopen K live M pages calls w'.
  destruct (addDocument_as_calls m w document documentIndex namespaceFields Hwriter Hopen)
    as [Hreserved Hadd].
  fold K live M pages in Hreserved, Hadd.
  assert (Hreserve_exact : exactReferences w (reserveCalls live) = true).
  { unfold reserveCalls. clear. generalize w. induction live as [|s l IH]; intros w0; [done |].
    cbn [map exactReferences exactReference]. apply IH. }
  destruct (emitCalls_fulfil K (fun slot => replaceReferences (slot_object (snd slot)) M)
              live 0 (afterReservePass w live))
    as (Hexact & Hopen2 & [Hpages2 Hcat2] & Hwritten & Hother).
  { done. }
  { intros j Hj. unfold afterReservePass. cbn [m_objectOffsets].
    rewrite lookup_app_r by (unfold K; lia).
    replace (K + (0 + j) - length (m_objectOffsets w)) with j by (unfold K; lia).
    rewrite list_lookup_fmap.
    destruct (lookup_lt_is_Some_2 live j Hj) as [slot ->]. done. }
  cbv zeta in Hexact, Hopen2, Hpages2, Hcat2, Hwritten, Hother.
  change (imap _ live) with (emitCalls K M live)
    in Hexact, Hopen2, Hpages2, Hcat2, Hwritten, Hother.
  set (w2 := snd (performAll (emitCalls K M live) (afterReservePass w live))) in *.
  destruct (pageCalls_table pages w2) as (Htable3 & Hopen3 & _ & Hpages3 & Hexact3 & Hcat3).
  cbv zeta in Htable3, Hopen3, Hpages3, Hcat3.
  assert (Hw' : w' = snd (performAll (pageCalls pages) w2)).
  { unfold w', calls. rewrite !performAll_snd_app. by rewrite Hreserved. }
  split; [by rewrite Hw' |].
  split.
  { unfold calls. rewrite !exactReferences_app, Hreserve_exact, Hreserved.
    cbn [andb]. rewrite Hexact. cbn [andb]. exact Hexact3. }
  rewrite Hw', Htable3, Hopen3, Hpages3, Hpages2, Hcat3, Hcat2.
  split; [done |]. split; [done |].
  assert (Hlen2 : length (m_objectOffsets w2) = K + length live).
  { assert (Hle : length (m_objectOffsets w2) <= K + length live).
    { destruct (decide (length (m_objectOffsets w2) <= K + length live)) as [|Hgt];
        [done | exfalso].
      destruct (lookup_lt_is_Some_2 (m_objectOffsets w2) (K + length live)) as [e He];
        [lia |].
      rewrite Hother in He by lia. unfold afterReservePass in He. cbn [m_objectOffsets] in He.
      apply lookup_lt_Some in He. rewrite length_app, length_map in He. unfold K in He. lia. }
    destruct (decide (length live = 0)) as [Hnil | Hcons].
    - assert (Hge : K <= length (m_objectOffsets w2)); [| lia].
      destruct (decide (K = 0)) as [-> | HK]; [lia |].
      destruct (lookup_lt_is_Some_2 (m_objectOffsets w) (K - 1)) as [e He];
        [unfold K; lia |].
      assert (Hsame : m_objectOffsets w2 !! (K - 1) = Some e).
      { rewrite Hother by lia. unfold afterReservePass. cbn [m_objectOffsets].
        rewrite lookup_app_l by (unfold K; lia). done. }
      apply lookup_lt_Some in Hsame. lia.
    - destruct (Hwritten (length live - 1)) as (offset & Hlook & _); [lia |].
      apply lookup_lt_Some in Hlook. lia. }
  split; [done |]. split.
  - intros N HN. rewrite Hother by lia. unfold afterReservePass. cbn [m_objectOffsets].
    apply lookup_app_l. unfold K in HN. lia.
  - intros j Hj. destruct (Hwritten j Hj) as (offset & Hlook & Hnn).
    exists offset. by rewrite Nat.add_0_l in Hlook.
Qed.

Lemma addDocument_AllWritten (m : PDFStreamingMerger) (w : PDFStreamingDocumentWriter)
    (document : PDFDocument) (documentIndex : Z) (namespaceFields : bool) w' :
  m_writer m = Some w ->
  m_isOpen w = true ->
  m_writer (snd (addDocument document documentIndex namespaceFields m)) = Some w' ->
  AllWritten w -> AllWritten w'.
Proof.
  intros Hwriter Hopen Hafter Hall.
  destruct (addDocument_step m w document documentIndex namespaceFields Hwriter Hopen)
    as (Hadd & _ & _ & _ & Hlen & Hold & Hnew).
  cbv zeta in Hadd, Hlen, Hold, Hnew. rewrite Hadd in Hafter. cbn [snd m_writer] in Hafter.
  injection Hafter as <-.
  intros N entry HN Hlook.
  destruct (decide (N < length (m_objectOffsets w))) as [Hlt | Hge].
  - rewrite Hold in Hlook by done. by eapply Hall.
  - pose proof (lookup_lt_Some _ _ _ Hlook) as Hbound. rewrite Hlen in Hbound.
    destruct (Hnew (N - length (m_objectOffsets w))) as (offset & Hlook' & Hnn); [lia |].
    replace (length (m_objectOffsets w) + (N - length (m_objectOffsets w))) with N
      in Hlook' by lia.
    assert (entry = mkEntry offset 0 false) as -> by congruence.
    cbn. repeat split; try done. lia.
Qed.

Lemma addDocument_MergerSound (device : QIODevice) (m : PDFStreamingMerger)
    (document : PDFDocument) (documentIndex : Z) (namespaceFields : bool) :
  MergerSound device m ->
  MergerSound device (snd (addDocument document documentIndex namespaceFields m))
  /\ fst (addDocument document documentIndex namespaceFields m) = true
  /\ m_totalDocuments (snd (addDocument document documentIndex namespaceFields m))
     = S (m_totalDocuments m).
Proof.
  intros (w & calls & Hwriter & Hw & Hexact & Hopen & Hall & Hcount & Hnocat).
  pose proof (addDocument_AllWritten m w document documentIndex namespaceFields) as Hkeep.
  destruct (addDocument_step m w document documentIndex namespaceFields Hwriter Hopen)
    as (Hadd & Hexact' & Hopen' & [Hpages Hcat] & _).
  cbv zeta in Hadd, Hexact', Hopen', Hpages, Hcat.
  match type of Hadd with
  | _ = (true, mkMerger (Some (snd (performAll ?c w))) _ _) => set (docCalls := c) in *
  end.
  specialize (Hkeep (snd (performAll docCalls w)) Hwriter Hopen).
  rewrite Hadd in *. cbn [fst snd m_writer m_totalPages m_totalDocuments] in *.
  split; [| by split].
  exists (snd (performAll docCalls w)), (calls ++ docCalls). split; [reflexivity |].
  split; [by rewrite performAll_snd_app, <- Hw |].
  split; [by rewrite exactReferences_app, Hexact, <- Hw |].
  split; [done |]. split; [by apply Hkeep |].
  split; [| by rewrite Hcat].
  cbn [m_totalPages]. rewrite Hpages, length_app. lia.
Qed.

Lemma addDocuments_MergerSound (device : QIODevice) (documents : list PDFDocument) :
  forall m,
  MergerSound device m ->
  MergerSound device (addDocuments documents m)
  /\ m_totalDocuments (addDocuments documents m) = m_totalDocuments m + length documents.
Proof.
  induction documents as [|document documents IH]; intros m Hsound.
  - cbn. split; [done | lia].
  - unfold addDocuments in *. cbn [foldl].
    destruct (addDocument_MergerSound device m document 0 false Hsound)
      as (Hsound' & _ & Hdocs).
    destruct (IH _ Hsound') as [Hfinal Hcount].
    split; [done |]. rewrite Hcount, Hdocs. simpl. lia.
Qed.

Lemma mergerOver_MergerSound (device : QIODevice) :
  dev_writable device = true -> MergerSound device (mergerOver device).
Proof.
  intros Hwritable. unfold mergerOver, begin.
  assert (Hbegin : beginDocument (mkVersion 1 7) (newWriter device)
                   = (true, snd (beginDocument (mkVersion 1 7) (newWriter device)))).
  { rewrite beginDocument_eq. unfold isWritable. cbn [newWriter m_device].
    by rewrite Hwritable. }
  rewrite Hbegin. cbn [snd].
  exists (snd (beginDocument (mkVersion 1 7) (newWriter device))),
         [CallBeginDocument (mkVersion 1 7)].
  split; [reflexivity |]. split; [| split; [reflexivity |]].
  - rewrite performAll_cons. reflexivity.
  - rewrite beginDocument_eq. unfold isWritable. cbn [newWriter m_device].
    rewrite Hwritable. cbn [negb snd m_isOpen m_objectOffsets m_pages m_catalogReference].
    split; [done |]. split; [| by split].
    intros [|[|N]] entry HN Hlook; [lia | discriminate | discriminate].
Qed.

End MergerRunFacts.

Section MergedFileFacts.
Context `{Environment}.

Lemma AllWritten_no_Unwritten (w : PDFStreamingDocumentWriter) :
  AllWritten w -> forall i, 1 <= i -> ~ Unwritten w i.
Proof.
  intros Hall i Hi (entry & Hlook & Hres & _).
  destruct (Hall i entry Hi Hlook) as (_ & Hfree & _). congruence.
Qed.

Lemma endDocument_AllWritten (w : PDFStreamingDocumentWriter) :
  m_isOpen w = true ->
  AllWritten w ->
  fst (endDocument w) = OperationSuccess /\ AllWritten (snd (endDocument w)).
Proof.
  intros Hopen Hall.
  pose proof (no_Unwritten_findUnwritten w (AllWritten_no_Unwritten w Hall)) as Hfind.
  rewrite endDocument_success by done. cbn [fst snd]. split; [done |].
  intros N entry HN Hlook. cbn [m_objectOffsets] in Hlook.
  rewrite ensureCatalog_eq in Hlook by done.
  destruct (isValid (m_catalogReference w)); [by eapply Hall |].
  cbv zeta in Hlook. cbn [m_objectOffsets] in Hlook.
  destruct (decide (N < length (m_objectOffsets w))) as [Hlt | Hge].
  - rewrite lookup_app_l in Hlook by done. by eapply Hall.
  - rewrite lookup_app_r in Hlook by lia.
    destruct (N - length (m_objectOffsets w)) as [|[|k]]; [| | done];
      injection Hlook as <-; cbn; repeat split; try done;
      match goal with |- pos ?d <> _ => pose proof (pos_nonneg d); lia end.
Qed.

Lemma newWriter_HeadersInPlace (device : QIODevice) : HeadersInPlace (newWriter device).
Proof. intros [|[|N]] entry HN Hlook Hwritten; [lia | discriminate | discriminate]. Qed.

Lemma performAll_healthy (calls : list Call) (w : PDFStreamingDocumentWriter) :
  dev_failed (m_device (snd (performAll calls w))) = dev_failed (m_device w).
Proof. by destruct (performAll_writes calls w) as [X ->]. Qed.

End MergedFileFacts.

(** X15. In the file a merger leaves after [begin] on a writable device
    that accepts every write, any number of [addDocument] calls and the
    final [endDocument], every slot from 1 on is in use, has generation 0,
    and records the position at which the file reads ["N 0 obj"] for its
    own number [N]. *)
Theorem merged_file_is_consistent `{Environment} (device : QIODevice)
    (documents : list PDFDocument) :
  dev_writable device = true ->
  dev_failed device = false ->
  exists w,
    m_writer (addDocuments documents (mergerOver device)) = Some w
    /\ fst (endDocument w) = OperationSuccess
    /\ forall N entry,
         1 <= N ->
         m_objectOffsets (snd (endDocument w)) !! N = Some entry ->
         entry_generation entry = 0%Z
         /\ entry_isReserved entry = false
         /\ BeginsAt (dev_buffer (m_device (snd (endDocument w)))) (entry_offset entry)
              (QString_number (Z.of_nat N) ++ latin1 " 0 obj" ++ CRLF).
Proof.
  intros Hwritable Hhealthy.
  destruct (addDocuments_MergerSound device documents (mergerOver device)
              (mergerOver_MergerSound device Hwritable))
    as [(w & calls & Hwriter & Hw & Hexact & Hopen & Hall & _ & _) _].
  exists w. split; [done |].
  destruct (endDocument_AllWritten w Hopen Hall) as [Hok Hall'].
  split; [done |].
  assert (Hheaders : HeadersInPlace (snd (endDocument w))).
  { apply endDocument_HeadersInPlace.
    - rewrite Hw, performAll_healthy. done.
    - rewrite Hw. apply performAll_HeadersInPlace; [done | done |].
      apply newWriter_HeadersInPlace. }
  intros N entry HN Hlook.
  destruct (Hall' N entry HN Hlook) as (Hgen & Hfree & Hwritten).
  split; [done |]. split; [done |].
  specialize (Hheaders N entry HN Hlook Hwritten).
  by rewrite objectHeader_eq, Hgen in Hheaders.
Qed.

Lemma merged_file_is_consistent_witness :
  dev_writable blankDevice = true
  /\ dev_failed blankDevice = false
  /\ exists w,
       m_writer (addDocuments (H := sampleEnvironment) [sampleDocument; sampleDocument]
                   (mergerOver (H := sampleEnvironment) blankDevice)) = Some w
       /\ fst (endDocument (H := sampleEnvironment) w) = OperationSuccess.
Proof.
  split; [reflexivity |]. split; [reflexivity |].
  destruct (merged_file_is_consistent (H := sampleEnvironment) blankDevice
              [sampleDocument; sampleDocument] eq_refl eq_refl) as (w & Hw & Hok & _).
  exists w. exact (conj Hw Hok).
Defined.

(** X16. After [begin] on a writable device and any number of
    [addDocument] calls, [finish] always reaches [commit()]: no
    reservation is ever left open by [addDocument]. It reports success
    exactly when [commit()] succeeds, even over a device that rejected
    every write, and the number of documents counted is the number of
    calls. *)
Theorem finish_after_merge `{Environment} (device : QIODevice)
    (documents : list PDFDocument) (commitError : option QByteArray) :
  dev_writable device = true ->
  let m := addDocuments documents (mergerOver device) in
  finish commitError m
  = (match commitError with
     | None => OperationSuccess
     | Some errorString => OperationError (latin1 "Failed to save file: " ++ errorString)
     end,
     mkMerger None (m_totalPages m) (length documents),
     true).
Proof.
  intros Hwritable. cbv zeta.
  destruct (addDocuments_MergerSound device documents (mergerOver device)
              (mergerOver_MergerSound device Hwritable))
    as [(w & calls & Hwriter & _ & _ & Hopen & Hall & _ & _) Hdocs].
  destruct (endDocument_AllWritten w Hopen Hall) as [Hok _].
  unfold finish. rewrite Hwriter.
  destruct (endDocument w) as [result w']. cbn [fst] in Hok. subst result.
  rewrite Hdocs.
  assert (Hzero : m_totalDocuments (mergerOver device) = 0).
  { unfold mergerOver, begin. by destruct (beginDocument _ _). }
  rewrite Hzero. by destruct commitError.
Qed.

Lemma finish_after_merge_witness :
  dev_writable brokenDevice = true
  /\ fst (fst (finish (H := sampleEnvironment) None
                 (addDocuments [sampleDocument] (mergerOver (H := sampleEnvironment) brokenDevice))))
     = OperationSuccess.
Proof.
  split; [reflexivity |].
  exact (f_equal (fun r => fst (fst r))
           (finish_after_merge (H := sampleEnvironment) brokenDevice [sampleDocument] None
              eq_refl)).
Defined.

(** X17. [finish] gives up the writer whatever happens: afterwards
    [addDocument] returns false and changes nothing, and a second [finish]
    answers that the merger is not initialized, as does [finish] on a
    merger that never began; [commit()] is called exactly when the merger
    had a writer whose [endDocument] succeeded; the counters are kept. *)
Theorem finish_gives_up_the_writer `{Environment} (m : PDFStreamingMerger)
    (commitError commitError' : option QByteArray) (document : PDFDocument)
    (documentIndex : Z) (namespaceFields : bool) :
  let m' := snd (fst (finish commitError m)) in
  m_writer m' = None
  /\ m_totalPages m' = m_totalPages m
  /\ m_totalDocuments m' = m_totalDocuments m
  /\ addDocument document documentIndex namespaceFields m' = (false, m')
  /\ finish commitError' m'
     = (OperationError (latin1 "Merger is not initialized."), m', false)
  /\ (snd (finish commitError m) = true <->
      exists w, m_writer m = Some w /\ fst (endDocument w) = OperationSuccess)
  /\ finish commitError newMerger
     = (OperationError (latin1 "Merger is not initialized."), newMerger, false).
Proof.
  cbv zeta.
  assert (Hnone : forall m0 : PDFStreamingMerger, m_writer m0 = None ->
            forall ce, finish ce m0
                       = (OperationError (latin1 "Merger is not initialized."), m0, false)).
  { intros m0 H0 ce. unfold finish. by rewrite H0. }
  assert (Hshape : m_writer (snd (fst (finish commitError m))) = None
            /\ m_totalPages (snd (fst (finish commitError m))) = m_totalPages m
            /\ m_totalDocuments (snd (fst (finish commitError m))) = m_totalDocuments m
            /\ (snd (finish commitError m) = true <->
                exists w, m_writer m = Some w /\ fst (endDocument w) = OperationSuccess)).
  { unfold finish. destruct (m_writer m) as [w|] eqn:Hwriter.
    - destruct (endDocument w) as [result w'] eqn:Hend.
      destruct result as [|message]; [destruct commitError |]; cbn;
        repeat split; try done.
      + intros _. exists w. by rewrite Hend.
      + intros _. exists w. by rewrite Hend.
      + intros (w0 & Hw0 & Hok). injection Hw0 as <-. by rewrite Hend in Hok.
    - cbn. repeat split; try done. intros (w0 & Hw0 & _). discriminate. }
  destruct Hshape as (Hwriter' & Hpages & Hdocs & Hcommit).
  split; [done |]. split; [done |]. split; [done |].
  split; [unfold addDocument; by rewrite Hwriter' |].
  split; [by apply Hnone |]. split; [done |]. by apply Hnone.
Qed.

(** X18. The counters of the merger agree with the file: after [begin] on a
    writable device and any number of [addDocument] calls,
    [getTotalDocuments] is the number of calls, [getTotalPages] is the
    number of page references the writer holds, and, the merger never
    setting a catalog, [endDocument] writes a page tree whose [Count] is
    [getTotalPages]. *)
Theorem merger_counts_pages `{Environment} (device : QIODevice)
    (documents : list PDFDocument) :
  dev_writable device = true ->
  let m := addDocuments documents (mergerOver device) in
  exists w rest,
    m_writer m = Some w
    /\ m_totalDocuments m = length documents
    /\ m_totalPages m = length (m_pages w)
    /\ dev_requested (m_device (snd (endDocument w)))
       = dev_requested (m_device w)
           ++ indirectObject (mkRef (Z.of_nat (getObjectCount w)) 0)
                (Dictionary
                   [ (latin1 "Type", Name (latin1 "Pages"));
                     (latin1 "Kids", Array (map Reference (m_pages w)));
                     (latin1 "Count", Int (Z.of_nat (m_totalPages m))) ])
           ++ rest.
Proof.
  intros Hwritable. cbv zeta.
  destruct (addDocuments_MergerSound device documents (mergerOver device)
              (mergerOver_MergerSound device Hwritable))
    as [(w & calls & Hwriter & _ & _ & Hopen & Hall & Hcount & Hnocat) Hdocs].
  assert (Hzero : m_totalDocuments (mergerOver device) = 0).
  { unfold mergerOver, begin. by destruct (beginDocument _ _). }
  pose proof (no_Unwritten_findUnwritten w (AllWritten_no_Unwritten w Hall)) as Hfind.
  exists w.
  exists (indirectObject (mkRef (Z.of_nat (S (length (m_objectOffsets w)))) 0)
            (catalogObject (mkRef (Z.of_nat (length (m_objectOffsets w))) 0))
          ++ xrefSection (m_objectOffsets (ensureCatalog w))
          ++ trailerSection (ensureCatalog w) (pos (m_device (ensureCatalog w)))).
  split; [done |]. split; [rewrite Hdocs, Hzero; lia |]. split; [done |].
  rewrite endDocument_success by done. cbv zeta. cbn [snd m_device].
  rewrite write_requested.
  assert (Hdevice : dev_requested (m_device (ensureCatalog w))
            = dev_requested (m_device w)
                ++ indirectObject (mkRef (Z.of_nat (length (m_objectOffsets w))) 0)
                     (pageTreeObject (m_pages w))
                ++ indirectObject (mkRef (Z.of_nat (S (length (m_objectOffsets w)))) 0)
                     (catalogObject (mkRef (Z.of_nat (length (m_objectOffsets w))) 0))).
  { rewrite (ensureCatalog_eq w Hopen), Hnocat.
    replace (isValid invalidReference) with false by (by vm_compute).
    cbv zeta. cbn [m_device]. by rewrite write_requested. }
  rewrite Hdevice, Hcount. unfold getObjectCount, pageTreeObject.
  by rewrite <- !app_assoc.
Qed.

Lemma merger_counts_pages_witness :
  dev_writable blankDevice = true
  /\ m_totalDocuments (addDocuments (H := sampleEnvironment) [sampleDocument; sampleDocument]
                         (mergerOver (H := sampleEnvironment) blankDevice)) = 2.
Proof.
  split; [reflexivity |].
  destruct (merger_counts_pages (H := sampleEnvironment) blankDevice
              [sampleDocument; sampleDocument] eq_refl) as (w & rest & _ & Hdocs & _).
  exact Hdocs.
Defined.

Section AllocationFacts.
Context `{Environment}.

Lemma mappingOf_inv K (live : list (nat * StorageEntry)) old new :
  mappingOf K live !! old = Some new ->
  exists j slot, live !! j = Some slot /\ old = oldReference slot /\ new = allocated K j.
Proof.
  intros Hnew. unfold mappingOf in Hnew. apply elem_of_list_to_map_2 in Hnew.
  unfold mappingPairs in Hnew. apply list_elem_of_lookup in Hnew as [j Hj].
  rewrite list_lookup_imap in Hj.
  destruct (live !! j) as [slot|] eqn:Hslot; [| done].
  simpl in Hj. injection Hj as <- <-. by exists j, slot.
Qed.

End AllocationFacts.

(** X19. [addDocument] on an open writer with [K] slots gives the
    transplanted slots the next object numbers, [K] onwards, without gaps:
    afterwards the writer has one slot more per transplanted slot, every
    reference in the range of the mapping has generation 0 and names a
    slot that is written, two different source references are never
    mapped to the same output reference, and the slots the writer had
    before are untouched. *)
Theorem addDocument_references_resolve `{Environment} (m : PDFStreamingMerger)
    (w : PDFStreamingDocumentWriter) (document : PDFDocument) (documentIndex : Z)
    (namespaceFields : bool) :
  m_writer m = Some w ->
  isOpen w = true ->
  let K := getObjectCount w in
  let live := transplanted document in
  let M := mappingOf K live in
  exists w',
    m_writer (snd (addDocument document documentIndex namespaceFields m)) = Some w'
    /\ getObjectCount w' = K + length live
    /\ (forall N, N < K -> m_objectOffsets w' !! N = m_objectOffsets w !! N)
    /\ (forall old new,
          M !! old = Some new ->
          generation new = 0%Z
          /\ (Z.of_nat K <= objectNumber new < Z.of_nat (getObjectCount w'))%Z
          /\ exists offset,
               m_objectOffsets w' !! Z.to_nat (objectNumber new)
               = Some (mkEntry offset 0 false)
               /\ (0 <= offset)%Z)
    /\ (forall old1 old2 new,
          M !! old1 = Some new -> M !! old2 = Some new -> old1 = old2).
Proof.
  intros Hwriter Hopen K live M. unfold isOpen in Hopen.
  destruct (addDocument_step m w document documentIndex namespaceFields Hwriter Hopen)
    as (Hadd & _ & _ & _ & Hlen & Hold & Hnew).
  cbv zeta in Hadd, Hlen, Hold, Hnew. fold live in Hadd, Hlen, Hold, Hnew.
  rewrite Hadd. cbn [snd m_writer]. eexists. split; [reflexivity |].
  unfold getObjectCount. split; [exact Hlen |]. split; [exact Hold |]. split.
  - intros old new Hmap.
    destruct (mappingOf_inv K live old new Hmap) as (j & slot & Hslot & -> & ->).
    pose proof (lookup_lt_Some _ _ _ Hslot) as Hj.
    unfold allocated. cbn [generation objectNumber]. split; [done |].
    split; [rewrite Hlen; unfold K, getObjectCount; lia |].
    rewrite Nat2Z.id. by apply Hnew.
  - intros old1 old2 new H1 H2.
    destruct (mappingOf_inv K live old1 new H1) as (j1 & s1 & Hs1 & -> & Hn1).
    destruct (mappingOf_inv K live old2 new H2) as (j2 & s2 & Hs2 & -> & Hn2).
    assert (j1 = j2) as <-.
    { rewrite Hn1 in Hn2. unfold allocated in Hn2. injection Hn2 as Hn2. lia. }
    congruence.
Qed.

Lemma addDocument_references_resolve_witness :
  m_writer sampleMerger = Some sampleWriter
  /\ isOpen sampleWriter = true
  /\ exists w',
       m_writer (snd (addDocument (H := sampleEnvironment) sampleDocument 0 false
                        sampleMerger)) = Some w'
       /\ getObjectCount w' = getObjectCount sampleWriter + length (transplanted sampleDocument).
Proof.
  split; [reflexivity |]. split; [reflexivity |].
  destruct (addDocument_references_resolve (H := sampleEnvironment) sampleMerger
              sampleWriter sampleDocument 0 false eq_refl eq_refl)
    as (w' & Hw' & Hcount & _).
  exists w'. exact (conj Hw' Hcount).
Defined.

(** * PDFium thumbnails: the library is used by its rules *)

Section PdfiumFacts.
Import PdfiumThumbnail.

Lemma obeyAll_app (calls calls' : list FPDFCall) (state : bool * list Handle) :
  obeyAll (calls ++ calls') state
  = match obeyAll calls state with
    | Some state' => obeyAll calls' state'
    | None => None
    end.
Proof.
  revert state. induction calls as [|c calls IH]; intros state; [done |].
  simpl. destruct (obey c state); [apply IH | done].
Qed.

(** Runs the checker over a list of calls with symbolic handles. *)
Ltac check_calls :=
  cbn; repeat (case_bool_decide; cbn);
  first [ done
        | exfalso; match goal with Hnot : ~ _ |- _ => apply Hnot; repeat constructor end ].

Lemma getEmbeddedThumbnail_obeys lib pathUtf8 pageIndex :
  obeyAll (snd (getEmbeddedThumbnail lib true pathUtf8 pageIndex)) (true, [])
  = Some (true, []).
Proof.
  unfold getEmbeddedThumbnail. cbn [negb].
  destruct (FPDF_LoadDocument lib pathUtf8) as [doc|]; [| done].
  destruct (FPDF_LoadPage lib doc pageIndex) as [page|].
  - destruct (FPDFPage_GetThumbnailAsBitmap lib page) as [bitmap|]; check_calls.
  - check_calls.
Qed.

Lemma renderPage_obeys lib pathUtf8 pageIndex targetSize :
  obeyAll (snd (renderPage lib true pathUtf8 pageIndex targetSize)) (true, [])
  = Some (true, []).
Proof.
  unfold renderPage. cbn [negb].
  destruct (FPDF_LoadDocument lib pathUtf8) as [doc|]; [| done].
  destruct (FPDF_LoadPage lib doc pageIndex) as [page|].
  - destruct (renderExtent lib page targetSize) as [renderWidth renderHeight].
    destruct (FPDFBitmap_Create lib renderWidth renderHeight) as [bitmap|]; check_calls.
  - check_calls.
Qed.

Lemma call_obeys (c : ApiCall) (s_initialized : bool) :
  obeyAll (snd (call c s_initialized)) (s_initialized, [])
  = Some (fst (call c s_initialized), []).
Proof.
  destruct c as [| |lib pathUtf8 pageIndex|lib pathUtf8 pageIndex targetSize];
    destruct s_initialized; try done; cbn [call fst snd].
  - apply getEmbeddedThumbnail_obeys.
  - apply renderPage_obeys.
Qed.

End PdfiumFacts.

(** X20. However [initialize], [shutdown], [getEmbeddedThumbnail] and
    [renderPage] are called one after the other, and whatever the library
    answers, the library is used by its rules: it is never initialized
    twice without a shutdown between, never destroyed or called while it is
    not initialized, every document, page and bitmap handle is used only
    while it is open and is released before the call returns, the last
    opened first; [isAvailable] tells whether the library is initialized. *)
Theorem pdfium_used_by_its_rules (calls : list PdfiumThumbnail.ApiCall) :
  let '(s_initialized, made) := PdfiumThumbnail.callAll calls false in
  PdfiumThumbnail.obeyAll made (false, [])
  = Some (PdfiumThumbnail.isAvailable s_initialized, []).
Proof.
  generalize false. induction calls as [|c calls IH]; intros s; [done |].
  cbn [PdfiumThumbnail.callAll].
  pose proof (call_obeys c s) as Hcall.
  destruct (PdfiumThumbnail.call c s) as [s1 made].
  specialize (IH s1). destruct (PdfiumThumbnail.callAll calls s1) as [s2 made'].
  rewrite obeyAll_app. cbn [fst snd] in Hcall. by rewrite Hcall.
Qed.

(** * Page thumbnails: cache keys, renders in flight, tags *)

Section DecimalFacts.

Lemma decimalDigits_value (n : Z) :
  (0 <= n < 10 ^ 20)%Z ->
  Forall isDigit (decimalDigits 20 n [])
  /\ 1 <= length (decimalDigits 20 n [])
  /\ decimalValue (decimalDigits 20 n []) = n.
Proof.
  intros [Hn Hlt].
  destruct (decimalDigits_spec 20 n [] Hn ltac:(lia))
    as (ds & Heq & Hall & Hlen & _ & Hval).
  rewrite Heq, app_nil_r. split; [done |]. split; [done |].
  unfold decimalValue. rewrite Hval by exact Hlt. lia.
Qed.

Lemma minus_is_no_digit : ~ isDigit "-"%char.
Proof. unfold isDigit. simpl. lia.
Qed.

Lemma QString_number_inj (n m : Z) :
  (- 10 ^ 20 < n < 10 ^ 20)%Z -> (- 10 ^ 20 < m < 10 ^ 20)%Z ->
  QString_number n = QString_number m -> n = m.
Proof.
  intros Hn Hm. unfold QString_number.
  destruct (Z.ltb_spec n 0) as [Hneg|Hpos]; destruct (Z.ltb_spec m 0) as [Hneg'|Hpos'].
  - intros Heq. apply (f_equal (@tl ascii)) in Heq. cbn [tl] in Heq.
    destruct (decimalDigits_value (- n) ltac:(lia)) as (_ & _ & Hv).
    destruct (decimalDigits_value (- m) ltac:(lia)) as (_ & _ & Hv').
    rewrite Heq in Hv. lia.
  - intros Heq. exfalso.
    destruct (decimalDigits_value m ltac:(lia)) as (Hall & _ & _).
    rewrite <- Heq in Hall. apply Forall_cons in Hall as [Hminus _].
    by apply minus_is_no_digit.
  - intros Heq. exfalso.
    destruct (decimalDigits_value n ltac:(lia)) as (Hall & _ & _).
    rewrite Heq in Hall. apply Forall_cons in Hall as [Hminus _].
    by apply minus_is_no_digit.
  - intros Heq.
    destruct (decimalDigits_value n ltac:(lia)) as (_ & _ & Hv).
    destruct (decimalDigits_value m ltac:(lia)) as (_ & _ & Hv').
    rewrite Heq in Hv. lia.
Qed.

(** The decimal form of a number holds digits and the minus sign only. *)
Lemma QString_number_chars (n : Z) (c : ascii) :
  (- 10 ^ 20 < n < 10 ^ 20)%Z -> In c (QString_number n) -> isDigit c \/ c = "-"%char.
Proof.
  intros Hn. unfold QString_number.
  destruct (Z.ltb_spec n 0) as [Hneg|Hpos].
  - destruct (decimalDigits_value (- n) ltac:(lia)) as (Hall & _ & _).
    intros [<-|Hin]; [by right | left].
    rewrite List.Forall_forall in Hall. by apply Hall.
  - destruct (decimalDigits_value n ltac:(lia)) as (Hall & _ & _).
    intros Hin. left. rewrite List.Forall_forall in Hall. by apply Hall.
Qed.

Lemma isInt64_bound (n : Z) : PageItemDelegate.isInt64 n -> (- 10 ^ 20 < n < 10 ^ 20)%Z.
Proof. unfold PageItemDelegate.isInt64. lia.
Qed.

(** A separator that is neither a digit nor the minus sign ends the
    decimal form of a number. *)
Lemma number_then_separator (n m : Z) (sep : ascii) (rest rest' : QByteArray) :
  PageItemDelegate.isInt64 n -> PageItemDelegate.isInt64 m ->
  ~ isDigit sep -> sep <> "-"%char ->
  QString_number n ++ sep :: rest = QString_number m ++ sep :: rest' ->
  n = m /\ rest = rest'.
Proof.
  intros Hn%isInt64_bound Hm%isInt64_bound Hdigit Hminus Heq.
  assert (Hsplit : forall a a' : QByteArray,
            ~ In sep a -> ~ In sep a' -> a ++ sep :: rest = a' ++ sep :: rest' ->
            a = a' /\ rest = rest').
  { induction a as [|x a IH]; intros [|x' a'] Ha Ha' Happ; simpl in *.
    - by injection Happ.
    - injection Happ as <- _. tauto.
    - injection Happ as -> _. tauto.
    - injection Happ as -> Happ.
      destruct (IH a' ltac:(tauto) ltac:(tauto) Happ) as [-> ->]. done. }
  destruct (Hsplit (QString_number n) (QString_number m)) as [Hnum Hrest]; [| | done |].
  - intros Hin. destruct (QString_number_chars n sep Hn Hin); tauto.
  - intros Hin. destruct (QString_number_chars m sep Hm Hin); tauto.
  - split; [by apply QString_number_inj | done].
Qed.

End DecimalFacts.

(** X21. The cache key tells thumbnails apart: two group items and
    rectangles whose keys are equal agree in document index, image index,
    rotation, page index, page type, width and height. The position of the
    rectangle is not part of the key. *)
Theorem cache_key_injective (groupItem groupItem' : PageItemDelegate.GroupItem)
    (rect rect' : PageItemDelegate.QRect) :
  PageItemDelegate.fieldsInt64 groupItem rect ->
  PageItemDelegate.fieldsInt64 groupItem' rect' ->
  PageItemDelegate.cacheKey groupItem rect = PageItemDelegate.cacheKey groupItem' rect' ->
  groupItem = groupItem'
  /\ PageItemDelegate.rect_width rect = PageItemDelegate.rect_width rect'
  /\ PageItemDelegate.rect_height rect = PageItemDelegate.rect_height rect'.
Proof.
  destruct groupItem as [d i r p t], groupItem' as [d' i' r' p' t'].
  destruct rect as [x y w h], rect' as [x' y' w' h'].
  unfold PageItemDelegate.fieldsInt64, PageItemDelegate.cacheKey.
  cbn [PageItemDelegate.documentIndex PageItemDelegate.imageIndex
       PageItemDelegate.pageAdditionalRotation PageItemDelegate.pageIndex
       PageItemDelegate.pageType PageItemDelegate.rect_width
       PageItemDelegate.rect_height].
  change (latin1 "#") with ["#"%char]. change (latin1 "@") with ["@"%char].
  change (latin1 "x") with ["x"%char]. cbn [app].
  intros (Hd & Hi & Hr & Hp & Ht & Hw & Hh) (Hd' & Hi' & Hr' & Hp' & Ht' & Hw' & Hh') Hkey.
  assert (Hhash : ~ isDigit "#"%char /\ "#"%char <> "-"%char).
  { unfold isDigit. split; [simpl; lia | done]. }
  assert (Hat : ~ isDigit "@"%char /\ "@"%char <> "-"%char).
  { unfold isDigit. split; [simpl; lia | done]. }
  assert (Hx : ~ isDigit "x"%char /\ "x"%char <> "-"%char).
  { unfold isDigit. split; [simpl; lia | done]. }
  apply number_then_separator in Hkey as [-> Hkey]; [| tauto ..].
  apply number_then_separator in Hkey as [-> Hkey]; [| tauto ..].
  apply number_then_separator in Hkey as [-> Hkey]; [| tauto ..].
  apply number_then_separator in Hkey as [-> Hkey]; [| tauto ..].
  apply number_then_separator in Hkey as [-> Hkey]; [| tauto ..].
  apply number_then_separator in Hkey as [-> Hkey]; [| tauto ..].
  apply QString_number_inj in Hkey as ->; [done | by apply isInt64_bound ..].
Qed.

Lemma cache_key_injective_witness :
  PageItemDelegate.fieldsInt64 PageItemDelegate.sampleGroupItem PageItemDelegate.sampleRect
  /\ PageItemDelegate.rect_width PageItemDelegate.sampleRect = 100%Z.
Proof.
  assert (Hfields : PageItemDelegate.fieldsInt64 PageItemDelegate.sampleGroupItem
                      PageItemDelegate.sampleRect).
  { unfold PageItemDelegate.fieldsInt64, PageItemDelegate.isInt64.
    cbn [PageItemDelegate.sampleGroupItem PageItemDelegate.sampleRect
         PageItemDelegate.documentIndex PageItemDelegate.imageIndex
         PageItemDelegate.pageAdditionalRotation PageItemDelegate.pageIndex
         PageItemDelegate.pageType PageItemDelegate.rect_width
         PageItemDelegate.rect_height].
    lia. }
  split; [exact Hfields |].
  exact (proj1 (proj2 (cache_key_injective PageItemDelegate.sampleGroupItem
                         PageItemDelegate.sampleGroupItem PageItemDelegate.sampleRect
                         PageItemDelegate.sampleRect Hfields Hfields eq_refl))).
Defined.

Section DelegateFacts.
Import PageItemDelegate.
Variable PT_Empty : Z.

Lemma deleteLater_keeps (key k : QByteArray) (ws : list QByteArray) :
  k ∈ ws -> k <> key -> k ∈ deleteLater key ws.
Proof.
  induction ws as [|w ws IH]; intros Hin Hne; [by apply elem_of_nil in Hin |].
  simpl. case_bool_decide as Hw.
  - apply elem_of_cons in Hin as [->|Hin]; [congruence | done].
  - apply elem_of_cons in Hin as [->|Hin]; [apply list_elem_of_here |].
    apply list_elem_of_further. by apply IH.
Qed.

Lemma deleteLater_sub (key k : QByteArray) (ws : list QByteArray) :
  k ∈ deleteLater key ws -> k ∈ ws.
Proof.
  induction ws as [|w ws IH]; [done |].
  simpl. case_bool_decide as Hw; intros Hin.
  - by apply list_elem_of_further.
  - apply elem_of_cons in Hin as [->|Hin]; [apply list_elem_of_here |].
    apply list_elem_of_further. by apply IH.
Qed.

Lemma deleteLater_NoDup (key : QByteArray) (ws : list QByteArray) :
  NoDup ws -> NoDup (deleteLater key ws) /\ key ∉ deleteLater key ws.
Proof.
  induction ws as [|w ws IH]; intros Hnodup.
  - split; [constructor | apply not_elem_of_nil].
  - apply NoDup_cons in Hnodup as [Hw Hnodup]. simpl.
    case_bool_decide as Hkey.
    + subst w. done.
    + destruct (IH Hnodup) as [IHnodup IHkey]. split.
      * apply NoDup_cons. split; [| done].
        intros Hin. by apply Hw, (deleteLater_sub key).
      * intros [->|Hin]%elem_of_cons; [done | by apply IHkey].
Qed.

Lemma getPageImagePixmap_cases (groups : list GroupItem) (rect : QRect) (s : Delegate) :
  snd (getPageImagePixmap PT_Empty groups rect s) = s
  \/ exists key,
       (key ∉ m_pendingRenders s)
       /\ snd (getPageImagePixmap PT_Empty groups rect s)
          = mkDelegate (m_pageImageSize s) (m_pendingRenders s ∪ {[ key ]})
              (m_updatePending s) (m_updateTimer s) (watchers s ++ [key])
              (QPixmapCache s) (sizeHintChanged s) (timerRestarts s).
Proof.
  unfold getPageImagePixmap. destruct groups as [|groupItem groups]; [by left |].
  destruct (pageType groupItem =? PT_Empty)%Z; [by left |].
  cbv zeta. case_bool_decide; [by left |]. case_bool_decide as Hpending; [by left |].
  right. by exists (cacheKey groupItem rect).
Qed.

Lemma happen_PendingInFlight (e : Event) (s s' : Delegate) :
  happen PT_Empty e s = Some s' ->
  PendingInFlight s /\ m_updatePending s = m_updateTimer s /\ timerRestarts s = 0 ->
  PendingInFlight s' /\ m_updatePending s' = m_updateTimer s' /\ timerRestarts s' = 0.
Proof.
  intros Hstep (Hflight & Htimer & Hrestarts). unfold PendingInFlight in *.
  destruct e as [groups rect|key imageIsNull| |size|key]; simpl in Hstep.
  - injection Hstep as <-.
    destruct (getPageImagePixmap_cases groups rect s) as [->|(key & _ & ->)]; [done |].
    cbn [m_pendingRenders watchers m_updatePending m_updateTimer timerRestarts].
    split; [| done]. intros k [Hk|Hk%elem_of_singleton]%elem_of_union.
    + apply elem_of_app. left. by apply Hflight.
    + subst k. apply elem_of_app. right. apply list_elem_of_here.
  - case_bool_decide as Hin; [| done]. injection Hstep as <-.
    unfold watcherFinished. rewrite Htimer.
    destruct (m_updateTimer s) eqn:Hactive;
      cbn [m_pendingRenders watchers m_updatePending m_updateTimer timerRestarts].
    + split; [| done]. intros k [Hk Hne%not_elem_of_singleton]%elem_of_difference.
      apply deleteLater_keeps; [by apply Hflight | done].
    + split; [| done]. intros k [Hk Hne%not_elem_of_singleton]%elem_of_difference.
      apply deleteLater_keeps; [by apply Hflight | done].
  - destruct (m_updateTimer s); [| done]. by injection Hstep as <-.
  - injection Hstep as <-. unfold setPageImageSize.
    case_bool_decide; [done |].
    cbn [m_pendingRenders watchers m_updatePending m_updateTimer timerRestarts].
    split; [| done]. intros k Hk. by apply elem_of_empty in Hk.
  - by injection Hstep as <-.
Qed.

Lemma happen_OneRenderEach (e : Event) (s s' : Delegate) :
  happen PT_Empty e s = Some s' -> setsPageImageSize e = false ->
  OneRenderEach s -> OneRenderEach s'.
Proof.
  intros Hstep Hsize [Hnodup Hsame]. unfold OneRenderEach.
  destruct e as [groups rect|key imageIsNull| |size|key]; simpl in Hstep; [| | | done |].
  - injection Hstep as <-.
    destruct (getPageImagePixmap_cases groups rect s) as [->|(key & Hfresh & ->)]; [done |].
    cbn [m_pendingRenders watchers]. split.
    + apply NoDup_app. split; [done |]. split; [| apply NoDup_singleton].
      intros k Hk ->%list_elem_of_singleton. by apply Hfresh, Hsame.
    + intros k. rewrite elem_of_union, elem_of_app, elem_of_singleton,
        list_elem_of_singleton. by rewrite Hsame.
  - case_bool_decide as Hin; [| done]. injection Hstep as <-.
    destruct (deleteLater_NoDup key (watchers s) Hnodup) as [Hnodup' Hgone].
    assert (Hwatchers : watchers (watcherFinished key imageIsNull s)
                        = deleteLater key (watchers s)
                        /\ m_pendingRenders (watcherFinished key imageIsNull s)
                           = m_pendingRenders s ∖ {[ key ]}).
    { unfold watcherFinished. by destruct (m_updatePending s). }
    destruct Hwatchers as [-> ->]. split; [done |].
    intros k. rewrite elem_of_difference, not_elem_of_singleton, Hsame. split.
    + intros [Hk Hne]. by apply deleteLater_keeps.
    + intros Hk. split; [by apply (deleteLater_sub key) |].
      intros ->. by apply Hgone.
  - destruct (m_updateTimer s); [| done]. by injection Hstep as <-.
  - by injection Hstep as <-.
Qed.

End DelegateFacts.

(** X22. While the page image size is not set anew, no thumbnail is
    rendered twice at a time: whatever is painted, whichever renders
    finish, whenever the timer fires and whatever the cache drops, the
    renders in flight have distinct keys, and a key is marked pending
    exactly while its render is in flight. *)
Theorem one_render_per_thumbnail (PT_Empty : Z) (cache : gset QByteArray)
    (events : list PageItemDelegate.Event) (s : PageItemDelegate.Delegate) :
  PageItemDelegate.happenAll PT_Empty events (PageItemDelegate.newDelegate cache) = Some s ->
  existsb PageItemDelegate.setsPageImageSize events = false ->
  NoDup (PageItemDelegate.watchers s)
  /\ forall key,
       key ∈ PageItemDelegate.m_pendingRenders s <-> key ∈ PageItemDelegate.watchers s.
Proof.
  intros Hrun Hsize.
  assert (Hstart : PageItemDelegate.OneRenderEach (PageItemDelegate.newDelegate cache)).
  { split; [constructor |]. intros key. simpl. split.
    - by intros Hin%elem_of_empty.
    - by intros Hin%elem_of_nil. }
  revert Hrun Hsize Hstart. generalize (PageItemDelegate.newDelegate cache).
  induction events as [|e events IH]; intros s0 Hrun Hsize Hstart.
  - injection Hrun as <-. exact Hstart.
  - simpl in Hrun, Hsize. apply orb_false_elim in Hsize as [He Hrest].
    destruct (PageItemDelegate.happen PT_Empty e s0) as [s1|] eqn:Hstep; [| done].
    apply (IH s1 Hrun Hrest). by apply (happen_OneRenderEach PT_Empty e s0).
Qed.

Lemma one_render_per_thumbnail_witness :
  PageItemDelegate.happenAll 2 PageItemDelegate.sampleEvents (PageItemDelegate.newDelegate ∅)
  = Some (PageItemDelegate.mkDelegate (-1, -1)%Z
            {[ PageItemDelegate.cacheKey PageItemDelegate.sampleGroupItem
                 PageItemDelegate.sampleRect ]}
            false false
            [PageItemDelegate.cacheKey PageItemDelegate.sampleGroupItem
               PageItemDelegate.sampleRect]
            ∅ 1 0)
  /\ NoDup [PageItemDelegate.cacheKey PageItemDelegate.sampleGroupItem
              PageItemDelegate.sampleRect].
Proof.
  assert (Hrun : PageItemDelegate.happenAll 2 PageItemDelegate.sampleEvents
                   (PageItemDelegate.newDelegate ∅)
                 = Some (PageItemDelegate.mkDelegate (-1, -1)%Z
                           {[ PageItemDelegate.cacheKey PageItemDelegate.sampleGroupItem
                                PageItemDelegate.sampleRect ]}
                           false false
                           [PageItemDelegate.cacheKey PageItemDelegate.sampleGroupItem
                              PageItemDelegate.sampleRect]
                           ∅ 1 0)).
  { vm_compute. reflexivity. }
  split; [exact Hrun |].
  exact (proj1 (one_render_per_thumbnail 2 ∅ PageItemDelegate.sampleEvents _ Hrun eq_refl)).
Defined.

(** X23. A placeholder is never left without a render: whatever happens
    to a delegate, changes of the page image size included, every key
    marked pending has a render in flight, whose end clears the mark; an
    update is pending exactly while the timer runs, so that a pending
    update always has its [timeout] to come, and the running timer is
    never started again. *)
Theorem pending_render_is_in_flight (PT_Empty : Z) (cache : gset QByteArray)
    (events : list PageItemDelegate.Event) (s : PageItemDelegate.Delegate) :
  PageItemDelegate.happenAll PT_Empty events (PageItemDelegate.newDelegate cache) = Some s ->
  (forall key, key ∈ PageItemDelegate.m_pendingRenders s -> key ∈ PageItemDelegate.watchers s)
  /\ PageItemDelegate.m_updatePending s = PageItemDelegate.m_updateTimer s
  /\ PageItemDelegate.timerRestarts s = 0.
Proof.
  intros Hrun.
  assert (Hstart : PageItemDelegate.PendingInFlight (PageItemDelegate.newDelegate cache)
                   /\ PageItemDelegate.m_updatePending (PageItemDelegate.newDelegate cache)
                      = PageItemDelegate.m_updateTimer (PageItemDelegate.newDelegate cache)
                   /\ PageItemDelegate.timerRestarts (PageItemDelegate.newDelegate cache) = 0).
  { split; [| done]. intros key Hin. by apply elem_of_empty in Hin. }
  revert Hrun Hstart. generalize (PageItemDelegate.newDelegate cache).
  induction events as [|e events IH]; intros s0 Hrun Hstart.
  - injection Hrun as <-. exact Hstart.
  - simpl in Hrun.
    destruct (PageItemDelegate.happen PT_Empty e s0) as [s1|] eqn:Hstep; [| done].
    apply (IH s1 Hrun). by apply (happen_PendingInFlight PT_Empty e s0).
Qed.

Lemma pending_render_is_in_flight_witness :
  PageItemDelegate.happenAll 2
    (PageItemDelegate.PageImageSizeSet (100, 141)%Z :: PageItemDelegate.sampleEvents)
    (PageItemDelegate.newDelegate ∅)
  = Some (PageItemDelegate.mkDelegate (100, 141)%Z
            {[ PageItemDelegate.cacheKey PageItemDelegate.sampleGroupItem
                 PageItemDelegate.sampleRect ]}
            false false
            [PageItemDelegate.cacheKey PageItemDelegate.sampleGroupItem
               PageItemDelegate.sampleRect]
            ∅ 2 0)
  /\ false = false.
Proof.
  assert (Hrun : PageItemDelegate.happenAll 2
                   (PageItemDelegate.PageImageSizeSet (100, 141)%Z
                      :: PageItemDelegate.sampleEvents)
                   (PageItemDelegate.newDelegate ∅)
                 = Some (PageItemDelegate.mkDelegate (100, 141)%Z
                           {[ PageItemDelegate.cacheKey PageItemDelegate.sampleGroupItem
                                PageItemDelegate.sampleRect ]}
                           false false
                           [PageItemDelegate.cacheKey PageItemDelegate.sampleGroupItem
                              PageItemDelegate.sampleRect]
                           ∅ 2 0)).
  { vm_compute. reflexivity. }
  split; [exact Hrun |].
  exact (proj1 (proj2 (pending_render_is_in_flight 2 ∅ _ _ Hrun))).
Defined.

(** X24. Setting another page image size forgets the renders in flight:
    [setPageImageSize] clears the pending marks but not the renders, so
    when an item whose render is in flight and whose pixmap is not cached
    is painted after the size changed and yields the same key, a second
    render of that key is launched beside the first. *)
Theorem size_change_forgets_renders (PT_Empty : Z) (s : PageItemDelegate.Delegate)
    (groupItem : PageItemDelegate.GroupItem) (groups : list PageItemDelegate.GroupItem)
    (rect : PageItemDelegate.QRect) (pageImageSize : Z * Z) :
  PageItemDelegate.pageType groupItem <> PT_Empty ->
  PageItemDelegate.cacheKey groupItem rect ∈ PageItemDelegate.watchers s ->
  PageItemDelegate.cacheKey groupItem rect ∉ PageItemDelegate.QPixmapCache s ->
  PageItemDelegate.m_pageImageSize s <> pageImageSize ->
  exists s',
    PageItemDelegate.happenAll PT_Empty
      [ PageItemDelegate.PageImageSizeSet pageImageSize;
        PageItemDelegate.Painted (groupItem :: groups) rect ] s = Some s'
    /\ PageItemDelegate.watchers s'
       = PageItemDelegate.watchers s ++ [PageItemDelegate.cacheKey groupItem rect]
    /\ ~ NoDup (PageItemDelegate.watchers s').
Proof.
  intros Htype Hflight Hcache Hsize. eexists. split; [reflexivity |].
  unfold PageItemDelegate.setPageImageSize.
  rewrite bool_decide_eq_false_2 by done.
  unfold PageItemDelegate.getPageImagePixmap.
  replace (PageItemDelegate.pageType groupItem =? PT_Empty)%Z with false
    by (symmetry; by apply Z.eqb_neq).
  cbv zeta. cbn [PageItemDelegate.QPixmapCache PageItemDelegate.m_pendingRenders].
  rewrite bool_decide_eq_false_2 by done.
  rewrite bool_decide_eq_false_2 by apply not_elem_of_empty.
  cbn [snd PageItemDelegate.watchers]. split; [done |].
  intros Hnodup. apply NoDup_app in Hnodup as (_ & Hdisjoint & _).
  apply (Hdisjoint _ Hflight), list_elem_of_here.
Qed.

Lemma size_change_forgets_renders_witness :
  PageItemDelegate.pageType PageItemDelegate.sampleGroupItem <> 2%Z
  /\ exists s',
       PageItemDelegate.happenAll 2
         [ PageItemDelegate.PageImageSizeSet (100, 141)%Z;
           PageItemDelegate.Painted [PageItemDelegate.sampleGroupItem]
             PageItemDelegate.sampleRect ] PageItemDelegate.samplePainted = Some s'
       /\ ~ NoDup (PageItemDelegate.watchers s').
Proof.
  assert (Htype : PageItemDelegate.pageType PageItemDelegate.sampleGroupItem <> 2%Z)
    by discriminate.
  split; [exact Htype |].
  destruct (size_change_forgets_renders 2 PageItemDelegate.samplePainted
              PageItemDelegate.sampleGroupItem [] PageItemDelegate.sampleRect
              (100, 141)%Z Htype)
    as (s' & Hrun & _ & Hdup).
  - apply (bool_decide_unpack _). vm_compute. exact I.
  - apply not_elem_of_empty.
  - discriminate.
  - exists s'. exact (conj Hrun Hdup).
Defined.

Section TagFacts.
Import PageItemDelegate.

Lemma split_nonempty (sep : QChar) (s : QString) : split sep s <> [].
Proof.
  destruct s as [|c rest]; [done |]. simpl.
  destruct (c =? sep)%N; [done |]. by destruct (split sep rest).
Qed.

Lemma split_one (sep : QChar) (s : QString) :
  forall part, split sep s = [part] -> s = part /\ (sep ∉ part).
Proof.
  induction s as [|c rest IH]; intros part Hsplit; simpl in Hsplit.
  - injection Hsplit as <-. split; [done | apply not_elem_of_nil].
  - destruct (N.eqb_spec c sep) as [->|Hne].
    + injection Hsplit as _ Hrest. by apply split_nonempty in Hrest.
    + destruct (split sep rest) as [|part' parts] eqn:Hrest; [by apply split_nonempty in Hrest |].
      injection Hsplit as <- ->. destruct (IH part' eq_refl) as [-> Hnot].
      split; [done |]. apply not_elem_of_cons. split; [congruence | done].
Qed.

Lemma split_two (sep : QChar) (s : QString) :
  forall a b, split sep s = [a; b] -> s = a ++ sep :: b /\ (sep ∉ a) /\ (sep ∉ b).
Proof.
  induction s as [|c rest IH]; intros a b Hsplit; simpl in Hsplit; [done |].
  destruct (N.eqb_spec c sep) as [->|Hne].
  - injection Hsplit as <- Hrest. destruct (split_one sep rest b Hrest) as [-> Hnot].
    split; [done |]. split; [apply not_elem_of_nil | done].
  - destruct (split sep rest) as [|part parts] eqn:Hrest; [done |].
    injection Hsplit as <- ->. destruct (IH part b eq_refl) as (-> & Ha & Hb).
    split; [done |]. split; [| done].
    apply not_elem_of_cons. split; [congruence | done].
Qed.

Lemma split_without (sep : QChar) (s : QString) : sep ∉ s -> split sep s = [s].
Proof.
  induction s as [|c rest IH]; intros Hnot; [done |].
  apply not_elem_of_cons in Hnot as [Hne Hnot]. simpl.
  destruct (N.eqb_spec c sep) as [->|_]; [done |]. by rewrite IH.
Qed.

Lemma split_at (sep : QChar) (a b : QString) :
  sep ∉ a -> split sep (a ++ sep :: b) = a :: split sep b.
Proof.
  induction a as [|c a IH]; intros Hnot; simpl.
  - by rewrite N.eqb_refl.
  - apply not_elem_of_cons in Hnot as [Hne Hnot].
    destruct (N.eqb_spec c sep) as [->|_]; [done |]. by rewrite IH.
Qed.

End TagFacts.

(** X25. [paint] draws a bubble for a tag exactly when the tag is a colour
    name, one [@] and a text that is not empty, with no further [@]
    anywhere; the bubble then has that colour name and that text. The
    colour name may be empty. Every other tag is passed over. *)
Theorem tag_bubble_format (tag color text : PageItemDelegate.QString) :
  PageItemDelegate.tagBubble tag = Some (color, text)
  <-> tag = color ++ 64%N :: text /\ (64%N ∉ color) /\ (64%N ∉ text) /\ text <> [].
Proof.
  unfold PageItemDelegate.tagBubble. cbv zeta. split.
  - destruct (PageItemDelegate.split 64%N tag) as [|a [|b [|c parts]]] eqn:Hsplit; try done.
    cbn [length Nat.eqb negb orb List.last hd].
    destruct b as [|x b]; [done |]. cbn [length Nat.eqb].
    intros Heq. injection Heq as <- <-.
    destruct (split_two 64%N tag a (x :: b) Hsplit) as (-> & Ha & Hb). done.
  - intros (-> & Hcolor & Htext & Hnonempty).
    rewrite split_at, split_without by done.
    cbn [length Nat.eqb negb orb List.last hd].
    destruct text as [|x text]; done.
Qed.
